(** * Dive log map: marker reconciliation, selection, storage helpers

    A shallow embedding of the TypeScript sources of the dive-log
    application:

    - [src/types/index.ts]            (module [Types])
    - [lib/maps.ts]                   (module [Maps]: [createBounds];
                                       source file unnamed/part_001)
    - [lib/storage.ts]                (module [Storage]: [deletePhoto],
                                       [validateImageFile], [validateImageFiles];
                                       second half of unnamed/part_002)
    - [lib/firestore.ts]              (module [Firestore]: [getDiveLog],
                                       [getDiveLogs], [deleteDiveLog],
                                       [getRecentDiveLogs]; first half of
                                       unnamed/part_002)
    - [firestore.rules]               (module [FirestoreRules], which the
                                       writes to the document store obey)
    - [components/map/DiveMap.tsx]    (module [DiveMap]: [createMarkerContent],
                                       [createMarker], the [diveLogs] effect,
                                       called [reconcile], and the
                                       [selectedDiveId] effect, called
                                       [setSelected]; second half of
                                       src/components/forms/DiveLogForm.tsx)

    JavaScript [number]s that are only stored and compared (coordinates) are
    rationals; counts, sizes, zoom levels and millisecond dates are integers.
    JavaScript objects used as dictionaries are finite maps with string keys;
    objects that are mutated through references (the map markers) live in an
    explicit store and are named by their index in it. *)

From Stdlib Require Import ZArith QArith Qminmax Lia.
From stdpp Require Import base option list strings gmap fin_maps pretty sorting.

Local Open Scope string_scope.
Local Open Scope Z_scope.
Local Open Scope list_scope.

(* ===================================================================== *)
(** ** Data model ([src/types/index.ts])                                  *)
(* ===================================================================== *)

Module Types.

(** [interface DiveLocation { lat; lng; name; address? }] *)
Record DiveLocation := {
  lat : Q;
  lng : Q;
  loc_name : string;
  address : option string
}.

(** [interface DivePhoto]; [uploadedAt] is a [Date], kept as the number of
    milliseconds since the epoch. *)
Record DivePhoto := {
  photo_id : string;
  url : string;
  caption : option string;
  uploadedAt : Z;
  fileName : string;
  photo_size : Z
}.

(** [interface DiveLog].  The optional numeric fields (depth, duration,
    visibility, waterTemp), the tags and the owner's avatar are copied
    around unchanged by every function below and are left out. *)
Record DiveLog := {
  id : string;
  userId : string;
  displayName : string;
  title : string;
  description : option string;
  location : DiveLocation;
  date : Z;
  photos : list DivePhoto;
  createdAt : Z;
  updatedAt : Z
}.

(** The browser's [File]: only [name], [type] and [size] are read. *)
Record File := {
  file_name : string;
  file_type : string;
  file_size : Z
}.

End Types.
Import Types.

(* ===================================================================== *)
(** ** JavaScript primitives used by the sources                          *)
(* ===================================================================== *)

Module JS.

(** A promise that has settled: fulfilled with a value or rejected with an
    error (identified by its message or code). *)
Inductive Result (A : Type) :=
| Ok (a : A)
| Throw (e : string).
Arguments Ok {A} a.
Arguments Throw {A} e.

(** Truthiness of an optional string: [undefined] and [""] are falsy. *)
Definition truthy (o : option string) : bool :=
  match o with
  | Some v => negb (bool_decide (v = ""))
  | None => false
  end.

(** [arr.slice(0, end)] for an integer [end]: a negative [end] counts from
    the end of the array. *)
Definition slice0 {A : Type} (end_ : Z) (arr : list A) : list A :=
  let len := Z.of_nat (length arr) in
  let final := if end_ <? 0 then Z.max (len + end_) 0 else Z.min end_ len in
  take (Z.to_nat final) arr.

End JS.
Import JS.

(* ===================================================================== *)
(** ** [firestore.rules]                                                  *)
(* ===================================================================== *)

Module FirestoreRules.

(** [read] is [get] and [list]; [write] is [create], [update], [delete]. *)
Inductive Operation := Read | Create | Update | Delete.

(** A request on a document [/<collection>/<docKey>]: who asks, the
    [userId] field of the stored document ([resource.data.userId], absent
    when there is no document or no such field) and that of the document
    as it will be after the write ([request.resource.data.userId]). *)
Record Request := {
  auth_uid : option string;
  operation : Operation;
  collection : string;
  docKey : string;
  stored_userId : option string;
  incoming_userId : option string
}.

(** [request.auth != null && request.auth.uid == x]; comparing with an
    absent field is an error, which denies. *)
Definition signedInAs (req : Request) (x : option string) : bool :=
  match auth_uid req, x with
  | Some uid, Some owner => bool_decide (uid = owner)
  | _, _ => false
  end.

(** The [match /users/{userId}] block. *)
Definition users (req : Request) : bool :=
  signedInAs req (Some (docKey req)).

(** The [match /diveLogs/{diveId}] block, one [allow] per line. *)
Definition diveLogs (req : Request) : bool :=
  match operation req with
  | Read => true
  | Create => signedInAs req (incoming_userId req)
  | Update | Delete => signedInAs req (stored_userId req)
  end.

Definition allowed (req : Request) : bool :=
  if bool_decide (collection req = "users") then users req
  else if bool_decide (collection req = "diveLogs") then diveLogs req
  else false.

(** The stored [userId] after a write that went through. *)
Definition afterWrite (req : Request) : option string :=
  match operation req with
  | Read => stored_userId req
  | Create | Update => incoming_userId req
  | Delete => None
  end.

End FirestoreRules.

(* ===================================================================== *)
(** ** The Firebase services behind [lib/firestore.ts], [lib/storage.ts]  *)
(* ===================================================================== *)

Module Firebase.

(** A Firestore [Timestamp], as nanoseconds since the epoch; [toDate]
    truncates it to the milliseconds of a [Date]. *)
Record Timestamp := { nanos : Z }.

Definition toDate (t : Timestamp) : Z := nanos t / 1000000.

(** [interface FirestorePhoto] and [interface FirestoreDiveLog] of
    [lib/firestore.ts].  Fields the converters guard with [?.] are
    optional. *)
Record FirestorePhoto := {
  fp_id : string;
  fp_url : string;
  fp_caption : option string;
  fp_uploadedAt : option Timestamp;
  fp_fileName : string;
  fp_size : Z
}.

Record FirestoreDiveLog := {
  fs_userId : string;
  fs_displayName : string;
  fs_title : string;
  fs_description : option string;
  fs_location : DiveLocation;
  fs_date : option Timestamp;
  fs_photos : option (list FirestorePhoto);
  fs_createdAt : option Timestamp;
  fs_updatedAt : option Timestamp
}.

(** Successful writes, in the order they were applied. *)
Inductive Effect :=
| DeletedObject (path : string)
| DeletedDoc (docId : string).

(** Modelled from the spec: the document store and the blob store are
    external services, not part of the sources.  Their state is the
    [diveLogs] collection, the paths of the stored objects, and what makes
    calls fail ([firestoreError]: every Firestore call is rejected with
    this code; [denied]: objects whose deletion the storage service
    rejects).  [auth] is the uid of the signed-in user, [request.auth.uid]
    in the rules of the database, and [now] is the clock read by
    [new Date()]. *)
Record Backend := {
  docs : gmap string FirestoreDiveLog;
  blobs : gset string;
  firestoreError : option string;
  denied : gset string;
  auth : option string;
  now : Z;
  log : list Effect
}.

(** What [firestore.rules] answer to a request of the signed-in user on
    the document [/diveLogs/<docId>]; [incoming] is the [userId] of the
    document as the request would leave it. *)
Definition permitted (operation : FirestoreRules.Operation) (docId : string)
    (incoming : option string) (be : Backend) : bool :=
  FirestoreRules.allowed
    {| FirestoreRules.auth_uid := auth be;
       FirestoreRules.operation := operation;
       FirestoreRules.collection := "diveLogs";
       FirestoreRules.docKey := docId;
       FirestoreRules.stored_userId := fs_userId <$> docs be !! docId;
       FirestoreRules.incoming_userId := incoming |}.

(** The two queries the sources build: all dive logs, or those of one
    user, always [orderBy('createdAt', 'desc')]. *)
Record Query := { whereUserId : option string }.

Definition createdNanos (d : string * FirestoreDiveLog) : Z :=
  default 0 (nanos <$> fs_createdAt d.2).

Definition newerFirst (a b : string * FirestoreDiveLog) : Prop :=
  createdNanos b ≤ createdNanos a.

#[export] Instance newerFirst_dec a b : Decision (newerFirst a b) :=
  Z_le_dec (createdNanos b) (createdNanos a).

Definition matches (q : Query) (d : string * FirestoreDiveLog) : bool :=
  bool_decide (is_Some (fs_createdAt d.2)) &&
  match whereUserId q with
  | Some u => bool_decide (fs_userId d.2 = u)
  | None => true
  end.

(** [getDocs(q)]: the documents that match, newest first (documents
    without the ordering field are not returned).  The rules allow every
    read of a dive log. *)
Definition getDocs (q : Query) (be : Backend)
  : Result (list (string * FirestoreDiveLog)) :=
  match firestoreError be with
  | Some e => Throw e
  | None =>
      Ok (merge_sort newerFirst
            (filter (λ d, matches q d = true) (map_to_list (docs be))))
  end.

(** [getDoc(doc(db, 'diveLogs', id))] *)
Definition getDoc (docId : string) (be : Backend)
  : Result (option FirestoreDiveLog) :=
  match firestoreError be with
  | Some e => Throw e
  | None => Ok (docs be !! docId)
  end.

(** [deleteDoc(doc(db, 'diveLogs', id))]: rejected when the rules refuse
    the delete, which they do unless the signed-in user is the [userId] of
    the stored document; with no stored document they always refuse. *)
Definition deleteDoc (docId : string) (be : Backend) : Result unit * Backend :=
  match firestoreError be with
  | Some e => (Throw e, be)
  | None =>
      if permitted FirestoreRules.Delete docId None be then
        (Ok tt,
         {| docs := delete docId (docs be); blobs := blobs be;
            firestoreError := firestoreError be; denied := denied be;
            auth := auth be;
            now := now be; log := log be ++ [DeletedDoc docId] |})
      else (Throw "permission-denied", be)
  end.

(** [deleteObject(ref(storage, path))]: rejected when the object does not
    exist or the service refuses. *)
Definition deleteObject (path : string) (be : Backend) : Result unit * Backend :=
  if bool_decide (path ∈ denied be) then (Throw "storage/unauthorized", be)
  else if bool_decide (path ∈ blobs be) then
    (Ok tt,
     {| docs := docs be; blobs := blobs be ∖ {[path]};
        firestoreError := firestoreError be; denied := denied be;
        auth := auth be; now := now be; log := log be ++ [DeletedObject path] |})
  else (Throw "storage/object-not-found", be).

End Firebase.
Import Firebase.

(* ===================================================================== *)
(** ** [lib/storage.ts]                                                  *)
(* ===================================================================== *)

Module Storage.

(** The template literal [`dive-photos/${photoId}`]. *)
Definition photoPath (photoId : string) : string := "dive-photos/" +:+ photoId.

(** [deletePhoto]: any failure is rethrown as
    [new Error('Failed to delete photo')]. *)
Definition deletePhoto (photoId : string) (be : Backend) : Result unit * Backend :=
  match deleteObject (photoPath photoId) be with
  | (Ok _, be') => (Ok tt, be')
  | (Throw _, be') => (Throw "Failed to delete photo", be')
  end.

Record Validation := {
  isValid : bool;
  error : option string
}.

Record Validations := {
  allValid : bool;
  errors : list string
}.

Definition allowedTypes : list string :=
  ["image/jpeg"; "image/png"; "image/webp"].

(** [const maxSize = 10 * 1024 * 1024] *)
Definition maxSize : Z := 10 * 1024 * 1024.

(** [Array.prototype.includes] on strings. *)
Definition includes (l : list string) (s : string) : bool :=
  bool_decide (s ∈ l).

Definition validateImageFile (file : File) : Validation :=
  if negb (includes allowedTypes (file_type file)) then
    {| isValid := false;
       error := Some "Only JPEG, PNG, and WebP images are allowed" |}
  else if file_size file >? maxSize then
    {| isValid := false;
       error := Some "File size must be less than 10MB" |}
  else {| isValid := true; error := None |}.

(** The template literal [`File ${i + 1}: ${validation.error}`]; an absent
    [error] would print as [undefined]. *)
Definition errorLine (i : nat) (v : Validation) : string :=
  "File " +:+ pretty (i + 1)%nat +:+ ": " +:+ default "undefined" (error v).

(** The body of [for (let i = 0; i < files.length; i++)], started at index
    [i] with the messages pushed so far. *)
Fixpoint validateLoop (i : nat) (files : list File) (errs : list string)
  : list string :=
  match files with
  | [] => errs
  | f :: rest =>
      let validation := validateImageFile f in
      if negb (isValid validation)
      then validateLoop (S i) rest (errs ++ [errorLine i validation])
      else validateLoop (S i) rest errs
  end.

Definition validateImageFiles (files : list File) : Validations :=
  let errs := validateLoop 0 files [] in
  {| allValid := bool_decide (length errs = 0%nat); errors := errs |}.

End Storage.

(* ===================================================================== *)
(** ** [lib/firestore.ts]                                                 *)
(* ===================================================================== *)

Module Firestore.

(** [photo.uploadedAt?.toDate() || new Date()] and its siblings. *)
Definition dateOr (clock : Z) (t : option Timestamp) : Z :=
  default clock (toDate <$> t).

Definition convertFirestorePhoto (clock : Z) (p : FirestorePhoto) : DivePhoto :=
  {| photo_id := fp_id p; url := fp_url p; caption := fp_caption p;
     uploadedAt := dateOr clock (fp_uploadedAt p);
     fileName := fp_fileName p; photo_size := fp_size p |}.

Definition convertFirestoreDiveLog (clock : Z) (docId : string)
    (data : FirestoreDiveLog) : DiveLog :=
  {| id := docId;
     userId := fs_userId data;
     displayName := fs_displayName data;
     title := fs_title data;
     description := fs_description data;
     location := fs_location data;
     date := dateOr clock (fs_date data);
     photos := default [] (map (convertFirestorePhoto clock) <$> fs_photos data);
     createdAt := dateOr clock (fs_createdAt data);
     updatedAt := dateOr clock (fs_updatedAt data) |}.

(** [getDiveLogs(userId?)]: errors are logged and rethrown. *)
Definition getDiveLogs (userId : option string) (be : Backend)
  : Result (list DiveLog) :=
  let q := if truthy userId then {| whereUserId := userId |}
           else {| whereUserId := None |} in
  match getDocs q be with
  | Ok snapshot =>
      Ok ((λ d, convertFirestoreDiveLog (now be) d.1 d.2) <$> snapshot)
  | Throw e => Throw e
  end.

(** [getDiveLog(id)] *)
Definition getDiveLog (docId : string) (be : Backend) : Result (option DiveLog) :=
  match getDoc docId be with
  | Ok (Some data) => Ok (Some (convertFirestoreDiveLog (now be) docId data))
  | Ok None => Ok None
  | Throw e => Throw e
  end.

(** [await Promise.all(ids.map(deletePhoto))]: every deletion is started,
    in order; the result is the first rejection, if any. *)
Fixpoint deletePhotos (ids : list string) (be : Backend) : Result unit * Backend :=
  match ids with
  | [] => (Ok tt, be)
  | i :: rest =>
      let (r, be1) := Storage.deletePhoto i be in
      let (rs, be2) := deletePhotos rest be1 in
      (match r with Ok _ => rs | Throw e => Throw e end, be2)
  end.

(** [deleteDiveLog(id)] *)
Definition deleteDiveLog (docId : string) (be : Backend) : Result unit * Backend :=
  match getDiveLog docId be with
  | Throw e => (Throw e, be)
  | Ok diveLog =>
      let (r, be1) :=
        match diveLog with
        | Some d =>
            if bool_decide (0 < length (photos d))%nat
            then deletePhotos (photo_id <$> photos d) be
            else (Ok tt, be)
        | None => (Ok tt, be)
        end in
      match r with
      | Throw e => (Throw e, be1)
      | Ok _ => deleteDoc docId be1
      end
  end.

(** [getRecentDiveLogs(limitCount = 50)]: errors are logged and swallowed. *)
Definition getRecentDiveLogs (limitCount : option Z) (be : Backend)
  : Result (list DiveLog) :=
  let limitCount := default 50 limitCount in
  match getDocs {| whereUserId := None |} be with
  | Ok snapshot =>
      if bool_decide (snapshot = []) then Ok []
      else
        let diveLogs :=
          (λ d, convertFirestoreDiveLog (now be) d.1 d.2) <$> snapshot in
        Ok (slice0 limitCount diveLogs)
  | Throw _ => Ok []
  end.

End Firestore.

(* ===================================================================== *)
(** ** [lib/maps.ts]: bounds of a list of positions                       *)
(* ===================================================================== *)

Module Maps.

(** [new google.maps.LatLng(lat, lng)]; coordinates are taken in range
    ([isValidCoordinates]), where the SDK constructor stores them as given. *)
Record LatLng := {
  ll_lat : Q;
  ll_lng : Q
}.

Record Box := {
  south : Q;
  west : Q;
  north : Q;
  east : Q
}.

(** Modelled from the spec: the SDK class [google.maps.LatLngBounds] is not
    part of the sources.  It is the "bounding region" of the spec: empty
    when constructed, and [extend] grows it just enough to cover the point
    it is given. *)
Definition LatLngBounds : Type := option Box.

Definition emptyBounds : LatLngBounds := None.

Definition extend (b : LatLngBounds) (p : LatLng) : LatLngBounds :=
  match b with
  | None =>
      Some {| south := ll_lat p; west := ll_lng p;
              north := ll_lat p; east := ll_lng p |}
  | Some r =>
      Some {| south := Qmin (south r) (ll_lat p);
              west := Qmin (west r) (ll_lng p);
              north := Qmax (north r) (ll_lat p);
              east := Qmax (east r) (ll_lng p) |}
  end.

Definition covers (b : LatLngBounds) (p : LatLng) : Prop :=
  match b with
  | None => False
  | Some r =>
      (south r <= ll_lat p)%Q ∧ (ll_lat p <= north r)%Q ∧
      (west r <= ll_lng p)%Q ∧ (ll_lng p <= east r)%Q
  end.

Definition toLatLng (pos : DiveLocation) : LatLng :=
  {| ll_lat := lat pos; ll_lng := lng pos |}.

(** [createBounds]: [null] for an empty array, otherwise a fresh bounds
    object extended with every position in turn. *)
Definition createBounds (positions : list DiveLocation) : option LatLngBounds :=
  if bool_decide (length positions = 0%nat) then None
  else Some (foldl (λ bounds pos, extend bounds (toLatLng pos))
                   emptyBounds positions).

End Maps.
Import Maps.

(* ===================================================================== *)
(** ** [components/map/DiveMap.tsx]                                       *)
(* ===================================================================== *)

Module DiveMap.

(** *** Marker content: the DOM subtree built by [createMarkerContent] *)

Inductive Child :=
| Badge (textContent : string)      (* the red photo-count disc *)
| Img (src alt : string)            (* the photo thumbnail *)
| Icon.                             (* the white SVG pictogram *)

(** The container [div] with the parts of its [cssText] and [style] that
    vary, and the constant [border-radius]. *)
Record Element := {
  size_px : Z;                      (* width and height *)
  border_radius : string;
  border_px : Z;
  border_color : string;
  highlight_ring : bool;            (* the extra red [box-shadow] *)
  background : option string;
  flex_centered : bool;
  children : list Child
}.

Definition createMarkerContent (diveLog : DiveLog) (isSelected : bool) : Element :=
  let size := if isSelected then 60 else 50 in
  let borderWidth := if isSelected then 4 else 3 in
  let container (bg : option string) (flex : bool) (kids : list Child) :=
    {| size_px := size;
       border_radius := "50%";
       border_px := borderWidth;
       border_color := if isSelected then "#EF4444" else "#FFFFFF";
       highlight_ring := isSelected;
       background := bg;
       flex_centered := flex;
       children := kids |} in
  if bool_decide (0 < length (photos diveLog))%nat then
    let img :=
      Img (default "" (url <$> head (photos diveLog))) (title diveLog) in
    let badge :=
      if bool_decide (1 < length (photos diveLog))%nat
      then [Badge (pretty (length (photos diveLog)))]
      else [] in
    container None false (badge ++ [img])
  else
    container (Some "linear-gradient(135deg, #3B82F6 0%, #1E40AF 100%)")
              true [Icon].

(** The visual state of a marker is read off its content: the selected
    variant is the one drawn with the red border. *)
Definition selectedStyle (e : Element) : bool :=
  bool_decide (border_color e = "#EF4444").

(** *** The map surface *)

(** Calls made on the [google.maps.Map] instance. *)
Inductive Call :=
| FitBounds (bounds : LatLngBounds)
| PanTo (center : LatLng)
| SetZoom (z : Z).

(** The only listener the component registers on the map: the one-shot
    [bounds_changed] handler that caps the zoom. *)
Inductive Listener := ClampZoom.

Record MapSurface := {
  zoom : Z;
  calls : list Call;                (* oldest first *)
  listeners : list Listener
}.

(** [new google.maps.Map(el, { zoom: 6, ... })] *)
Definition newMap : MapSurface :=
  {| zoom := 6; calls := []; listeners := [] |}.

Definition maxZoom : Z := 15.

(** *** Markers *)

(** An [AdvancedMarkerElement].  [onMap] is its [map] property ([false] for
    [null]); [updateContent] is the closure stored on the marker, which is
    [createMarkerContent] with the record it captured. *)
Record Marker := {
  position : LatLng;
  onMap : bool;
  marker_title : string;
  content : Element;
  updateContent : DiveLog
}.

Definition setMapNull (m : Marker) : Marker :=
  {| position := position m; onMap := false; marker_title := marker_title m;
     content := content m; updateContent := updateContent m |}.

Definition setContent (e : Element) (m : Marker) : Marker :=
  {| position := position m; onMap := onMap m; marker_title := marker_title m;
     content := e; updateContent := updateContent m |}.

(** *** Component state: the refs of [DiveMap] *)

(** [markersRef.current] is an object keyed by record id whose values are
    references to marker objects; [store] holds every marker object built
    so far, and a reference is an index into it.  The keys are Firestore
    document ids, which cannot collide with the names an object inherits
    (such ids never have the form [__x__]), so the object is a finite map. *)
Record State := {
  mapInstanceRef : option MapSurface;
  markersRef : gmap string nat;
  store : list Marker
}.

Definition withMap (g : option MapSurface) (s : State) : State :=
  {| mapInstanceRef := g; markersRef := markersRef s; store := store s |}.
Definition withMarkers (r : gmap string nat) (s : State) : State :=
  {| mapInstanceRef := mapInstanceRef s; markersRef := r; store := store s |}.
Definition withStore (st : list Marker) (s : State) : State :=
  {| mapInstanceRef := mapInstanceRef s; markersRef := markersRef s; store := st |}.

(** The component as first rendered: no map yet, no markers. *)
Definition mount : State :=
  {| mapInstanceRef := None; markersRef := ∅; store := [] |}.

(** The marker object [createMarker] constructs for a record. *)
Definition newMarker (diveLog : DiveLog) : Marker :=
  {| position := toLatLng (location diveLog);
     onMap := true;
     marker_title := title diveLog;
     content := createMarkerContent diveLog false;
     updateContent := diveLog |}.

(** [createMarker]: [null] without a map, otherwise a reference to a new
    marker placed on the map.  The click listener it also registers (which
    calls [onMarkerClick] and opens the info window) changes none of the refs
    and is left out. *)
Definition createMarker (diveLog : DiveLog) (s : State) : option nat * State :=
  match mapInstanceRef s with
  | None => (None, s)
  | Some _ =>
      (Some (length (store s)), withStore (store s ++ [newMarker diveLog]) s)
  end.

(** [Object.values(markersRef.current).forEach(marker => marker.map = null)].
    The loop visits the entries in insertion order and the fold in the order
    of the finite map; each round writes the same value to one marker, so
    the order does not show in the result. *)
Definition clearMarkers (s : State) : State :=
  withStore
    (foldl (λ st kv, alter setMapNull kv.2 st) (store s)
           (map_to_list (markersRef s)))
    s.

(** [diveLogs.forEach(diveLog => { const marker = createMarker(diveLog);
    if (marker) markersRef.current[diveLog.id] = marker; })] *)
Definition createMarkers (diveLogs : list DiveLog) (s : State) : State :=
  foldl (λ s diveLog,
           match createMarker diveLog s with
           | (Some marker, s') =>
               withMarkers (<[id diveLog := marker]> (markersRef s')) s'
           | (None, s') => s'
           end)
        s diveLogs.

(** [map.fitBounds(bounds)] followed by the registration of the one-shot
    [bounds_changed] listener. *)
Definition fitBounds (bounds : LatLngBounds) (g : MapSurface) : MapSurface :=
  {| zoom := zoom g;
     calls := calls g ++ [FitBounds bounds];
     listeners := listeners g ++ [ClampZoom] |}.

Definition fitMap (diveLogs : list DiveLog) (s : State) : State :=
  if bool_decide (0 < length diveLogs)%nat then
    match createBounds (location <$> diveLogs), mapInstanceRef s with
    | Some bounds, Some g => withMap (Some (fitBounds bounds g)) s
    | _, _ => s
    end
  else s.

(** The effect on [diveLogs]: the reconciliation of the markers with the
    list of records. *)
Definition reconcile (diveLogs : list DiveLog) (s : State) : State :=
  match mapInstanceRef s with
  | None => s
  | Some _ =>
      fitMap diveLogs
        (createMarkers diveLogs (withMarkers ∅ (clearMarkers s)))
  end.

Definition panTo (p : LatLng) (g : MapSurface) : MapSurface :=
  {| zoom := zoom g; calls := calls g ++ [PanTo p]; listeners := listeners g |}.

(** [Object.entries(markersRef.current).forEach(([id, marker]) => ...)]:
    every registered marker gets a new content, selected when its key is
    the selected id. *)
Definition restyleMarkers (selectedDiveId : option string) (s : State) : State :=
  withStore
    (foldl (λ st kv,
              let isSelected := bool_decide (Some kv.1 = selectedDiveId) in
              alter (λ m, setContent
                            (createMarkerContent (updateContent m) isSelected) m)
                    kv.2 st)
           (store s) (map_to_list (markersRef s)))
    s.

(** The effect on [selectedDiveId]. *)
Definition setSelected (selectedDiveId : option string) (s : State) : State :=
  let s1 := restyleMarkers selectedDiveId s in
  if truthy selectedDiveId then
    match selectedDiveId ≫= (λ k, markersRef s1 !! k) with
    | Some h =>
        match store s1 !! h, mapInstanceRef s1 with
        | Some selectedMarker, Some g =>
            withMap (Some (panTo (position selectedMarker) g)) s1
        | _, _ => s1
        end
    | None => s1
    end
  else s1.

(** The body of the one-shot listener: cap the zoom, then unregister. *)
Definition runListener (l : Listener) (g : MapSurface) : MapSurface :=
  match l with
  | ClampZoom =>
      if bool_decide (zoom g ≠ 0) && (zoom g >? maxZoom)
      then {| zoom := maxZoom; calls := calls g ++ [SetZoom maxZoom];
              listeners := listeners g |}
      else g
  end.

(** The SDK settles the viewport at zoom [z] and fires [bounds_changed]:
    every registered listener runs once and removes itself. *)
Definition boundsChanged (z : Z) (g : MapSurface) : MapSurface :=
  let g' := foldl (λ g l, runListener l g)
                  {| zoom := z; calls := calls g; listeners := listeners g |}
                  (listeners g) in
  {| zoom := zoom g'; calls := calls g'; listeners := [] |}.

(** *** The component as a transition system *)

Inductive Event :=
| MapLoaded                                   (* [initMap] succeeded *)
| DiveLogsChanged (diveLogs : list DiveLog)   (* the [diveLogs] effect *)
| SelectedChanged (selectedDiveId : option string)
| BoundsChanged (z : Z).                      (* SDK event *)

Definition step (s : State) (e : Event) : State :=
  match e with
  | MapLoaded =>
      match mapInstanceRef s with
      | None => withMap (Some newMap) s
      | Some _ => s
      end
  | DiveLogsChanged diveLogs => reconcile diveLogs s
  | SelectedChanged sel => setSelected sel s
  | BoundsChanged z => withMap (boundsChanged z <$> mapInstanceRef s) s
  end.

Definition run (es : list Event) (s : State) : State := foldl step s es.

(** *** Observations *)

(** The live marker set: the ids the component holds a marker for. *)
Definition liveIds (s : State) : gset string := dom (markersRef s).

(** Marker [h] is displayed on the map. *)
Definition displayed (s : State) (h : nat) : Prop :=
  ∃ m, store s !! h = Some m ∧ onMap m = true.

(** Marker [h] is displayed in the selected style. *)
Definition displayedSelected (s : State) (h : nat) : Prop :=
  ∃ m, store s !! h = Some m ∧ onMap m = true ∧ selectedStyle (content m) = true.

(** The calls received so far by the map, if there is one. *)
Definition mapCalls (s : State) : list Call :=
  default [] (calls <$> mapInstanceRef s).

(** No orphans on the map: every displayed marker is one the component
    still holds a reference to. *)
Definition tracked (s : State) : Prop :=
  ∀ h, displayed s h → ∃ x, markersRef s !! x = Some h.

(** Every marker shown in the selected style is one the component still
    holds a reference to. *)
Definition highlightsHeld (s : State) : Prop :=
  ∀ h, displayedSelected s h → ∃ x, markersRef s !! x = Some h.

(** The invariant of the selection: highlights are held, and there is at
    most one of them. *)
Definition selectionInv (s : State) : Prop :=
  highlightsHeld s ∧
  ∀ h1 h2, displayedSelected s h1 → displayedSelected s h2 → h1 = h2.

(** The marker held for [x] is the same object, in the same condition, in
    [s'] as in [s]. *)
Definition untouched (x : string) (s s' : State) : Prop :=
  markersRef s' !! x = markersRef s !! x ∧
  ∀ h, markersRef s !! x = Some h → store s' !! h = store s !! h.

(** Number of marker objects constructed between two states. *)
Definition created (s s' : State) : nat := (length (store s') - length (store s))%nat.

End DiveMap.
Import DiveMap.

(* ===================================================================== *)
(** ** [lib/maps.ts]: validity of coordinates                             *)
(* ===================================================================== *)

Module Coordinates.

(** [isValidCoordinates]; a rational is never [NaN]. *)
Definition isValidCoordinates (lat lng : Q) : bool :=
  Qle_bool (-90) lat && Qle_bool lat 90 &&
  Qle_bool (-180) lng && Qle_bool lng 180.

End Coordinates.

(* ===================================================================== *)
(** ** [components/map/DiveMap.tsx]: the info window and the overlay      *)
(* ===================================================================== *)

Module DiveMapView.

(** The photo part of the info window built by [showInfoWindow]: the
    placeholder, the single photo, or the main photo with a row of
    thumbnails and a "+n" tile. *)
Inductive Gallery :=
| NoPhotos
| OnePhoto (main : string)
| ManyPhotos (main : string) (thumbnails : list string) (moreCount : option nat).

(** [photos.slice(1, 4)] *)
Definition slice14 {A : Type} (l : list A) : list A := take 3 (drop 1 l).

Definition photoGallery (diveLog : DiveLog) : Gallery :=
  let n := length (photos diveLog) in
  let main := default "" (url <$> head (photos diveLog)) in
  if bool_decide (0 < n)%nat then
    if bool_decide (n = 1%nat) then OnePhoto main
    else ManyPhotos main (url <$> slice14 (photos diveLog))
                    (if bool_decide (4 < n)%nat then Some (n - 4)%nat else None)
  else NoPhotos.

(** [`${n} photo${n !== 1 ? 's' : ''}`] *)
Definition photoLabel (n : nat) : string :=
  pretty n +:+ " photo" +:+ (if bool_decide (n ≠ 1%nat) then "s" else "").

(** The description paragraph: absent for a missing or empty description,
    cut after 100 characters otherwise. *)
Definition snippet (description : option string) : option string :=
  match description with
  | Some text =>
      if bool_decide (text = "") then None
      else if bool_decide (100 < String.length text)%nat
           then Some (String.substring 0 100 text +:+ "...")
           else Some text
  | None => None
  end.

(** The counters of the overlay in the corner of the map:
    [diveLogs.reduce((sum, dive) => sum + dive.photos.length, 0)] and
    [diveLogs.filter(dive => dive.photos.length > 0).length]. *)
Definition totalPhotos (diveLogs : list DiveLog) : nat :=
  foldl (λ sum dive, (sum + length (photos dive))%nat) 0%nat diveLogs.

Definition divesWithPhotos (diveLogs : list DiveLog) : nat :=
  length (filter (λ dive, (0 < length (photos dive))%nat) diveLogs).

(** The second line of the overlay, shown only when [totalPhotos > 0]:
    the two numbers it prints. *)
Definition photoLine (diveLogs : list DiveLog) : option (nat * nat) :=
  if bool_decide (0 < totalPhotos diveLogs)%nat
  then Some (totalPhotos diveLogs, divesWithPhotos diveLogs)
  else None.

(** Whether a marker visual holds a photo thumbnail. *)
Definition hasThumbnail (e : Element) : bool :=
  existsb (λ c, match c with Img _ _ => true | _ => false end) (children e).

End DiveMapView.

(* ===================================================================== *)
(** ** [lib/firestore.ts]: cleaning and creating documents                *)
(* ===================================================================== *)

Module Clean.

(** JavaScript values as [removeUndefinedValues] tells them apart: plain
    objects (whose constructor is [Object]) are descended into; arrays,
    instances of classes ([Timestamp], [Date]), [null] and primitives are
    leaves.  An object lists its own keys in order. *)
#[local] Unset Elimination Schemes.
Inductive Value :=
| VUndefined
| VNull
| VPrim (v : string)
| VArray (items : list Value)
| VInstance (className : string) (fields : list (string * Value))
| VObject (props : list (string * Value)).
#[local] Set Elimination Schemes.

(** [removeUndefinedValues(obj)], applied to a plain object, given as the
    list of its properties. *)
Fixpoint removeUndefinedValues (obj : Value) : list (string * Value) :=
  match obj with
  | VObject props =>
      (fix forEach (keys : list (string * Value)) : list (string * Value) :=
         match keys with
         | [] => []
         | (key, value) :: rest =>
             match value with
             | VUndefined => forEach rest
             | VObject _ =>
                 let cleanedNested := removeUndefinedValues value in
                 if bool_decide (0 < length cleanedNested)%nat
                 then (key, VObject cleanedNested) :: forEach rest
                 else forEach rest
             | _ => (key, value) :: forEach rest
             end
         end) props
  | _ => []
  end.

(** Nothing is left to remove: no property is [undefined] and no nested
    plain object is empty, at any depth of plain objects. *)
Inductive cleanProps : list (string * Value) → Prop :=
| cleanProps_nil : cleanProps []
| cleanProps_cons key value rest :
    cleanValue value → cleanProps rest → cleanProps ((key, value) :: rest)
with cleanValue : Value → Prop :=
| cleanValue_null : cleanValue VNull
| cleanValue_prim v : cleanValue (VPrim v)
| cleanValue_array items : cleanValue (VArray items)
| cleanValue_instance c fields : cleanValue (VInstance c fields)
| cleanValue_object props :
    props ≠ [] → cleanProps props → cleanValue (VObject props).

(** A value that [removeUndefinedValues] passes through as it is. *)
Definition isLeaf (v : Value) : Prop :=
  match v with
  | VUndefined | VObject _ => False
  | _ => True
  end.

End Clean.

Module FirestoreWrites.

(** The seconds a [Timestamp] of the SDK may hold: those of the years 1
    to 9999. *)
Definition MIN_SECONDS : Z := -62135596800.
Definition MAX_SECONDS : Z := 253402300800.

(** Whether the [Date] of [date] milliseconds fits a [Timestamp]. *)
Definition inRange (date : Z) : bool :=
  (MIN_SECONDS <=? date / 1000) && (date / 1000 <? MAX_SECONDS).

(** [Timestamp.fromDate(date)] for a valid [Date]: the seconds are
    [Math.floor(date.getTime() / 1000)], and the constructor of
    [Timestamp] throws when they are out of range. *)
Definition stamp (date : Z) : Timestamp := {| nanos := date * 1000000 |}.

Definition fromDate (date : Z) : Result Timestamp :=
  if inRange date then Ok (stamp date)
  else Throw ("Timestamp seconds out of range: " +:+ pretty (date / 1000)).

(** [Timestamp.now()] *)
Definition timestampNow (be : Backend) : Result Timestamp := fromDate (now be).

(** An optional property of an object: the key is missing, or it is there
    with the value [undefined], or it is there with a value. *)
Inductive Optional (A : Type) :=
| Absent
| Undefined
| Present (a : A).
Arguments Absent {A}.
Arguments Undefined {A}.
Arguments Present {A} a.

(** What a reader of the property gets. *)
Definition present {A : Type} (o : Optional A) : option A :=
  match o with
  | Present a => Some a
  | Absent | Undefined => None
  end.

(** A [DivePhoto] as it is passed to [createDiveLog], with its two
    optional properties as the caller built them. *)
Record PhotoData := {
  pd_id : string;
  pd_url : string;
  pd_thumbnailUrl : Optional string;
  pd_caption : Optional string;
  pd_uploadedAt : Z;
  pd_fileName : string;
  pd_size : Z
}.

(** A [DivePhoto] whose optional properties are values or missing, as
    [uploadPhoto] builds it and [convertFirestorePhoto] returns it; the
    application sets no thumbnail. *)
Definition photoData (photo : DivePhoto) : PhotoData :=
  {| pd_id := photo_id photo; pd_url := url photo;
     pd_thumbnailUrl := Absent;
     pd_caption := match caption photo with
                   | Some text => Present text
                   | None => Absent
                   end;
     pd_uploadedAt := uploadedAt photo;
     pd_fileName := fileName photo; pd_size := photo_size photo |}.

(** The argument of [createDiveLog]: a [DiveLog] without its [id],
    [createdAt] and [updatedAt].  At the top level [removeUndefinedValues]
    makes a property that is [undefined] a missing one, so that
    [d_description] is a value or nothing; [d_date] is a valid [Date]. *)
Record DiveLogData := {
  d_userId : string;
  d_displayName : string;
  d_title : string;
  d_description : option string;
  d_location : DiveLocation;
  d_date : Z;
  d_photos : list PhotoData
}.

(** [photos.map(photo => ({ ...photo, uploadedAt:
    Timestamp.fromDate(photo.uploadedAt) }))]: each photo with its
    timestamp; the first date out of range throws. *)
Fixpoint stampPhotos (photos : list PhotoData)
  : Result (list (PhotoData * Timestamp)) :=
  match photos with
  | [] => Ok []
  | photo :: rest =>
      match fromDate (pd_uploadedAt photo) with
      | Throw e => Throw e
      | Ok uploadedAt =>
          match stampPhotos rest with
          | Throw e => Throw e
          | Ok stamped => Ok ((photo, uploadedAt) :: stamped)
          end
      end
  end.

(** The object handed to [addDoc], after [removeUndefinedValues]: inside
    the [photos] array a property may still be [undefined]. *)
Record DiveLogWrite := {
  w_userId : string;
  w_displayName : string;
  w_title : string;
  w_description : option string;
  w_location : DiveLocation;
  w_date : Timestamp;
  w_photos : list (PhotoData * Timestamp);
  w_createdAt : Timestamp;
  w_updatedAt : Timestamp
}.

Definition hasUndefined (photo : PhotoData) : bool :=
  match pd_thumbnailUrl photo, pd_caption photo with
  | Undefined, _ | _, Undefined => true
  | _, _ => false
  end.

(** The document the store keeps for the object. *)
Definition storedPhoto (photo : PhotoData * Timestamp) : FirestorePhoto :=
  {| fp_id := pd_id photo.1; fp_url := pd_url photo.1;
     fp_caption := present (pd_caption photo.1);
     fp_uploadedAt := Some photo.2;
     fp_fileName := pd_fileName photo.1; fp_size := pd_size photo.1 |}.

Definition storedDiveLog (data : DiveLogWrite) : FirestoreDiveLog :=
  {| fs_userId := w_userId data;
     fs_displayName := w_displayName data;
     fs_title := w_title data;
     fs_description := w_description data;
     fs_location := w_location data;
     fs_date := Some (w_date data);
     fs_photos := Some (storedPhoto <$> w_photos data);
     fs_createdAt := Some (w_createdAt data);
     fs_updatedAt := Some (w_updatedAt data) |}.

(** [addDoc(collection(db, 'diveLogs'), data)] of the SDK.  The data is
    checked first: a value [undefined] anywhere in it is refused.  Then
    the write is sent: it fails when the store cannot be reached or when
    the rules refuse the create.  The id of the new document is chosen by
    the service among the ids not in use; it is passed in as [newId]. *)
Definition addDoc (newId : string) (data : DiveLogWrite) (be : Backend)
  : Result string * Backend :=
  if existsb hasUndefined (w_photos data).*1 then (Throw "invalid-argument", be)
  else
    match firestoreError be with
    | Some e => (Throw e, be)
    | None =>
        if permitted FirestoreRules.Create newId (Some (w_userId data)) be then
          (Ok newId,
           {| docs := <[newId := storedDiveLog data]> (docs be);
              blobs := blobs be;
              firestoreError := firestoreError be; denied := denied be;
              auth := auth be; now := now be; log := log be |})
        else (Throw "permission-denied", be)
    end.

(** [createDiveLog]: every error is logged and rethrown. *)
Definition createDiveLog (diveLogData : DiveLogData) (newId : string)
    (be : Backend) : Result string * Backend :=
  match timestampNow be with
  | Throw e => (Throw e, be)
  | Ok timestamp =>
      match fromDate (d_date diveLogData) with
      | Throw e => (Throw e, be)
      | Ok date =>
          match stampPhotos (d_photos diveLogData) with
          | Throw e => (Throw e, be)
          | Ok photos =>
              let cleanedData :=
                {| w_userId := d_userId diveLogData;
                   w_displayName := d_displayName diveLogData;
                   w_title := d_title diveLogData;
                   w_description := d_description diveLogData;
                   w_location := d_location diveLogData;
                   w_date := date;
                   w_photos := photos;
                   w_createdAt := timestamp;
                   w_updatedAt := timestamp |} in
              addDoc newId cleanedData be
          end
      end
  end.

(** The photo and the record a reader gets back for what was written
    under [docId] at time [clock]. *)
Definition storedAs (photo : PhotoData) : DivePhoto :=
  {| photo_id := pd_id photo; url := pd_url photo;
     caption := present (pd_caption photo);
     uploadedAt := pd_uploadedAt photo;
     fileName := pd_fileName photo; photo_size := pd_size photo |}.

Definition stored (diveLogData : DiveLogData) (docId : string) (clock : Z)
  : DiveLog :=
  {| id := docId;
     userId := d_userId diveLogData;
     displayName := d_displayName diveLogData;
     title := d_title diveLogData;
     description := d_description diveLogData;
     location := d_location diveLogData;
     date := d_date diveLogData;
     photos := storedAs <$> d_photos diveLogData;
     createdAt := clock;
     updatedAt := clock |}.

(** The document the store keeps for a record written at time [clock]. *)
Definition written (diveLogData : DiveLogData) (clock : Z) : FirestoreDiveLog :=
  storedDiveLog
    {| w_userId := d_userId diveLogData;
       w_displayName := d_displayName diveLogData;
       w_title := d_title diveLogData;
       w_description := d_description diveLogData;
       w_location := d_location diveLogData;
       w_date := stamp (d_date diveLogData);
       w_photos := (λ photo, (photo, stamp (pd_uploadedAt photo)))
                   <$> d_photos diveLogData;
       w_createdAt := stamp clock;
       w_updatedAt := stamp clock |}.

(** When [createDiveLog] goes through: the clock and every date fit a
    [Timestamp], no photo holds an [undefined], the store can be reached
    and the signed-in user is the [userId] of the record. *)
Definition writable (diveLogData : DiveLogData) (be : Backend) : bool :=
  inRange (now be) && inRange (d_date diveLogData) &&
  forallb (λ photo, inRange (pd_uploadedAt photo) && negb (hasUndefined photo))
          (d_photos diveLogData) &&
  bool_decide (firestoreError be = None) &&
  bool_decide (auth be = Some (d_userId diveLogData)).

End FirestoreWrites.

(* ===================================================================== *)
(** ** [lib/storage.ts]: uploads and avatars                              *)
(* ===================================================================== *)

Module StorageWrites.

(** Modelled from the spec: [uploadBytes] and [getDownloadURL] of the blob
    store.  A write to a path the service denies is rejected; the URL of an
    object is a function of its path. *)
Definition uploadBytes (path : string) (be : Backend) : Result unit * Backend :=
  if bool_decide (path ∈ denied be) then (Throw "storage/unauthorized", be)
  else (Ok tt,
        {| docs := docs be; blobs := blobs be ∪ {[path]};
           firestoreError := firestoreError be; denied := denied be;
           auth := auth be; now := now be; log := log be |}).

Definition getDownloadURL (path : string) : string :=
  "https://storage.example/" +:+ path.

(** The character [.] *)
Definition dot : Ascii.ascii := Ascii.ascii_of_nat 46.

(** [s.split('.')] *)
Fixpoint splitDot (s : string) : list string :=
  match s with
  | EmptyString => [EmptyString]
  | String c rest =>
      if bool_decide (c = dot) then EmptyString :: splitDot rest
      else match splitDot rest with
           | segment :: segments => String c segment :: segments
           | [] => [String c EmptyString]
           end
  end.

(** [originalName.split('.').pop() || ''] *)
Definition extensionOf (originalName : string) : string :=
  default "" (last (splitDot originalName)).

(** [generateUniqueFileName]; [timestamp] is [Date.now()] and
    [randomString] is what [Math.random()] gave. *)
Definition generateUniqueFileName (originalName userId : string)
    (timestamp : Z) (randomString : string) : string :=
  userId +:+ "/" +:+ pretty timestamp +:+ "_" +:+ randomString +:+ "." +:+
  extensionOf originalName.

(** [uploadPhoto] *)
Definition uploadPhoto (file : File) (userId : string)
    (timestamp : Z) (randomString : string) (be : Backend)
  : Result DivePhoto * Backend :=
  let fileName := generateUniqueFileName (file_name file) userId
                                         timestamp randomString in
  let path := "dive-photos/" +:+ fileName in
  match uploadBytes path be with
  | (Ok _, be') =>
      (Ok {| photo_id := fileName; url := getDownloadURL path;
             caption := Some ""; uploadedAt := now be;
             fileName := file_name file; photo_size := file_size file |},
       be')
  | (Throw _, be') => (Throw "Failed to upload photo", be')
  end.

(** [uploadPhotos]: every upload is started, the [index]-th with the
    clock and random values [entropy index]; the result is the list of
    photos, or the rejection. *)
Fixpoint uploadAll (files : list File) (userId : string) (index : nat)
    (entropy : nat → Z * string) (be : Backend)
  : Result (list DivePhoto) * Backend :=
  match files with
  | [] => (Ok [], be)
  | file :: rest =>
      let (r, be1) := uploadPhoto file userId (entropy index).1
                                  (entropy index).2 be in
      let (rs, be2) := uploadAll rest userId (S index) entropy be1 in
      (match r, rs with
       | Ok photo, Ok photos => Ok (photo :: photos)
       | Throw e, _ => Throw e
       | _, Throw e => Throw e
       end, be2)
  end.

(** The paths these uploads write to, in order. *)
Fixpoint uploadPaths (files : list File) (userId : string) (index : nat)
    (entropy : nat → Z * string) : list string :=
  match files with
  | [] => []
  | file :: rest =>
      ("dive-photos/" +:+
       generateUniqueFileName (file_name file) userId (entropy index).1
                              (entropy index).2)
      :: uploadPaths rest userId (S index) entropy
  end.

Definition uploadPhotos (files : list File) (userId : string)
    (entropy : nat → Z * string) (be : Backend)
  : Result (list DivePhoto) * Backend :=
  match uploadAll files userId 0 entropy be with
  | (Ok photos, be') => (Ok photos, be')
  | (Throw _, be') => (Throw "Failed to upload photos", be')
  end.

Definition avatarExtensions : list string := ["jpg"; "jpeg"; "png"; "webp"].

Definition avatarPath (userId ext : string) : string :=
  "profile-photos/" +:+ userId +:+ "/avatar." +:+ ext.

(** The loop of [deleteAvatar]: stop at the first extension whose object
    could be deleted, go on after a failure. *)
Fixpoint deleteFirst (userId : string) (extensions : list string)
    (be : Backend) : Backend :=
  match extensions with
  | [] => be
  | ext :: rest =>
      match deleteObject (avatarPath userId ext) be with
      | (Ok _, be') => be'
      | (Throw _, _) => deleteFirst userId rest be
      end
  end.

(** [deleteAvatar]: nothing inside the outer [try] can throw. *)
Definition deleteAvatar (userId : string) (be : Backend) : Result unit * Backend :=
  (Ok tt, deleteFirst userId avatarExtensions be).

(** [uploadAvatar] *)
Definition uploadAvatar (file : File) (userId : string) (be : Backend)
  : Result string * Backend :=
  let be1 := (deleteAvatar userId be).2 in
  let path := avatarPath userId (extensionOf (file_name file)) in
  match uploadBytes path be1 with
  | (Ok _, be2) => (Ok (getDownloadURL path), be2)
  | (Throw _, be2) => (Throw "Failed to upload avatar", be2)
  end.

End StorageWrites.

(* ===================================================================== *)
(** ** [components/upload/PhotoUpload.tsx]                                *)
(* ===================================================================== *)

Module PhotoUpload.

(** The state of the component and the lists it has passed to
    [onFilesSelected], oldest first. *)
Record State := {
  error : string;
  selectedFiles : list File;
  reported : list (list File)
}.

Definition initial : State :=
  {| error := ""; selectedFiles := []; reported := [] |}.

Definition onDrop (maxFiles : Z) (acceptedFiles : list File) (st : State) : State :=
  let validation := Storage.validateImageFiles acceptedFiles in
  if negb (Storage.allValid validation) then
    {| error := String.concat ", " (Storage.errors validation);
       selectedFiles := selectedFiles st; reported := reported st |}
  else if Z.of_nat (length acceptedFiles) >? maxFiles then
    {| error := "Maximum " +:+ pretty maxFiles +:+ " files allowed";
       selectedFiles := selectedFiles st; reported := reported st |}
  else
    {| error := ""; selectedFiles := acceptedFiles;
       reported := reported st ++ [acceptedFiles] |}.

(** [selectedFiles.filter((_, i) => i !== index)] *)
Definition removeFile (index : nat) (st : State) : State :=
  let newFiles := delete index (selectedFiles st) in
  {| error := error st; selectedFiles := newFiles;
     reported := reported st ++ [newFiles] |}.

Definition clearAll (st : State) : State :=
  {| error := ""; selectedFiles := []; reported := reported st ++ [[]] |}.

Inductive Action :=
| Drop (acceptedFiles : list File)
| Remove (index : nat)
| Clear.

Definition act (maxFiles : Z) (st : State) (a : Action) : State :=
  match a with
  | Drop files => onDrop maxFiles files st
  | Remove index => removeFile index st
  | Clear => clearAll st
  end.

End PhotoUpload.

(* ===================================================================== *)
(** ** [app/page.tsx]: the home page                                      *)
(* ===================================================================== *)

Module HomePage.

Record State := {
  diveLogs : list DiveLog;
  selectedDiveId : option string;
  showOnlyMyDives : bool;
  currentUser : option string        (* the uid of the signed-in user *)
}.

(** [loadDiveLogs]: on an error the list is left as it was. *)
Definition loadDiveLogs (be : Backend) (st : State) : State :=
  let logs :=
    match showOnlyMyDives st, currentUser st with
    | true, Some uid => Firestore.getDiveLogs (Some uid) be
    | _, _ => Firestore.getRecentDiveLogs (Some 100) be
    end in
  match logs with
  | Ok logs =>
      {| diveLogs := logs; selectedDiveId := selectedDiveId st;
         showOnlyMyDives := showOnlyMyDives st; currentUser := currentUser st |}
  | Throw _ => st
  end.

Definition handleDiveLogCreated (newDiveLog : DiveLog) (st : State) : State :=
  {| diveLogs := newDiveLog :: diveLogs st;
     selectedDiveId := Some (id newDiveLog);
     showOnlyMyDives := showOnlyMyDives st; currentUser := currentUser st |}.

Definition handleMarkerClick (diveLog : DiveLog) (st : State) : State :=
  {| diveLogs := diveLogs st; selectedDiveId := Some (id diveLog);
     showOnlyMyDives := showOnlyMyDives st; currentUser := currentUser st |}.

(** [handleDeleteDive]; [confirmed] is the answer to [window.confirm]. *)
Definition handleDeleteDive (diveId : string) (confirmed : bool)
    (be : Backend) (st : State) : State * Backend :=
  if negb confirmed then (st, be)
  else
    match Firestore.deleteDiveLog diveId be with
    | (Ok _, be') =>
        ({| diveLogs := filter (λ dive, id dive ≠ diveId) (diveLogs st);
            selectedDiveId :=
              if bool_decide (selectedDiveId st = Some diveId) then None
              else selectedDiveId st;
            showOnlyMyDives := showOnlyMyDives st;
            currentUser := currentUser st |}, be')
    | (Throw _, be') => (st, be')
    end.

(** [diveLogs.find(dive => dive.id === selectedDiveId)] *)
Definition selectedDive (st : State) : option DiveLog :=
  match selectedDiveId st with
  | Some sel => list_find (λ dive, id dive = sel) (diveLogs st) ≫= λ r, Some r.2
  | None => None
  end.

End HomePage.

(* ===================================================================== *)
(** ** [storage.rules]                                                    *)
(* ===================================================================== *)

Module StorageRules.

Inductive Method := Read | Write.

(** A request on an object [/<folder>/<userId>/...]: who asks, and for a
    write that carries a file ([request.resource]), its size and content
    type; a delete carries none. *)
Record Request := {
  auth_uid : option string;
  method : Method;
  folder : string;
  pathUserId : string;
  resource : option (Z * string)
}.

(** [isValidImageUpload()]; evaluating it without a resource is an error,
    which denies. *)
Definition isValidImageUpload (req : Request) : bool :=
  match resource req with
  | Some (size, contentType) =>
      (size <? 10 * 1024 * 1024) && String.prefix "image/" contentType
  | None => false
  end.

Definition isOwner (req : Request) : bool :=
  bool_decide (auth_uid req = Some (pathUserId req)).

(** One [match] block with one [allow] statement. *)
Record Rule := {
  rule_folder : string;
  rule_methods : list Method;
  rule_condition : Request → bool
}.

(** The six blocks of the file, in order. *)
Definition rules : list Rule :=
  [ {| rule_folder := "dive-photos"; rule_methods := [Read; Write];
       rule_condition := isOwner |};
    {| rule_folder := "dive-photos"; rule_methods := [Read];
       rule_condition := λ _, true |};
    {| rule_folder := "profile-photos"; rule_methods := [Read; Write];
       rule_condition := isOwner |};
    {| rule_folder := "profile-photos"; rule_methods := [Read];
       rule_condition := λ _, true |};
    {| rule_folder := "dive-photos"; rule_methods := [Write];
       rule_condition := λ req, isOwner req && isValidImageUpload req |};
    {| rule_folder := "profile-photos"; rule_methods := [Write];
       rule_condition := λ req, isOwner req && isValidImageUpload req |} ].

#[export] Instance Method_eq_dec : EqDecision Method.
Proof. solve_decision. Defined.

Definition applies (req : Request) (r : Rule) : bool :=
  bool_decide (rule_folder r = folder req) &&
  bool_decide (method req ∈ rule_methods r) &&
  rule_condition r req.

(** A request is allowed when some block that matches its path allows it. *)
Definition allowed (req : Request) : bool := existsb (applies req) rules.

End StorageRules.


(** *** Sample records (the scenario of the specification) *)

Definition photo (i u : string) : DivePhoto :=
  {| photo_id := i; url := u; caption := None; uploadedAt := 0;
     fileName := i; photo_size := 1 |}.

Definition dive (i : string) (la lo : Q) (ps : list DivePhoto) : DiveLog :=
  {| id := i; userId := "u"; displayName := "U"; title := "Dive " +:+ i;
     description := None;
     location := {| lat := la; lng := lo; loc_name := "reef"; address := None |};
     date := 0; photos := ps; createdAt := 0; updatedAt := 0 |}.

Definition diveA : DiveLog := dive "a" 10 10 [].
Definition diveB : DiveLog := dive "b" 20 20 [photo "p1" "https://x/p1"].

Definition loaded : State := step mount MapLoaded.

Definition scenarioB : list Event :=
  [MapLoaded; DiveLogsChanged [diveA; diveB]; SelectedChanged (Some "b")].

Definition fsPhoto (i : string) : FirestorePhoto :=
  {| fp_id := i; fp_url := "https://x/" +:+ i; fp_caption := None;
     fp_uploadedAt := Some {| nanos := 0 |}; fp_fileName := i; fp_size := 1 |}.

Definition fsDive (u : string) (created : Z) (ps : list FirestorePhoto)
  : FirestoreDiveLog :=
  {| fs_userId := u; fs_displayName := "U"; fs_title := "Dive";
     fs_description := None;
     fs_location := {| lat := 10; lng := 10; loc_name := "reef"; address := None |};
     fs_date := Some {| nanos := created |};
     fs_photos := Some ps;
     fs_createdAt := Some {| nanos := created |};
     fs_updatedAt := Some {| nanos := created |} |}.

(** Three dive logs, created in the order d1, d2, d3; d2 has two photos and
    d3 has none. *)
Definition sampleBackend : Backend :=
  {| docs := {[ "d1" := fsDive "u1" 1000000000 [fsPhoto "u1/1.jpg"];
                "d2" := fsDive "u2" 2000000000 [fsPhoto "u2/1.jpg"; fsPhoto "u2/2.jpg"];
                "d3" := fsDive "u1" 3000000000 [] ]};
     blobs := {[ "dive-photos/u1/1.jpg"; "dive-photos/u2/1.jpg";
                 "dive-photos/u2/2.jpg" ]};
     firestoreError := None; denied := ∅; auth := Some "u1";
     now := 5000; log := [] |}.

(** The same services, with another user signed in. *)
Definition signedIn (uid : string) (be : Backend) : Backend :=
  {| docs := docs be; blobs := blobs be; firestoreError := firestoreError be;
     denied := denied be; auth := Some uid; now := now be; log := log be |}.

(** The same, after the object of the first photo of d2 was lost. *)
Definition partialBackend : Backend :=
  {| docs := docs sampleBackend;
     blobs := {[ "dive-photos/u1/1.jpg"; "dive-photos/u2/2.jpg" ]};
     firestoreError := None; denied := ∅; auth := Some "u2";
     now := 5000; log := [] |}.

(** The sample services with the owner of d2 signed in, where the storage
    service refuses to delete the object of the first photo of d2. *)
Definition refusingBackend : Backend :=
  {| docs := docs sampleBackend; blobs := blobs sampleBackend;
     firestoreError := None; denied := {[ "dive-photos/u2/1.jpg" ]};
     auth := Some "u2"; now := 5000; log := [] |}.

Definition offline (be : Backend) : Backend :=
  {| docs := docs be; blobs := blobs be; firestoreError := Some "unavailable";
     denied := denied be; auth := auth be; now := now be; log := log be |}.

Definition diveC : DiveLog :=
  dive "c" 30 30 [photo "p2" "https://x/p2"; photo "p3" "https://x/p3"].

Definition png (n : string) (sz : Z) : File :=
  {| file_name := n; file_type := "image/png"; file_size := sz |}.


Definition sampleData : FirestoreWrites.DiveLogData :=
  {| FirestoreWrites.d_userId := "u1"; FirestoreWrites.d_displayName := "U"; FirestoreWrites.d_title := "Night dive";
     FirestoreWrites.d_description := None;
     FirestoreWrites.d_location := {| lat := 10; lng := 20; loc_name := "reef"; address := None |};
     FirestoreWrites.d_date := 4000; FirestoreWrites.d_photos := [] |}.

(** The same record, dated 1 January of the year 10000. *)
Definition lateData : FirestoreWrites.DiveLogData :=
  {| FirestoreWrites.d_userId := "u1"; FirestoreWrites.d_displayName := "U";
     FirestoreWrites.d_title := "Night dive";
     FirestoreWrites.d_description := None;
     FirestoreWrites.d_location :=
       {| lat := 10; lng := 20; loc_name := "reef"; address := None |};
     FirestoreWrites.d_date := 253402300800000;
     FirestoreWrites.d_photos := [] |}.

Definition sampleEntropy (index : nat) : Z * string :=
  (1700000000000 + Z.of_nat index, "k3x9").

(** A store where user u1 has two avatar objects, one under an extension
    that [deleteAvatar] does not try. *)
Definition avatarBackend : Backend :=
  {| docs := ∅;
     blobs := {[ "profile-photos/u1/avatar.jpg"; "profile-photos/u1/avatar.JPG" ]};
     firestoreError := None; denied := ∅; auth := Some "u1";
     now := 5000; log := [] |}.

(* ===================================================================== *)
(** * Properties                                                           *)
(* ===================================================================== *)

(** ** Validation of image files *)

Section Validation.
Import Storage.

Example validate_three :
  errors (validateImageFiles
    [ {| file_name := "a.gif"; file_type := "image/gif"; file_size := 5 |};
      png "b.png" 5; png "c.png" 10485761 ])
  = [ "File 1: Only JPEG, PNG, and WebP images are allowed";
      "File 3: File size must be less than 10MB" ].
Proof. vm_compute. reflexivity. Qed.

Lemma validateImageFile_valid (f : File) :
  isValid (validateImageFile f) = true ↔
  file_type f ∈ ["image/jpeg"; "image/png"; "image/webp"] ∧
  file_size f ≤ 10485760.
Proof.
  unfold validateImageFile, includes, allowedTypes.
  case_bool_decide as Hty; simpl.
  - destruct (Z.gtb_spec (file_size f) maxSize) as [Hgt|Hle]; simpl.
    + split; [discriminate|]. intros [_ H]. unfold maxSize in Hgt. lia.
    + split; [|done]. intros _. split; [done|]. unfold maxSize in Hle. lia.
  - split; [discriminate|]. intros [H _]. contradiction.
Qed.

Lemma validateLoop_length (files : list File) : ∀ i errs,
  length (validateLoop i files errs) =
  (length errs +
   length (filter (λ f, isValid (validateImageFile f) = false) files))%nat.
Proof.
  induction files as [|f files IH]; intros i errs; simpl.
  - lia.
  - rewrite filter_cons.
    destruct (isValid (validateImageFile f)) eqn:Hv; simpl.
    + apply IH.
    + rewrite IH, length_app. simpl. lia.
Qed.

Lemma filter_invalid_nil (files : list File) :
  filter (λ f, isValid (validateImageFile f) = false) files = [] ↔
  Forall (λ f, isValid (validateImageFile f) = true) files.
Proof.
  induction files as [|f files IH]; [by split; constructor|].
  rewrite filter_cons, Forall_cons.
  destruct (isValid (validateImageFile f)) eqn:Hv.
  - rewrite decide_False by congruence. rewrite IH. tauto.
  - rewrite decide_True by done. split; [discriminate|]. intros [? _]. done.
Qed.

Lemma validateLoop_messages (files : list File) : ∀ i errs,
  validateLoop i files errs =
  errs ++ ((λ jf, errorLine jf.1 (validateImageFile jf.2)) <$>
           filter (λ jf, isValid (validateImageFile jf.2) = false)
                  (imap (λ j f, ((i + j)%nat, f)) files)).
Proof.
  induction files as [|f files IH]; intros i errs; cbn [validateLoop imap].
  - by rewrite app_nil_r.
  - rewrite filter_cons. cbn [fst snd]. rewrite Nat.add_0_r.
    rewrite (imap_ext _ (λ j f, ((S i + j)%nat, f)))
      by (intros j y _; cbn; f_equal; lia).
    destruct (isValid (validateImageFile f)) eqn:Hv; cbn [negb].
    + rewrite decide_False by congruence. apply IH.
    + rewrite decide_True by done. rewrite IH, <- app_assoc. done.
Qed.

(** C10.  [validateImageFile] accepts a file exactly when its MIME type is
    one of image/jpeg, image/png, image/webp and its size is at most
    10 * 1024 * 1024 bytes (so a file of exactly 10 MiB is accepted);
    [validateImageFiles] accepts a list exactly when every file in it is
    accepted, and reports one error message per rejected file: the message
    of that file, prefixed with its position in the list counted from 1,
    in the order of the list. *)
Theorem validateImageFiles_spec (files : list File) :
  (∀ f, isValid (validateImageFile f) = true ↔
        file_type f ∈ ["image/jpeg"; "image/png"; "image/webp"] ∧
        file_size f ≤ 10 * 1024 * 1024) ∧
  (∀ f, file_type f ∈ ["image/jpeg"; "image/png"; "image/webp"] →
        file_size f = 10 * 1024 * 1024 →
        isValid (validateImageFile f) = true) ∧
  (allValid (validateImageFiles files) = true ↔
   Forall (λ f, isValid (validateImageFile f) = true) files) ∧
  length (errors (validateImageFiles files)) =
    length (filter (λ f, isValid (validateImageFile f) = false) files) ∧
  errors (validateImageFiles files) =
    (λ jf, errorLine jf.1 (validateImageFile jf.2)) <$>
    filter (λ jf, isValid (validateImageFile jf.2) = false) (imap pair files).
Proof.
  split; [exact validateImageFile_valid|].
  split; [intros f Ht Hs; apply validateImageFile_valid; split; [done|lia]|].
  unfold validateImageFiles; simpl.
  rewrite validateLoop_length; simpl. split; [|split; [done|]].
  - rewrite bool_decide_eq_true, length_zero_iff_nil.
    apply filter_invalid_nil.
  - by rewrite validateLoop_messages.
Qed.

End Validation.

(** ** The marker visual *)

Section MarkerContent.

Lemma selectedStyle_createMarkerContent (d : DiveLog) (isSelected : bool) :
  selectedStyle (createMarkerContent d isSelected) = isSelected.
Proof.
  unfold createMarkerContent, selectedStyle.
  destruct isSelected, (bool_decide (0 < length (photos d))%nat); reflexivity.
Qed.

(** C4.  [createMarkerContent] is a function of the record and the
    selected flag alone.  The visual is always a circle.  For a record with
    photos it holds a thumbnail of the first photo, preceded by a badge
    with the number of photos exactly when there is more than one; for a
    record without photos it holds the default icon on a filled
    background.  The selected variant is larger, has a thicker border of a
    different colour, and a highlight ring. *)
Theorem createMarkerContent_spec (d : DiveLog) (isSelected : bool) :
  let v := createMarkerContent d isSelected in
  border_radius v = "50%" ∧
  children v =
    match photos d with
    | [] => [Icon]
    | p :: [] => [Img (url p) (title d)]
    | p :: _ :: _ =>
        [Badge (pretty (length (photos d))); Img (url p) (title d)]
    end ∧
  (is_Some (background v) ↔ photos d = []) ∧
  size_px v = (if isSelected then 60 else 50) ∧
  border_px v = (if isSelected then 4 else 3) ∧
  border_color v = (if isSelected then "#EF4444" else "#FFFFFF") ∧
  highlight_ring v = isSelected ∧
  size_px (createMarkerContent d false) < size_px (createMarkerContent d true) ∧
  border_color (createMarkerContent d false) ≠
    border_color (createMarkerContent d true).
Proof.
  unfold createMarkerContent.
  destruct (photos d) as [|p [|q ps]] eqn:Hp; simpl;
    repeat split; try done; try (by destruct isSelected);
    try (by intros [? ?]); try (by intros ?; eexists).
Qed.

End MarkerContent.

(** ** Reconciliation of the markers *)

Section Reconcile.
Implicit Types (s : State) (R : list DiveLog) (h : nat) (x : string).

Lemma foldl_alter_idemp (f : Marker → Marker) (l : list (string * nat)) :
  (∀ m, f (f m) = f m) → ∀ (st : list Marker) h,
  foldl (λ st kv, alter f kv.2 st) st l !! h =
  if decide (h ∈ l.*2) then f <$> st !! h else st !! h.
Proof.
  intros Hf. induction l as [|[k a] l IH]; intros st h.
  - done.
  - rewrite fmap_cons. cbn [foldl snd]. rewrite IH.
    destruct (decide (a = h)) as [->|Hne].
    + rewrite list_lookup_alter_eq.
      rewrite (decide_True (P := h ∈ h :: l.*2)) by apply list_elem_of_here.
      destruct (st !! h) as [m|]; simpl; [|by case_decide].
      case_decide; simpl; by rewrite ?Hf.
    + rewrite list_lookup_alter_ne by done.
      destruct (decide (h ∈ l.*2)) as [Hin|Hin].
      * rewrite decide_True; [done|by apply list_elem_of_further].
      * rewrite decide_False; [done|].
        intros [?|?]%elem_of_cons; congruence.
Qed.

Lemma foldl_alter_length (F : string → Marker → Marker)
    (l : list (string * nat)) : ∀ (st : list Marker),
  length (foldl (λ st kv, alter (F kv.1) kv.2 st) st l) = length st.
Proof.
  induction l as [|a l IH]; intros st; simpl; [done|].
  by rewrite IH, length_alter.
Qed.

Lemma registered_handle s h :
  h ∈ (map_to_list (markersRef s)).*2 ↔ ∃ x, markersRef s !! x = Some h.
Proof.
  rewrite list_elem_of_fmap. split.
  - intros ([x h'] & -> & Hin). exists x. by apply elem_of_map_to_list.
  - intros [x Hx]. exists (x, h). split; [done|]. by apply elem_of_map_to_list.
Qed.

Lemma clearMarkers_lookup s h :
  store (clearMarkers s) !! h =
  if decide (h ∈ (map_to_list (markersRef s)).*2)
  then setMapNull <$> store s !! h else store s !! h.
Proof. unfold clearMarkers; simpl. by apply foldl_alter_idemp. Qed.

Lemma clearMarkers_length s : length (store (clearMarkers s)) = length (store s).
Proof.
  unfold clearMarkers; simpl.
  apply (foldl_alter_length (λ _, setMapNull)).
Qed.

(** The loop that creates the markers, on a map that is there. *)
Lemma createMarkers_spec R : ∀ s g,
  mapInstanceRef s = Some g →
  let s' := createMarkers R s in
  mapInstanceRef s' = Some g ∧
  store s' = store s ++ (newMarker <$> R) ∧
  dom (markersRef s') = dom (markersRef s) ∪ list_to_set (id <$> R) ∧
  (∀ x h, markersRef s' !! x = Some h →
     markersRef s !! x = Some h ∨
     ∃ i d, h = (length (store s) + i)%nat ∧ R !! i = Some d ∧ id d = x) ∧
  (NoDup (id <$> R) → ∀ i d, R !! i = Some d →
     markersRef s' !! id d = Some (length (store s) + i)%nat).
Proof.
  induction R as [|d R IH] using rev_ind; intros s g Hg; simpl.
  - rewrite app_nil_r, union_empty_r_L. repeat split; auto.
    intros _ i d Hd. by rewrite lookup_nil in Hd.
  - unfold createMarkers. rewrite foldl_snoc. fold (createMarkers R s).
    destruct (IH s g Hg) as (Hmap & Hst & Hdom & Hreg & Hnd).
    unfold createMarker. rewrite Hmap. simpl.
    rewrite Hst, fmap_app, app_assoc. repeat split; auto.
    + rewrite dom_insert_L, Hdom, fmap_app, list_to_set_app_L. simpl.
      apply set_eq; intros y; set_unfold; tauto.
    + intros x h Hx. rewrite length_app, length_fmap in Hx.
      destruct (decide (id d = x)) as [<-|Hne].
      * rewrite lookup_insert_eq in Hx. injection Hx as <-.
        right. exists (length R), d. split; [done|].
        split; [|done]. by rewrite lookup_app_r, Nat.sub_diag.
      * rewrite lookup_insert_ne in Hx by done.
        destruct (Hreg x h Hx) as [?|(i & d' & -> & Hi & <-)]; [by left|].
        right. exists i, d'. split; [done|]. split; [|done].
        by apply lookup_app_l_Some.
    + intros Hdup i d' Hi. rewrite length_app, length_fmap.
      rewrite fmap_app in Hdup. apply NoDup_app in Hdup as (Hdup & Hfresh & _).
      apply lookup_app_Some in Hi as [Hi|[Hge Hi]].
      * rewrite lookup_insert_ne; [by apply Hnd|].
        intros Heq. apply (Hfresh (id d')).
        -- apply list_elem_of_fmap_2. by eapply list_elem_of_lookup_2.
        -- rewrite <- Heq. simpl. apply list_elem_of_here.
      * apply list_lookup_singleton_Some in Hi as [Hi <-].
        rewrite lookup_insert_eq. f_equal. lia.
Qed.

Lemma reconcile_unloaded R s : mapInstanceRef s = None → reconcile R s = s.
Proof. intros H. unfold reconcile. by rewrite H. Qed.

Lemma fitMap_markers R s :
  markersRef (fitMap R s) = markersRef s ∧ store (fitMap R s) = store s.
Proof.
  unfold fitMap. case_bool_decide; [|done].
  destruct (createBounds _), (mapInstanceRef s); done.
Qed.

Lemma createBounds_Some (ps : list DiveLocation) :
  ps ≠ [] →
  createBounds ps =
  Some (foldl (λ bounds pos, extend bounds (toLatLng pos)) emptyBounds ps).
Proof.
  intros Hne. unfold createBounds. rewrite bool_decide_eq_false_2; [done|].
  by rewrite length_zero_iff_nil.
Qed.

Lemma reconcile_store R s g :
  mapInstanceRef s = Some g →
  store (reconcile R s) = store (clearMarkers s) ++ (newMarker <$> R).
Proof.
  intros Hg. unfold reconcile. rewrite Hg.
  rewrite (proj2 (fitMap_markers _ _)).
  by destruct (createMarkers_spec R (withMarkers ∅ (clearMarkers s)) g Hg)
    as (_ & -> & _).
Qed.

Lemma reconcile_liveIds R s g :
  mapInstanceRef s = Some g →
  liveIds (reconcile R s) = list_to_set (id <$> R).
Proof.
  intros Hg. unfold liveIds, reconcile. rewrite Hg.
  rewrite (proj1 (fitMap_markers _ _)).
  destruct (createMarkers_spec R (withMarkers ∅ (clearMarkers s)) g Hg)
    as (_ & _ & -> & _).
  simpl. rewrite dom_empty_L. apply union_empty_l_L.
Qed.

Lemma reconcile_registered R s g x h :
  mapInstanceRef s = Some g →
  markersRef (reconcile R s) !! x = Some h →
  ∃ i d, h = (length (store s) + i)%nat ∧ R !! i = Some d ∧ id d = x ∧
         store (reconcile R s) !! h = Some (newMarker d).
Proof.
  intros Hg Hx. rewrite (reconcile_store R s g Hg).
  unfold reconcile in Hx. rewrite Hg in Hx.
  rewrite (proj1 (fitMap_markers _ _)) in Hx.
  destruct (createMarkers_spec R (withMarkers ∅ (clearMarkers s)) g Hg)
    as (_ & _ & _ & Hreg & _).
  destruct (Hreg x h Hx) as [Hold|(i & d & -> & Hi & <-)].
  - cbn [markersRef withMarkers] in Hold. by rewrite lookup_empty in Hold.
  - cbn [store withMarkers]. rewrite clearMarkers_length.
    exists i, d. repeat split; auto.
    rewrite lookup_app_r by (rewrite clearMarkers_length; lia).
    rewrite clearMarkers_length, Nat.add_comm, Nat.add_sub.
    by rewrite list_lookup_fmap, Hi.
Qed.

Lemma reconcile_lookup_nodup R s g i d :
  mapInstanceRef s = Some g → NoDup (id <$> R) → R !! i = Some d →
  markersRef (reconcile R s) !! id d = Some (length (store s) + i)%nat.
Proof.
  intros Hg Hdup Hi. unfold reconcile. rewrite Hg.
  rewrite (proj1 (fitMap_markers _ _)).
  destruct (createMarkers_spec R (withMarkers ∅ (clearMarkers s)) g Hg)
    as (_ & _ & _ & _ & Hnd).
  rewrite (Hnd Hdup i d Hi). cbn [store withMarkers].
  by rewrite clearMarkers_length.
Qed.

Lemma reconcile_map R s g :
  mapInstanceRef s = Some g →
  mapInstanceRef (reconcile R s) =
  Some (match createBounds (location <$> R) with
        | Some bounds => fitBounds bounds g
        | None => g
        end).
Proof.
  intros Hg. unfold reconcile. rewrite Hg.
  destruct (createMarkers_spec R (withMarkers ∅ (clearMarkers s)) g Hg)
    as (Hmap & _).
  unfold fitMap. rewrite Hmap.
  destruct R as [|d R]; [done|].
  rewrite bool_decide_eq_true_2 by (simpl; lia).
  by rewrite createBounds_Some.
Qed.

(** After a reconciliation on a loaded map, the old store is what it was
    except that the markers that were registered are off the map. *)
Lemma reconcile_old_marker R s g h :
  mapInstanceRef s = Some g → (h < length (store s))%nat →
  store (reconcile R s) !! h =
  if decide (h ∈ (map_to_list (markersRef s)).*2)
  then setMapNull <$> store s !! h else store s !! h.
Proof.
  intros Hg Hlt. rewrite (reconcile_store R s g Hg).
  rewrite lookup_app_l by (by rewrite clearMarkers_length).
  apply clearMarkers_lookup.
Qed.

Lemma reconcile_old_off R s g h :
  mapInstanceRef s = Some g → tracked s → (h < length (store s))%nat →
  ¬ displayed (reconcile R s) h.
Proof.
  intros Hg Htr Hlt (m & Hm & Hon).
  rewrite (reconcile_old_marker R s g h Hg Hlt) in Hm.
  case_decide as Hreg.
  - destruct (store s !! h) as [m0|]; simplify_eq/=.
  - apply Hreg, registered_handle, Htr. by exists m.
Qed.

Lemma reconcile_loaded R s g :
  mapInstanceRef s = Some g → ∃ g', mapInstanceRef (reconcile R s) = Some g'.
Proof. intros Hg. rewrite (reconcile_map R s g Hg). eauto. Qed.

Lemma reconcile_registered_displayed R s g x h :
  mapInstanceRef s = Some g →
  markersRef (reconcile R s) !! x = Some h →
  ∃ d, d ∈ R ∧ id d = x ∧ store (reconcile R s) !! h = Some (newMarker d) ∧
       displayed (reconcile R s) h.
Proof.
  intros Hg Hx.
  destruct (reconcile_registered R s g x h Hg Hx) as (i & d & _ & Hi & Hid & Hm).
  exists d. split; [by eapply list_elem_of_lookup_2|].
  split; [done|]. split; [done|]. by exists (newMarker d).
Qed.

Lemma reconcile_live_lookup R s g x :
  mapInstanceRef s = Some g → x ∈ id <$> R →
  is_Some (markersRef (reconcile R s) !! x).
Proof.
  intros Hg Hx. apply elem_of_dom. fold (liveIds (reconcile R s)).
  rewrite (reconcile_liveIds R s g Hg). by apply elem_of_list_to_set.
Qed.

Lemma reconcile_tracked R s g :
  mapInstanceRef s = Some g → tracked s → NoDup (id <$> R) →
  tracked (reconcile R s).
Proof.
  intros Hg Htr Hdup h Hdisp.
  destruct (decide (h < length (store s))%nat) as [Hlt|Hge].
  - by destruct (reconcile_old_off R s g h Hg Htr Hlt).
  - destruct Hdisp as (m & Hm & _).
    rewrite (reconcile_store R s g Hg) in Hm.
    rewrite lookup_app_r in Hm by (rewrite clearMarkers_length; lia).
    rewrite clearMarkers_length, list_lookup_fmap in Hm.
    destruct (R !! (h - length (store s))%nat) as [d|] eqn:Hd; [|done].
    exists (id d).
    rewrite (reconcile_lookup_nodup R s g _ d Hg Hdup Hd). f_equal. lia.
Qed.

Lemma reconcile_nil_markers s g :
  mapInstanceRef s = Some g → markersRef (reconcile [] s) = ∅.
Proof.
  intros Hg. apply dom_empty_inv_L. by apply (reconcile_liveIds [] s g).
Qed.

(** A second reconciliation takes every marker of the first off the map. *)
Lemma reconcile_previous_off R1 R2 s g y h :
  mapInstanceRef s = Some g →
  markersRef (reconcile R1 s) !! y = Some h →
  ¬ displayed (reconcile R2 (reconcile R1 s)) h.
Proof.
  intros Hg Hy (m & Hm2 & Hon).
  destruct (reconcile_loaded R1 s g Hg) as [g1 Hg1].
  destruct (reconcile_registered_displayed R1 s g y h Hg Hy)
    as (d & _ & _ & Hm & _).
  rewrite (reconcile_old_marker R2 _ g1 h Hg1) in Hm2
    by (by eapply lookup_lt_Some).
  rewrite decide_True in Hm2 by (apply registered_handle; eauto).
  rewrite Hm in Hm2. by simplify_eq/=.
Qed.

Lemma reconcile_created R s g :
  mapInstanceRef s = Some g → created s (reconcile R s) = length R.
Proof.
  intros Hg. unfold created. rewrite (reconcile_store R s g Hg).
  rewrite length_app, clearMarkers_length, length_fmap. lia.
Qed.

Lemma reconcile_calls R s g :
  mapInstanceRef s = Some g → R ≠ [] →
  ∃ bounds, createBounds (location <$> R) = Some bounds ∧
            mapInstanceRef (reconcile R s) = Some (fitBounds bounds g) ∧
            mapCalls (reconcile R s) = mapCalls s ++ [FitBounds bounds].
Proof.
  intros Hg Hne. unfold mapCalls. rewrite (reconcile_map R s g Hg), Hg.
  rewrite (createBounds_Some (location <$> R)) by (by destruct R).
  eauto.
Qed.

Lemma createMarkers_later_wins R : ∀ s g x i,
  mapInstanceRef s = Some g →
  markersRef (createMarkers R s) !! x = Some (length (store s) + i)%nat →
  ∀ j d, (i < j)%nat → R !! j = Some d → id d ≠ x.
Proof.
  induction R as [|d0 R IH] using rev_ind; intros s g x i Hg Hx j d Hij Hj.
  - by rewrite lookup_nil in Hj.
  - unfold createMarkers in Hx. rewrite foldl_snoc in Hx.
    fold (createMarkers R s) in Hx.
    destruct (createMarkers_spec R s g Hg) as (Hmap & Hst & _).
    unfold createMarker in Hx. rewrite Hmap in Hx. cbn in Hx.
    rewrite Hst, length_app, length_fmap in Hx.
    apply lookup_app_Some in Hj as [Hj|[Hge Hj]].
    + destruct (decide (id d0 = x)) as [<-|Hne].
      * rewrite lookup_insert_eq in Hx. apply lookup_lt_Some in Hj.
        injection Hx as Hx. lia.
      * rewrite lookup_insert_ne in Hx by done.
        exact (IH s g x i Hg Hx j d Hij Hj).
    + apply list_lookup_singleton_Some in Hj as [Hj <-].
      intros Heq. rewrite <- Heq, lookup_insert_eq in Hx.
      injection Hx as Hx. lia.
Qed.

Lemma reconcile_later_wins R s g x i :
  mapInstanceRef s = Some g →
  markersRef (reconcile R s) !! x = Some (length (store s) + i)%nat →
  ∀ j d, (i < j)%nat → R !! j = Some d → id d ≠ x.
Proof.
  intros Hg Hx. unfold reconcile in Hx. rewrite Hg in Hx.
  rewrite (proj1 (fitMap_markers _ _)) in Hx.
  rewrite <- clearMarkers_length in Hx.
  by apply (createMarkers_later_wins R (withMarkers ∅ (clearMarkers s)) g).
Qed.

Lemma reconcile_new_marker R s g i d :
  mapInstanceRef s = Some g → R !! i = Some d →
  store (reconcile R s) !! (length (store s) + i)%nat = Some (newMarker d).
Proof.
  intros Hg Hi. rewrite (reconcile_store R s g Hg).
  rewrite lookup_app_r by (rewrite clearMarkers_length; lia).
  rewrite clearMarkers_length, Nat.add_comm, Nat.add_sub.
  by rewrite list_lookup_fmap, Hi.
Qed.

(** The marker made for a record whose id comes again later in the list
    is on the map and registered under no id. *)
Lemma reconcile_duplicate_unregistered R s g (i j : nat) (d1 d2 : DiveLog) :
  mapInstanceRef s = Some g →
  (i < j)%nat → R !! i = Some d1 → R !! j = Some d2 → id d1 = id d2 →
  displayed (reconcile R s) (length (store s) + i) ∧
  ∀ x, markersRef (reconcile R s) !! x ≠ Some (length (store s) + i)%nat.
Proof.
  intros Hg Hij Hi Hj Hid.
  pose proof (reconcile_new_marker R s g i d1 Hg Hi) as Hm.
  split; [by exists (newMarker d1)|].
  intros x Hx.
  destruct (reconcile_registered R s g x _ Hg Hx) as (i' & d' & Hh & Hi' & Hx' & _).
  assert (i' = i) as -> by lia.
  assert (d' = d1) as -> by congruence.
  apply (reconcile_later_wins R s g x i Hg Hx j d2 Hij Hj). congruence.
Qed.

(** The next reconciliation does not reach such a marker. *)
Lemma reconcile_duplicate_stays R1 R2 s g (i j : nat) (d1 d2 : DiveLog) :
  mapInstanceRef s = Some g →
  (i < j)%nat → R1 !! i = Some d1 → R1 !! j = Some d2 → id d1 = id d2 →
  displayed (reconcile R2 (reconcile R1 s)) (length (store s) + i).
Proof.
  intros Hg Hij Hi Hj Hid.
  destruct (reconcile_duplicate_unregistered R1 s g i j d1 d2 Hg Hij Hi Hj Hid)
    as [(m & Hm & Hon) Hfree].
  destruct (reconcile_loaded R1 s g Hg) as [g1 Hg1].
  exists m. split; [|done].
  rewrite (reconcile_old_marker R2 _ g1 _ Hg1) by (by eapply lookup_lt_Some).
  rewrite decide_False; [done|].
  intros [x Hx]%registered_handle. by destruct (Hfree x).
Qed.

(** When the list repeats no id, the next reconciliation takes every
    marker made for it off the map. *)
Lemma reconcile_all_off R1 R2 s g (i : nat) :
  mapInstanceRef s = Some g → NoDup (id <$> R1) → (i < length R1)%nat →
  ¬ displayed (reconcile R2 (reconcile R1 s)) (length (store s) + i).
Proof.
  intros Hg Hdup Hi.
  destruct (lookup_lt_is_Some_2 R1 i Hi) as [d Hd].
  apply reconcile_previous_off with g (id d); [done|].
  by apply reconcile_lookup_nodup with g.
Qed.

(** C1, amended.  On a loaded map, after [reconcile R] the ids the
    component holds a marker for are exactly the ids that occur in [R];
    each of them is held by a marker that is on the map, at the position
    and with the unselected visual of a record of [R] with that id.  When
    the ids of [R] are distinct and the map had no orphan marker before,
    it has none afterwards.  Reconciling the empty list leaves no marker
    registered and, there being no orphans, none on the map. *)
Theorem reconcile_live_markers R s g :
  mapInstanceRef s = Some g →
  let s' := reconcile R s in
  liveIds s' = list_to_set (id <$> R) ∧
  (∀ x h, markersRef s' !! x = Some h →
     ∃ d, d ∈ R ∧ id d = x ∧ store s' !! h = Some (newMarker d) ∧
          displayed s' h) ∧
  (tracked s → NoDup (id <$> R) → tracked s') ∧
  (R = [] → markersRef s' = ∅ ∧ (tracked s → ∀ h, ¬ displayed s' h)).
Proof.
  intros Hg s'. split; [by eapply reconcile_liveIds|].
  split; [intros x h; by apply reconcile_registered_displayed with g|].
  split; [by apply reconcile_tracked with g|].
  intros ->.
  pose proof (reconcile_nil_markers s g Hg) as Hempty.
  split; [done|]. intros Htr h Hdisp.
  destruct (reconcile_tracked [] s g Hg Htr (NoDup_nil_2 (A := string)) h Hdisp)
    as [x Hx].
  by rewrite Hempty, lookup_empty in Hx.
Qed.

(** C2, amended.  On a loaded map, when two consecutive reconciliations
    both list the id [x], the second one takes the marker the first one
    registered for [x] off the map, as it does with every marker the
    first one registered: all markers of the first when its list repeats
    no id; when it repeats one, the marker made for the earlier record of
    that id was never registered and stays on the map.  The second then
    registers a newly built marker for [x], on the map, at the position
    and with the unselected visual of a record of the second list. *)
Theorem reconcile_recreates R1 R2 s g x :
  mapInstanceRef s = Some g →
  x ∈ id <$> R1 → x ∈ id <$> R2 →
  let s1 := reconcile R1 s in
  let s2 := reconcile R2 s1 in
  (∀ y h, markersRef s1 !! y = Some h →
     displayed s1 h ∧ ¬ displayed s2 h) ∧
  (NoDup (id <$> R1) →
     ∀ i, (i < length R1)%nat → ¬ displayed s2 (length (store s) + i)) ∧
  (∀ i j d1 d2, (i < j)%nat → R1 !! i = Some d1 → R1 !! j = Some d2 →
     id d1 = id d2 →
     (∀ y, markersRef s1 !! y ≠ Some (length (store s) + i)%nat) ∧
     displayed s2 (length (store s) + i)) ∧
  ∃ h1 h2,
    markersRef s1 !! x = Some h1 ∧ markersRef s2 !! x = Some h2 ∧
    (h1 < length (store s1) ≤ h2)%nat ∧
    (∃ d, d ∈ R2 ∧ id d = x ∧ store s2 !! h2 = Some (newMarker d)) ∧
    displayed s2 h2.
Proof.
  intros Hg H1 H2 s1 s2.
  destruct (reconcile_loaded R1 s g Hg) as [g1 Hg1]. fold s1 in Hg1.
  split.
  { intros y h Hy. split; [|by apply reconcile_previous_off with g y].
    by destruct (reconcile_registered_displayed R1 s g y h Hg Hy)
      as (_ & _ & _ & _ & ?). }
  split; [intros Hdup i Hi; by apply reconcile_all_off with g|].
  split.
  { intros i j d1 d2 Hij Hi Hj Hid. split.
    - by destruct (reconcile_duplicate_unregistered R1 s g i j d1 d2).
    - by apply reconcile_duplicate_stays with g j d1 d2. }
  destruct (reconcile_live_lookup R1 s g x Hg H1) as [h1 Hh1].
  destruct (reconcile_live_lookup R2 s1 g1 x Hg1 H2) as [h2 Hh2].
  exists h1, h2. split; [done|]. split; [done|].
  destruct (reconcile_registered_displayed R1 s g x h1 Hg Hh1)
    as (d1 & _ & _ & Hm1 & _).
  destruct (reconcile_registered R2 s1 g1 x h2 Hg1 Hh2)
    as (i & d2 & -> & Hi & Hid & Hm2).
  split; [split; [by eapply lookup_lt_Some|lia]|].
  split.
  - exists d2. split; [by eapply list_elem_of_lookup_2|done].
  - by exists (newMarker d2).
Qed.

(** C3, amended.  On a loaded map, reconciling the same list twice in a
    row leaves the same set of live ids as reconciling it once, but the
    second call is not a no-op on the markers: it builds one new marker
    per record of the list and takes every marker the first call
    registered off the map: all markers of the first call when the list
    repeats no id; when it repeats one, the marker the first call made for
    the earlier record of that id was never registered and stays on the
    map.  For a non-empty list it issues the framing command again. *)
Theorem reconcile_twice R s g :
  mapInstanceRef s = Some g →
  let s1 := reconcile R s in
  let s2 := reconcile R s1 in
  liveIds s2 = liveIds s1 ∧
  created s1 s2 = length R ∧
  (∀ y h, markersRef s1 !! y = Some h → ¬ displayed s2 h) ∧
  (NoDup (id <$> R) →
     ∀ i, (i < length R)%nat → ¬ displayed s2 (length (store s) + i)) ∧
  (∀ i j d1 d2, (i < j)%nat → R !! i = Some d1 → R !! j = Some d2 →
     id d1 = id d2 →
     (∀ y, markersRef s1 !! y ≠ Some (length (store s) + i)%nat) ∧
     displayed s2 (length (store s) + i)) ∧
  (R ≠ [] → ∃ bounds, createBounds (location <$> R) = Some bounds ∧
              mapCalls s2 = mapCalls s1 ++ [FitBounds bounds]).
Proof.
  intros Hg s1 s2.
  destruct (reconcile_loaded R s g Hg) as [g1 Hg1]. fold s1 in Hg1.
  split; [|split; [|split; [|split; [|split]]]].
  - unfold s2. rewrite (reconcile_liveIds R s1 g1 Hg1).
    unfold s1. by rewrite (reconcile_liveIds R s g Hg).
  - by apply reconcile_created with g1.
  - intros y h. by apply reconcile_previous_off with g.
  - intros Hdup i Hi. by apply reconcile_all_off with g.
  - intros i j d1 d2 Hij Hi Hj Hid. split.
    + by destruct (reconcile_duplicate_unregistered R s g i j d1 d2).
    + by apply reconcile_duplicate_stays with g j d1 d2.
  - intros Hne.
    destruct (reconcile_calls R s1 g1 Hg1 Hne) as (b & Hb & _ & Hcalls).
    eauto.
Qed.

Lemma reconcile_live_markers_witness :
  mapInstanceRef loaded = Some newMap ∧
  liveIds (reconcile [diveA; diveB] loaded) =
    list_to_set (id <$> [diveA; diveB]).
Proof.
  split; [reflexivity|].
  exact (proj1 (reconcile_live_markers [diveA; diveB] loaded newMap eq_refl)).
Defined.

(** C1 as stated fails before the map is loaded: the effect returns at
    once, and no marker is made for the records it was given. *)
Lemma reconcile_live_markers_counterexample :
  liveIds (reconcile [diveA] mount) ≠ list_to_set (id <$> [diveA]).
Proof.
  rewrite reconcile_unloaded by done. unfold liveIds, mount; cbn [markersRef].
  rewrite dom_empty_L. intros H.
  apply (not_elem_of_empty (C := gset string) "a"). rewrite H.
  apply elem_of_list_to_set. apply list_elem_of_here.
Qed.

Lemma reconcile_recreates_witness :
  mapInstanceRef loaded = Some newMap ∧
  "b" ∈ id <$> [diveA; diveB] ∧ "b" ∈ id <$> [diveB] ∧
  ∃ h1 h2,
    markersRef (reconcile [diveA; diveB] loaded) !! "b" = Some h1 ∧
    markersRef (reconcile [diveB] (reconcile [diveA; diveB] loaded)) !! "b"
      = Some h2 ∧
    (h1 < h2)%nat.
Proof.
  assert (Hb1 : "b" ∈ id <$> [diveA; diveB])
    by (apply list_elem_of_further, list_elem_of_here).
  assert (Hb2 : "b" ∈ id <$> [diveB]) by apply list_elem_of_here.
  split; [reflexivity|]. split; [done|]. split; [done|].
  destruct (reconcile_recreates [diveA; diveB] [diveB] loaded newMap "b"
              eq_refl Hb1 Hb2) as (_ & _ & _ & h1 & h2 & H1 & H2 & Hlt & _).
  exists h1, h2. split; [done|]. split; [done|]. lia.
Defined.

(** C2 as stated fails: after [reconcile [a; b]] then [reconcile [b]] the
    marker of [b] is another object, and the first one is off the map. *)
Lemma reconcile_recreates_counterexample :
  ¬ untouched "b" (reconcile [diveA; diveB] loaded)
                  (reconcile [diveB] (reconcile [diveA; diveB] loaded)).
Proof. intros [H _]. vm_compute in H. discriminate. Qed.

Lemma reconcile_twice_witness :
  mapInstanceRef loaded = Some newMap ∧
  liveIds (reconcile [diveA] (reconcile [diveA] loaded)) =
    liveIds (reconcile [diveA] loaded) ∧
  created (reconcile [diveA] loaded)
          (reconcile [diveA] (reconcile [diveA] loaded)) = 1%nat.
Proof.
  split; [reflexivity|].
  destruct (reconcile_twice [diveA] loaded newMap eq_refl) as (H1 & H2 & _).
  split; [exact H1|exact H2].
Defined.

(** C3 as stated fails: the second of two identical calls builds a marker
    for every record again. *)
Lemma reconcile_twice_counterexample :
  created (reconcile [diveA] loaded)
          (reconcile [diveA] (reconcile [diveA] loaded)) ≠ 0%nat.
Proof. vm_compute. discriminate. Qed.

End Reconcile.

(** ** Framing of the viewport *)

Section Framing.
Implicit Types (s : State) (R : list DiveLog) (b : LatLngBounds) (p q : LatLng).

Lemma extend_covers_new b p : covers (extend b p) p.
Proof.
  destruct b as [r|]; simpl.
  - repeat split;
      auto using Q.le_min_r, Q.le_max_r.
  - repeat split; apply Qle_refl.
Qed.

Lemma extend_covers_old b p q : covers b q → covers (extend b p) q.
Proof.
  destruct b as [r|]; simpl; [|done].
  intros (Hs & Hn & Hw & He). repeat split.
  - eapply Qle_trans; [apply Q.le_min_l|done].
  - eapply Qle_trans; [done|apply Q.le_max_l].
  - eapply Qle_trans; [apply Q.le_min_l|done].
  - eapply Qle_trans; [done|apply Q.le_max_l].
Qed.

Lemma foldl_extend_covers (ps : list DiveLocation) : ∀ b,
  let b' := foldl (λ bounds pos, extend bounds (toLatLng pos)) b ps in
  (∀ q, covers b q → covers b' q) ∧
  (∀ pos, pos ∈ ps → covers b' (toLatLng pos)).
Proof.
  induction ps as [|pos0 ps IH]; intros b; simpl.
  - split; [done|]. intros pos Hin. by apply elem_of_nil in Hin.
  - destruct (IH (extend b (toLatLng pos0))) as [Hold Hnew]. split.
    + intros q Hq. by apply Hold, extend_covers_old.
    + intros pos [->|Hin]%elem_of_cons; [|by apply Hnew].
      apply Hold, extend_covers_new.
Qed.

Lemma createBounds_covers (ps : list DiveLocation) b :
  createBounds ps = Some b → ∀ pos, pos ∈ ps → covers b (toLatLng pos).
Proof.
  unfold createBounds. case_bool_decide; [done|]. intros [= <-].
  apply foldl_extend_covers.
Qed.

Lemma runListener_zoom (ls : list Listener) : ∀ g,
  zoom (foldl (λ g l, runListener l g) g ls) =
  match ls with [] => zoom g | _ => Z.min (zoom g) maxZoom end.
Proof.
  induction ls as [|[] ls IH]; intros g; [done|].
  cbn [foldl]. rewrite IH. unfold runListener, maxZoom.
  destruct (Z.gtb_spec (zoom g) 15) as [Hgt|Hle].
  - rewrite bool_decide_eq_true_2 by lia. simpl. destruct ls; lia.
  - rewrite andb_false_r. destruct ls; lia.
Qed.

Lemma boundsChanged_clamped (z : Z) (g : MapSurface) :
  listeners g ≠ [] → zoom (boundsChanged z g) = Z.min z maxZoom.
Proof.
  intros Hne. unfold boundsChanged. cbn [zoom].
  rewrite runListener_zoom. by destruct (listeners g).
Qed.

(** C7, amended.  On a loaded map, for every non-empty list of records
    [reconcile] asks the map to fit a bounding region that covers the
    coordinates of every record, and when the map then reports its new
    bounds at whatever zoom it chose, the zoom is brought down to at most
    15. *)
Theorem reconcile_frames R s g :
  mapInstanceRef s = Some g → R ≠ [] →
  ∃ bounds,
    createBounds (location <$> R) = Some bounds ∧
    (∀ d, d ∈ R → covers bounds (toLatLng (location d))) ∧
    mapCalls (reconcile R s) = mapCalls s ++ [FitBounds bounds] ∧
    ∀ z, ∃ g', mapInstanceRef (step (reconcile R s) (BoundsChanged z)) = Some g' ∧
               zoom g' = Z.min z 15 ∧ zoom g' ≤ 15.
Proof.
  intros Hg Hne.
  destruct (reconcile_calls R s g Hg Hne) as (b & Hb & Hmap & Hcalls).
  exists b. split; [done|]. split; [|split; [done|]].
  - intros d Hd. apply (createBounds_covers _ _ Hb).
    by apply list_elem_of_fmap_2.
  - intros z. cbn [step]. rewrite Hmap. cbn [fmap option_fmap option_map withMap mapInstanceRef].
    eexists. split; [done|].
    rewrite boundsChanged_clamped.
    + unfold maxZoom. lia.
    + cbn [fitBounds listeners]. by destruct (listeners g).
Qed.

Lemma reconcile_frames_witness :
  mapInstanceRef loaded = Some newMap ∧ [diveA; diveA] ≠ [] ∧
  ∃ bounds,
    createBounds (location <$> [diveA; diveA]) = Some bounds ∧
    mapCalls (reconcile [diveA; diveA] loaded) = [FitBounds bounds] ∧
    ∃ g', mapInstanceRef
            (step (reconcile [diveA; diveA] loaded) (BoundsChanged 21)) = Some g' ∧
          zoom g' = 15.
Proof.
  split; [reflexivity|]. split; [discriminate|].
  destruct (reconcile_frames [diveA; diveA] loaded newMap eq_refl
              ltac:(discriminate)) as (b & Hb & _ & Hcalls & Hz).
  exists b. split; [done|]. split; [done|].
  destruct (Hz 21) as (g' & Hg' & Hzoom & _). by exists g'.
Defined.

(** C7 as stated fails before the map is loaded: nothing is asked of a
    map that is not there. *)
Lemma reconcile_frames_counterexample :
  ¬ ∃ bounds, FitBounds bounds ∈ mapCalls (reconcile [diveA] mount).
Proof. intros [b Hb]. vm_compute in Hb. by apply elem_of_nil in Hb. Qed.

End Framing.

(** ** Selection *)

Section Selection.
Implicit Types (s : State) (R : list DiveLog) (h : nat) (x : string)
  (sel : option string).

Lemma restyle_lookup sel (l : list (string * nat)) :
  ∀ (st : list Marker) h m',
  foldl (λ st kv,
           let isSelected := bool_decide (Some kv.1 = sel) in
           alter (λ m, setContent
                         (createMarkerContent (updateContent m) isSelected) m)
                 kv.2 st) st l !! h = Some m' →
  ∃ m, st !! h = Some m ∧ position m' = position m ∧ onMap m' = onMap m ∧
       updateContent m' = updateContent m ∧
       (((h ∉ l.*2) ∧ m' = m) ∨
        ∃ k, (k, h) ∈ l ∧
             content m' = createMarkerContent (updateContent m)
                                              (bool_decide (Some k = sel))).
Proof.
  induction l as [|[k0 a] l IH]; intros st h m' Hm'.
  - exists m'. repeat split; auto. left. split; [apply not_elem_of_nil|done].
  - cbn [foldl] in Hm'. apply IH in Hm' as (m1 & Hm1 & Hpos & Hon & Huc & Hc).
    cbn [fst snd] in Hm1.
    destruct (decide (a = h)) as [->|Hne].
    + rewrite list_lookup_alter_eq in Hm1.
      destruct (st !! h) as [m|] eqn:Hm; [|done].
      injection Hm1 as <-. exists m. cbn in Hpos, Hon, Huc.
      repeat split; auto. right.
      destruct Hc as [[_ ->]|(k & Hk & Hc)].
      * exists k0. split; [apply list_elem_of_here|done].
      * exists k. split; [by apply list_elem_of_further|done].
    + rewrite list_lookup_alter_ne in Hm1 by done.
      exists m1. repeat split; auto.
      destruct Hc as [[Hnin ->]|(k & Hk & Hc)].
      * left. split; [|done]. rewrite fmap_cons.
        intros [Heq|?]%elem_of_cons; [cbn in Heq; congruence|done].
      * right. exists k. split; [by apply list_elem_of_further|done].
Qed.

Lemma setSelected_frame sel s :
  store (setSelected sel s) = store (restyleMarkers sel s) ∧
  markersRef (setSelected sel s) = markersRef s.
Proof.
  unfold setSelected. by repeat case_match.
Qed.

(** What the selection effect leaves in the store. *)
Lemma setSelected_lookup sel s h m' :
  store (setSelected sel s) !! h = Some m' →
  ∃ m, store s !! h = Some m ∧ onMap m' = onMap m ∧
       updateContent m' = updateContent m ∧
       (((∀ x, markersRef s !! x ≠ Some h) ∧ m' = m) ∨
        ∃ k, markersRef s !! k = Some h ∧
             content m' = createMarkerContent (updateContent m)
                                              (bool_decide (Some k = sel))).
Proof.
  rewrite (proj1 (setSelected_frame sel s)). unfold restyleMarkers.
  cbn [store withStore]. intros Hm'.
  apply restyle_lookup in Hm' as (m & Hm & _ & Hon & Huc & Hc).
  exists m. repeat split; auto.
  destruct Hc as [[Hnin ->]|(k & Hk & Hc)].
  - left. split; [|done]. intros x Hx. apply Hnin, registered_handle. eauto.
  - right. exists k. split; [by apply elem_of_map_to_list|done].
Qed.

Lemma setSelected_selected_key sel s h :
  highlightsHeld s → displayedSelected (setSelected sel s) h →
  ∃ k, sel = Some k ∧ markersRef s !! k = Some h.
Proof.
  intros Hheld (m' & Hm' & Hon & Hsel).
  apply setSelected_lookup in Hm' as (m & Hm & Hon' & _ & Hc).
  destruct Hc as [[Hnone ->]|(k & Hk & Hc)].
  - destruct (Hheld h) as [x Hx]; [by exists m|]. by destruct (Hnone x).
  - rewrite Hc, selectedStyle_createMarkerContent in Hsel.
    apply bool_decide_eq_true in Hsel. eauto.
Qed.

Lemma setSelected_held sel s :
  highlightsHeld s → highlightsHeld (setSelected sel s).
Proof.
  intros Hheld h Hh. rewrite (proj2 (setSelected_frame sel s)).
  destruct (setSelected_selected_key sel s h Hheld Hh) as (k & _ & Hk). eauto.
Qed.

Lemma setSelected_at_most_one sel s h1 h2 :
  highlightsHeld s →
  displayedSelected (setSelected sel s) h1 →
  displayedSelected (setSelected sel s) h2 → h1 = h2.
Proof.
  intros Hheld H1 H2.
  destruct (setSelected_selected_key sel s h1 Hheld H1) as (k1 & -> & Hk1).
  destruct (setSelected_selected_key _ s h2 Hheld H2) as (k2 & [= <-] & Hk2).
  congruence.
Qed.

(** A reconciliation leaves no marker in the selected style on the map. *)
Lemma reconcile_none_selected R s g h :
  mapInstanceRef s = Some g → highlightsHeld s →
  ¬ displayedSelected (reconcile R s) h.
Proof.
  intros Hg Hheld (m & Hm & Hon & Hsel).
  destruct (decide (h < length (store s))%nat) as [Hlt|Hge].
  - rewrite (reconcile_old_marker R s g h Hg Hlt) in Hm.
    case_decide as Hreg.
    + destruct (store s !! h) as [m0|]; simplify_eq/=.
    + apply Hreg, registered_handle, Hheld. by exists m.
  - rewrite (reconcile_store R s g Hg) in Hm.
    rewrite lookup_app_r in Hm by (rewrite clearMarkers_length; lia).
    rewrite list_lookup_fmap in Hm.
    destruct (R !! _) as [d|]; [|done]. injection Hm as <-.
    cbn [newMarker content] in Hsel.
    by rewrite selectedStyle_createMarkerContent in Hsel.
Qed.

Lemma mount_selectionInv : selectionInv mount.
Proof.
  split.
  - intros h (m & Hm & _). by destruct h.
  - intros h1 h2 (m & Hm & _). by destruct h1.
Qed.

Lemma step_selectionInv s (e : Event) :
  selectionInv s → selectionInv (step s e).
Proof.
  intros [Hheld Hone]. destruct e as [|R|sel|z]; cbn [step].
  - by destruct (mapInstanceRef s).
  - destruct (mapInstanceRef s) as [g|] eqn:Hg.
    + split.
      * intros h Hh. by destruct (reconcile_none_selected R s g h Hg Hheld).
      * intros h1 h2 Hh. by destruct (reconcile_none_selected R s g h1 Hg Hheld).
    + by rewrite reconcile_unloaded.
  - split; [by apply setSelected_held|].
    intros h1 h2. by apply setSelected_at_most_one.
  - done.
Qed.

Lemma run_selectionInv (es : list Event) : ∀ s,
  selectionInv s → selectionInv (run es s).
Proof.
  induction es as [|e es IH]; intros s Hs; [done|].
  apply IH, step_selectionInv, Hs.
Qed.

Lemma scenarioB_selected : displayedSelected (run scenarioB mount) 1.
Proof. eexists. vm_compute. repeat split. Qed.

(** C5.  Whatever renders, reconciliations, selection changes and map
    events the component has gone through since it was mounted, and so
    after any sequence of [setSelected] calls, at most one marker on the
    map is in the selected style. *)
Theorem selection_exclusive (es : list Event) h1 h2 :
  displayedSelected (run es mount) h1 →
  displayedSelected (run es mount) h2 →
  h1 = h2.
Proof.
  destruct (run_selectionInv es mount mount_selectionInv) as [_ Hone].
  apply Hone.
Qed.

Lemma selection_exclusive_witness :
  displayedSelected (run scenarioB mount) 1 ∧
  ∀ h, displayedSelected (run scenarioB mount) h → h = 1%nat.
Proof.
  split; [exact scenarioB_selected|].
  intros h Hh.
  exact (selection_exclusive scenarioB h 1 Hh scenarioB_selected).
Defined.

(** C6.  In any state the component can reach, selecting an id that has
    no live marker leaves no marker on the map in the selected style:
    every registered marker, the previously selected one included, gets
    the unselected visual of its record.  The live marker set is
    unchanged and the map receives no call, so no pan. *)
Theorem setSelected_absent (es : list Event) x :
  let s := run es mount in
  markersRef s !! x = None →
  let s' := setSelected (Some x) s in
  (∀ h, ¬ displayedSelected s' h) ∧
  (∀ y h m, markersRef s' !! y = Some h → store s' !! h = Some m →
     content m = createMarkerContent (updateContent m) false) ∧
  liveIds s' = liveIds s ∧
  mapInstanceRef s' = mapInstanceRef s.
Proof.
  intros s Hx s'.
  destruct (run_selectionInv es mount mount_selectionInv) as [Hheld _].
  fold s in Hheld. split; [|split; [|split]].
  - intros h Hh.
    destruct (setSelected_selected_key (Some x) s h Hheld Hh)
      as (k & [= <-] & Hk).
    congruence.
  - intros y h m Hy Hm. subst s'.
    rewrite (proj2 (setSelected_frame _ s)) in Hy.
    apply setSelected_lookup in Hm as (m0 & _ & _ & Huc & Hc).
    destruct Hc as [[Hnone _]|(k & Hk & Hc)]; [by destruct (Hnone y)|].
    rewrite Hc, Huc. f_equal. apply bool_decide_eq_false_2.
    intros [= ->]. congruence.
  - unfold liveIds, s'. by rewrite (proj2 (setSelected_frame _ s)).
  - unfold s', setSelected. destruct (truthy (Some x)); [|done].
    cbn [mbind option_bind]. unfold restyleMarkers at 1.
    cbn [markersRef withStore]. by rewrite Hx.
Qed.

Lemma setSelected_absent_witness :
  markersRef (run scenarioB mount) !! "c" = None ∧
  displayedSelected (run scenarioB mount) 1 ∧
  (∀ h, ¬ displayedSelected (setSelected (Some "c") (run scenarioB mount)) h) ∧
  mapCalls (setSelected (Some "c") (run scenarioB mount)) =
    mapCalls (run scenarioB mount).
Proof.
  split; [reflexivity|]. split; [exact scenarioB_selected|].
  destruct (setSelected_absent scenarioB "c" eq_refl) as (Hnone & _ & _ & Hmap).
  split; [exact Hnone|]. unfold mapCalls. by rewrite Hmap.
Defined.

End Selection.

(** ** Dive logs in Firestore *)

Section DiveLogs.
Import Firestore.

Example recent_two :
  ∃ l, getRecentDiveLogs (Some 2) sampleBackend = Ok l ∧
       id <$> l = ["d3"; "d2"] ∧ createdAt <$> l = [3000; 2000].
Proof. eexists. vm_compute. auto. Qed.

Example recent_offline :
  getRecentDiveLogs None (offline sampleBackend) = Ok [] ∧
  getDiveLogs None (offline sampleBackend) = Throw "unavailable".
Proof. vm_compute. auto. Qed.

#[local] Instance newerFirst_trans : Transitive newerFirst.
Proof. intros a b c. unfold newerFirst. lia. Qed.

#[local] Instance newerFirst_total : Total newerFirst.
Proof. intros a b. unfold newerFirst. lia. Qed.

Lemma getDocs_sorted (q : Query) (be : Backend) snapshot :
  getDocs q be = Ok snapshot →
  StronglySorted newerFirst snapshot ∧
  Forall (λ d, is_Some (fs_createdAt d.2)) snapshot.
Proof.
  unfold getDocs. destruct (firestoreError be); [done|]. intros [= <-].
  split; [apply StronglySorted_merge_sort; apply _|].
  apply Forall_forall. intros d Hd.
  rewrite merge_sort_Permutation in Hd.
  apply list_elem_of_filter in Hd as [Hm _]. unfold matches in Hm.
  apply andb_true_iff in Hm as [Hm _]. by apply bool_decide_eq_true in Hm.
Qed.

Lemma convert_createdAt (clock : Z) (d : string * FirestoreDiveLog) :
  is_Some (fs_createdAt d.2) →
  createdAt (convertFirestoreDiveLog clock d.1 d.2) = createdNanos d / 1000000.
Proof.
  intros [t Ht]. unfold convertFirestoreDiveLog, createdNanos, dateOr.
  cbn [createdAt]. by rewrite Ht.
Qed.

Lemma convert_sorted (clock : Z) (snapshot : list (string * FirestoreDiveLog)) :
  StronglySorted newerFirst snapshot →
  Forall (λ d, is_Some (fs_createdAt d.2)) snapshot →
  StronglySorted (λ a b : DiveLog, createdAt b ≤ createdAt a)
    ((λ d, convertFirestoreDiveLog clock d.1 d.2) <$> snapshot).
Proof.
  induction 1 as [|d snapshot Hs IH Hd]; intros Hall; csimpl; constructor.
  - apply IH. by eapply Forall_cons_1.
  - apply Forall_cons_1 in Hall as [Hd1 Hall].
    rewrite Forall_fmap. rewrite Forall_forall in Hd, Hall.
    apply Forall_forall. intros d' Hin. cbn [compose].
    rewrite !convert_createdAt by auto.
    apply Z.div_le_mono; [lia|]. by apply Hd.
Qed.

Lemma slice0_sorted {A} (R : relation A) (n : Z) (l : list A) :
  StronglySorted R l → StronglySorted R (slice0 n l).
Proof.
  unfold slice0. intros Hl.
  rewrite <- (take_drop (Z.to_nat
    (if n <? 0 then Z.max (Z.of_nat (length l) + n) 0
     else Z.min n (Z.of_nat (length l)))) l) in Hl.
  by apply StronglySorted_app_1_l in Hl.
Qed.

Lemma slice0_length {A} (n : Z) (l : list A) :
  0 ≤ n → Z.of_nat (length (slice0 n l)) ≤ n.
Proof.
  intros Hn. unfold slice0. rewrite length_take.
  destruct (Z.ltb_spec n 0); lia.
Qed.

(** C9.  [getRecentDiveLogs] never throws.  When the query fails it
    returns the empty list, where [getDiveLogs] rethrows the error.  When
    the query succeeds it returns the first records, up to the position
    [limitCount] (50 when not given), of what [getDiveLogs] returns for
    all users, ordered by creation time, newest first: at most
    [limitCount] records, for every limit that is a number of records,
    that is, not negative. *)
Theorem getRecentDiveLogs_spec (limitCount : option Z) (be : Backend) :
  let limit := default 50 limitCount in
  (∃ l, getRecentDiveLogs limitCount be = Ok l) ∧
  (∀ e, firestoreError be = Some e →
     getRecentDiveLogs limitCount be = Ok [] ∧
     ∀ userId, getDiveLogs userId be = Throw e) ∧
  (firestoreError be = None →
     ∃ all, getDiveLogs None be = Ok all ∧
            getRecentDiveLogs limitCount be = Ok (slice0 limit all) ∧
            StronglySorted (λ a b : DiveLog, createdAt b ≤ createdAt a)
                           (slice0 limit all) ∧
            (0 ≤ limit → Z.of_nat (length (slice0 limit all)) ≤ limit)).
Proof.
  intros limit. split; [|split].
  - unfold getRecentDiveLogs. destruct (getDocs _ be); [|by eauto].
    case_bool_decide; eauto.
  - intros e He. unfold getRecentDiveLogs, getDiveLogs, getDocs.
    rewrite He. split; [done|]. intros u. by destruct (truthy u).
  - intros Hup. unfold getRecentDiveLogs, getDiveLogs. cbn [truthy].
    destruct (getDocs {| whereUserId := None |} be) as [snapshot|e] eqn:Hq.
    2: { unfold getDocs in Hq. by rewrite Hup in Hq. }
    eexists. split; [done|].
    destruct (getDocs_sorted _ _ _ Hq) as [Hsorted Hall].
    split; [|split].
    + fold limit. case_bool_decide as Hnil; [|done]. subst snapshot.
      unfold slice0. by rewrite fmap_nil, take_nil.
    + by apply slice0_sorted, convert_sorted.
    + apply slice0_length.
Qed.

Lemma getRecentDiveLogs_spec_witness :
  0 ≤ 2 ∧
  ∃ l, getRecentDiveLogs (Some 2) sampleBackend = Ok l ∧
       Z.of_nat (length l) ≤ 2 ∧
       StronglySorted (λ a b : DiveLog, createdAt b ≤ createdAt a) l.
Proof.
  assert (Hlimit : 0 ≤ 2) by lia.
  split; [exact Hlimit|].
  destruct (proj2 (proj2 (getRecentDiveLogs_spec (Some 2) sampleBackend))
              eq_refl) as (all & _ & Hr & Hsorted & Hlen).
  eexists. split; [exact Hr|]. split; [exact (Hlen Hlimit)|exact Hsorted].
Defined.

(** A negative limit is not a number of records: [slice(0, -1)] keeps all
    records but the last one. *)
Example recent_negative_limit :
  ∃ l, getRecentDiveLogs (Some (-1)) sampleBackend = Ok l ∧ length l = 2%nat.
Proof. eexists. split; [vm_compute; reflexivity|]. reflexivity. Qed.

(** *** Deletion *)

Import Storage.

Lemma deletePhotos_ok (ids : list string) : ∀ be,
  NoDup (photoPath <$> ids) →
  (∀ p, p ∈ photoPath <$> ids → p ∈ blobs be ∧ p ∉ denied be) →
  let be' := (deletePhotos ids be).2 in
  (deletePhotos ids be).1 = Ok tt ∧
  docs be' = docs be ∧
  blobs be' = blobs be ∖ list_to_set (photoPath <$> ids) ∧
  firestoreError be' = firestoreError be ∧
  log be' = log be ++ (DeletedObject <$> (photoPath <$> ids)).
Proof.
  induction ids as [|i ids IH]; intros be Hdup Hin; cbn [deletePhotos].
  - cbn. rewrite app_nil_r, difference_empty_L. done.
  - rewrite fmap_cons in Hdup, Hin.
    apply NoDup_cons in Hdup as [Hfresh Hdup].
    destruct (Hin (photoPath i)) as [Hblob Hden]; [apply list_elem_of_here|].
    unfold Storage.deletePhoto, deleteObject.
    rewrite bool_decide_eq_false_2 by done.
    rewrite bool_decide_eq_true_2 by done.
    set (be1 := {| docs := docs be; blobs := blobs be ∖ {[photoPath i]};
                   firestoreError := firestoreError be; denied := denied be;
                   auth := auth be; now := now be;
                   log := log be ++ [DeletedObject (photoPath i)] |}).
    destruct (IH be1 Hdup) as (Hr & Hdocs & Hblobs & Herr & Hlog).
    { intros p Hp. destruct (Hin p) as [? ?]; [by apply list_elem_of_further|].
      split; [|done]. cbn. apply elem_of_difference. split; [done|].
      intros ->%elem_of_singleton. done. }
    destruct (deletePhotos ids be1) as [r be2]. cbn [fst snd] in *.
    rewrite Hr, Hdocs, Hblobs, Herr, Hlog. cbn.
    repeat split; auto.
    + apply set_eq. intros p. set_unfold. tauto.
    + by rewrite <- app_assoc.
Qed.

(** Whatever the services do: when all deletions succeeded, every object
    was there, is gone, and was logged, in order. *)
Lemma deletePhotos_ok_inv (ids : list string) : ∀ be,
  (deletePhotos ids be).1 = Ok tt →
  let be' := (deletePhotos ids be).2 in
  docs be' = docs be ∧
  blobs be' = blobs be ∖ list_to_set (photoPath <$> ids) ∧
  firestoreError be' = firestoreError be ∧
  log be' = log be ++ (DeletedObject <$> (photoPath <$> ids)).
Proof.
  induction ids as [|i ids IH]; intros be; cbn [deletePhotos].
  - intros _. cbn. by rewrite app_nil_r, difference_empty_L.
  - unfold deletePhoto, deleteObject.
    case_bool_decide as Hden.
    { destruct (deletePhotos ids be); cbn. discriminate. }
    case_bool_decide as Hblob.
    2: { destruct (deletePhotos ids be); cbn. discriminate. }
    set (be1 := {| docs := docs be; blobs := blobs be ∖ {[photoPath i]};
                   firestoreError := firestoreError be; denied := denied be;
                   auth := auth be; now := now be;
                   log := log be ++ [DeletedObject (photoPath i)] |}).
    specialize (IH be1).
    destruct (deletePhotos ids be1) as [r be2]. cbn [fst snd] in *.
    intros Hr. destruct (IH Hr) as (Hdocs & Hblobs & Herr & Hlog).
    rewrite Hdocs, Hblobs, Herr, Hlog. cbn. repeat split; auto.
    + apply set_eq. intros p. set_unfold. tauto.
    + by rewrite <- app_assoc.
Qed.

Lemma deletePhotos_keeps_docs (ids : list string) : ∀ be,
  docs (deletePhotos ids be).2 = docs be.
Proof.
  induction ids as [|i ids IH]; intros be; cbn [deletePhotos]; [done|].
  unfold deletePhoto, deleteObject.
  repeat case_bool_decide;
    match goal with |- context [deletePhotos ids ?b] =>
      specialize (IH b); destruct (deletePhotos ids b) end; done.
Qed.


Lemma deletePhotos_keeps_auth (ids : list string) : ∀ be,
  auth (deletePhotos ids be).2 = auth be.
Proof.
  induction ids as [|i ids IH]; intros be; cbn [deletePhotos]; [done|].
  unfold deletePhoto, deleteObject.
  repeat case_bool_decide;
    match goal with |- context [deletePhotos ids ?b] =>
      specialize (IH b); destruct (deletePhotos ids b) end; done.
Qed.

(** The rules let the signed-in user delete a dive log exactly when the
    document exists and names that user. *)
Lemma permitted_delete (docId : string) (be : Backend) :
  permitted FirestoreRules.Delete docId None be = true ↔
  ∃ data, docs be !! docId = Some data ∧ auth be = Some (fs_userId data).
Proof.
  unfold permitted, FirestoreRules.allowed, FirestoreRules.diveLogs,
    FirestoreRules.signedInAs.
  cbn [FirestoreRules.collection FirestoreRules.operation
       FirestoreRules.auth_uid FirestoreRules.stored_userId].
  rewrite bool_decide_eq_false_2 by discriminate.
  rewrite bool_decide_eq_true_2 by done.
  destruct (auth be) as [uid|], (docs be !! docId) as [data|]; cbn.
  - rewrite bool_decide_eq_true. split; [intros ->; eauto|].
    by intros (? & [= <-] & [= ->]).
  - split; [done|]. by intros (? & ? & _).
  - split; [done|]. by intros (? & _ & ?).
  - split; [done|]. by intros (? & ? & _).
Qed.

(** The rules let everyone read a dive log, which is why [getDoc] and
    [getDocs] do not ask. *)
Lemma permitted_read (docId : string) incoming (be : Backend) :
  permitted FirestoreRules.Read docId incoming be = true.
Proof.
  unfold permitted, FirestoreRules.allowed, FirestoreRules.diveLogs.
  cbn [FirestoreRules.collection FirestoreRules.operation].
  rewrite bool_decide_eq_false_2 by discriminate.
  by rewrite bool_decide_eq_true_2.
Qed.

Lemma permitted_same op (docId : string) incoming (be be' : Backend) :
  docs be' = docs be → auth be' = auth be →
  permitted op docId incoming be' = permitted op docId incoming be.
Proof. unfold permitted. by intros -> ->. Qed.

Lemma deleteDoc_throw (docId e : string) (be : Backend) :
  (deleteDoc docId be).1 = Throw e → (deleteDoc docId be).2 = be.
Proof.
  unfold deleteDoc. destruct (firestoreError be); [done|].
  by destruct (permitted _ _ _ _).
Qed.

Lemma deleteDoc_ok_inv (docId : string) (be : Backend) :
  (deleteDoc docId be).1 = Ok tt →
  firestoreError be = None ∧
  permitted FirestoreRules.Delete docId None be = true ∧
  docs (deleteDoc docId be).2 = delete docId (docs be) ∧
  blobs (deleteDoc docId be).2 = blobs be ∧
  firestoreError (deleteDoc docId be).2 = None ∧
  log (deleteDoc docId be).2 = log be ++ [DeletedDoc docId].
Proof.
  unfold deleteDoc. destruct (firestoreError be) eqn:Herr; [done|].
  by destruct (permitted _ _ _ _).
Qed.

Lemma deleteDoc_ok (docId : string) (data : FirestoreDiveLog) (be : Backend) :
  firestoreError be = None → docs be !! docId = Some data →
  auth be = Some (fs_userId data) →
  (deleteDoc docId be).1 = Ok tt.
Proof.
  intros Herr Hdoc Hauth. unfold deleteDoc. rewrite Herr.
  by rewrite (proj2 (permitted_delete docId be)) by eauto.
Qed.

(** A failed [deleteDiveLog] leaves the document in place. *)
Lemma deleteDiveLog_throw_keeps_doc (docId e : string) (be : Backend) :
  (deleteDiveLog docId be).1 = Throw e →
  docs (deleteDiveLog docId be).2 = docs be.
Proof.
  unfold deleteDiveLog, getDiveLog, getDoc.
  destruct (firestoreError be) eqn:Herr; [done|].
  destruct (docs be !! docId) as [data|]; cbn.
  2: { intros Hthrow. by rewrite (deleteDoc_throw _ _ _ Hthrow). }
  case_bool_decide.
  - pose proof (deletePhotos_keeps_docs
      (photo_id <$> photos (convertFirestoreDiveLog (now be) docId data)) be) as Hk.
    destruct (deletePhotos _ be) as [[[]|e'] be1]; cbn in *; [|done].
    intros Hthrow. by rewrite (deleteDoc_throw _ _ _ Hthrow).
  - intros Hthrow. by rewrite (deleteDoc_throw _ _ _ Hthrow).
Qed.

Lemma convert_photo_ids (clock : Z) (data : FirestoreDiveLog) :
  photo_id <$> default [] (map (convertFirestorePhoto clock) <$> fs_photos data)
  = fp_id <$> default [] (fs_photos data).
Proof.
  destruct (fs_photos data) as [ps|]; [|done]. cbn.
  rewrite <- list_fmap_compose. by apply list_fmap_ext.
Qed.

(** Whenever [deleteDiveLog] succeeds on an existing record, no object of
    a photo of the record is left, and all were deleted before the
    document. *)
Lemma deleteDiveLog_ok_inv (docId : string) (data : FirestoreDiveLog)
    (be : Backend) :
  let paths := photoPath <$> (fp_id <$> default [] (fs_photos data)) in
  docs be !! docId = Some data →
  (deleteDiveLog docId be).1 = Ok tt →
  let be' := (deleteDiveLog docId be).2 in
  docs be' = delete docId (docs be) ∧
  blobs be' = blobs be ∖ list_to_set paths ∧
  log be' = log be ++ (DeletedObject <$> paths) ++ [DeletedDoc docId].
Proof.
  intros paths Hdoc. unfold deleteDiveLog, getDiveLog, getDoc.
  destruct (firestoreError be) eqn:Hup; [done|]. rewrite Hdoc.
  cbn [photos convertFirestoreDiveLog].
  case_bool_decide as Hlen.
  - rewrite convert_photo_ids.
    pose proof (deletePhotos_ok_inv (fp_id <$> default [] (fs_photos data)) be)
      as Hinv.
    destruct (deletePhotos _ be) as [[[]|e'] be1]; cbn [fst snd] in *; [|done].
    destruct (Hinv eq_refl) as (Hdocs & Hblobs & Herr & Hlog).
    intros Hok. destruct (deleteDoc_ok_inv docId be1 Hok)
      as (_ & _ & Hd & Hb & _ & Hl).
    rewrite Hd, Hb, Hl, Hdocs, Hblobs, Hlog. by rewrite <- app_assoc.
  - assert (Hnil : paths = []).
    { unfold paths. rewrite <- (convert_photo_ids (now be)).
      destruct (default [] (map _ <$> _)) as [|? ?]; [done|].
      cbn in Hlen. lia. }
    intros Hok. destruct (deleteDoc_ok_inv docId be Hok)
      as (_ & _ & Hd & Hb & _ & Hl).
    rewrite Hd, Hb, Hl, Hnil. cbn. by rewrite difference_empty_L.
Qed.

Example delete_missing_object :
  let be := {| docs := docs sampleBackend;
               blobs := {[ "dive-photos/u2/2.jpg" ]};
               firestoreError := None; denied := ∅; auth := Some "u2";
               now := 5000; log := [] |} in
  (deleteDiveLog "d2" be).1 = Throw "Failed to delete photo" ∧
  log (deleteDiveLog "d2" be).2 = [DeletedObject "dive-photos/u2/2.jpg"] ∧
  is_Some (docs (deleteDiveLog "d2" be).2 !! "d2").
Proof. vm_compute. eauto. Qed.

Lemma deleteDiveLog_succeeds (docId : string) (data : FirestoreDiveLog)
    (be : Backend) :
  let paths := photoPath <$> (fp_id <$> default [] (fs_photos data)) in
  docs be !! docId = Some data → firestoreError be = None →
  auth be = Some (fs_userId data) →
  NoDup paths → (∀ p, p ∈ paths → p ∈ blobs be ∧ p ∉ denied be) →
  (deleteDiveLog docId be).1 = Ok tt.
Proof.
  intros paths Hdoc Hup Hauth Hdup Hin.
  unfold deleteDiveLog, getDiveLog, getDoc. rewrite Hup, Hdoc.
  cbn [photos convertFirestoreDiveLog]. rewrite convert_photo_ids.
  case_bool_decide.
  - destruct (deletePhotos_ok _ be Hdup Hin) as (Hr & Hdocs & _ & Herr & _).
    pose proof (deletePhotos_keeps_auth
                  (fp_id <$> default [] (fs_photos data)) be) as Ha.
    destruct (deletePhotos _ be) as [r be1]. cbn [fst snd] in *.
    rewrite Hr. apply deleteDoc_ok with data; congruence.
  - by apply deleteDoc_ok with data.
Qed.

(** C8, amended.  For a dive log that exists, when the services do their
    part (Firestore answers, the signed-in user is the owner of the
    record, so that the rules allow the delete, and each photo of the
    record has its own object in storage that may be deleted),
    [deleteDiveLog] succeeds, deletes the object of every photo of the
    record and then the document, in that order, and touches nothing
    else; for a record without photos only the document is deleted. *)
Theorem deleteDiveLog_cascade (docId : string) (data : FirestoreDiveLog)
    (be : Backend) :
  let paths := photoPath <$> (fp_id <$> default [] (fs_photos data)) in
  docs be !! docId = Some data →
  firestoreError be = None →
  auth be = Some (fs_userId data) →
  NoDup paths →
  (∀ p, p ∈ paths → p ∈ blobs be ∧ p ∉ denied be) →
  let be' := (deleteDiveLog docId be).2 in
  (deleteDiveLog docId be).1 = Ok tt ∧
  docs be' = delete docId (docs be) ∧
  blobs be' = blobs be ∖ list_to_set paths ∧
  log be' = log be ++ (DeletedObject <$> paths) ++ [DeletedDoc docId] ∧
  (paths = [] → blobs be' = blobs be ∧ log be' = log be ++ [DeletedDoc docId]).
Proof.
  intros paths Hdoc Hup Hauth Hdup Hin be'.
  pose proof (deleteDiveLog_succeeds docId data be Hdoc Hup Hauth Hdup Hin)
    as Hok.
  destruct (deleteDiveLog_ok_inv docId data be Hdoc Hok) as (H2 & H3 & H4).
  fold paths be' in H2, H3, H4.
  split; [done|]. split; [done|]. split; [done|]. split; [done|].
  intros Hnil. rewrite H3, H4, Hnil. cbn. by rewrite difference_empty_L.
Qed.

Lemma deleteDiveLog_cascade_witness :
  docs (signedIn "u2" sampleBackend) !! "d2" =
    Some (fsDive "u2" 2000000000 [fsPhoto "u2/1.jpg"; fsPhoto "u2/2.jpg"]) ∧
  (deleteDiveLog "d2" (signedIn "u2" sampleBackend)).1 = Ok tt ∧
  blobs (deleteDiveLog "d2" (signedIn "u2" sampleBackend)).2
    = {[ "dive-photos/u1/1.jpg" ]} ∧
  log (deleteDiveLog "d2" (signedIn "u2" sampleBackend)).2 =
    [DeletedObject "dive-photos/u2/1.jpg";
     DeletedObject "dive-photos/u2/2.jpg"; DeletedDoc "d2"].
Proof.
  split; [reflexivity|].
  destruct (deleteDiveLog_cascade "d2"
              (fsDive "u2" 2000000000 [fsPhoto "u2/1.jpg"; fsPhoto "u2/2.jpg"])
              (signedIn "u2" sampleBackend)) as (Hr & _ & Hb & Hl & _).
  - reflexivity.
  - reflexivity.
  - reflexivity.
  - apply (bool_decide_unpack _). vm_compute. exact I.
  - intros p Hp. split.
    + repeat (apply elem_of_cons in Hp as [->|Hp]);
        [apply (bool_decide_unpack _); vm_compute; exact I ..|].
      by apply elem_of_nil in Hp.
    + apply not_elem_of_empty.
  - split; [exact Hr|]. split; [|exact Hl].
    rewrite Hb. apply (bool_decide_unpack _). vm_compute. exact I.
Defined.

(** C8 as stated fails when the storage service refuses the deletion of
    an object: [deleteDiveLog] throws, the object of the photo is still
    stored, and so is the document. *)
Lemma deleteDiveLog_cascade_counterexample :
  docs refusingBackend !! "d2" =
    Some (fsDive "u2" 2000000000 [fsPhoto "u2/1.jpg"; fsPhoto "u2/2.jpg"]) ∧
  auth refusingBackend = Some "u2" ∧
  (deleteDiveLog "d2" refusingBackend).1 = Throw "Failed to delete photo" ∧
  photoPath (fp_id (fsPhoto "u2/1.jpg"))
    ∈ blobs (deleteDiveLog "d2" refusingBackend).2 ∧
  is_Some (docs (deleteDiveLog "d2" refusingBackend).2 !! "d2").
Proof.
  split; [reflexivity|]. split; [reflexivity|]. split; [reflexivity|].
  split; [apply (bool_decide_unpack _); vm_compute; exact I|].
  vm_compute. eauto.
Qed.

End DiveLogs.

(** ** The markers over the life of the component *)

Section MarkerLifecycle.
Implicit Types (s : State) (R : list DiveLog) (h : nat) (x : string)
  (sel : option string).

Lemma foldl_alter_kv_length (F : string * nat → Marker → Marker)
    (l : list (string * nat)) : ∀ (st : list Marker),
  length (foldl (λ st kv, alter (F kv) kv.2 st) st l) = length st.
Proof.
  induction l as [|a l IH]; intros st; simpl; [done|].
  by rewrite IH, length_alter.
Qed.

Lemma setSelected_length sel s :
  length (store (setSelected sel s)) = length (store s).
Proof.
  rewrite (proj1 (setSelected_frame sel s)).
  unfold restyleMarkers; cbn [store withStore].
  apply (foldl_alter_kv_length
    (λ kv m, setContent (createMarkerContent (updateContent m)
                           (bool_decide (Some kv.1 = sel))) m)).
Qed.

(** A marker that is on the map and not registered stays so: no later
    event reaches it. *)
Lemma step_orphan s (e : Event) h :
  displayed s h → (∀ x, markersRef s !! x ≠ Some h) →
  displayed (step s e) h ∧ ∀ x, markersRef (step s e) !! x ≠ Some h.
Proof.
  intros (m & Hm & Hon) Hfree. destruct e as [|R|sel|z]; cbn [step].
  - destruct (mapInstanceRef s); split; try done; by exists m.
  - destruct (mapInstanceRef s) as [g|] eqn:Hg.
    2: { rewrite reconcile_unloaded by done. split; [by exists m|done]. }
    pose proof (lookup_lt_Some _ _ _ Hm) as Hlt. split.
    + exists m. split; [|done].
      rewrite (reconcile_old_marker R s g h Hg Hlt).
      rewrite decide_False; [done|].
      intros [x Hx]%registered_handle. by destruct (Hfree x).
    + intros x Hx.
      destruct (reconcile_registered R s g x h Hg Hx) as (i & _ & -> & _). lia.
  - rewrite (proj2 (setSelected_frame sel s)). split; [|done].
    assert (is_Some (store (setSelected sel s) !! h)) as [m' Hm'].
    { apply lookup_lt_is_Some. rewrite setSelected_length.
      by eapply lookup_lt_Some. }
    exists m'. split; [done|].
    apply setSelected_lookup in Hm' as (m0 & Hm0 & Hon' & _).
    congruence.
  - split; [by exists m|done].
Qed.

Lemma run_orphan (es : list Event) : ∀ s h,
  displayed s h → (∀ x, markersRef s !! x ≠ Some h) →
  displayed (run es s) h ∧ ∀ x, markersRef (run es s) !! x ≠ Some h.
Proof.
  induction es as [|e es IH]; intros s h Hd Hf; [done|].
  cbn [run foldl]. destruct (step_orphan s e h Hd Hf). by apply IH.
Qed.

(** X1.  When a list handed to a loaded map repeats an id, the marker made
    for the earlier of the two records is on the map without being
    registered, and it stays on the map whatever the component does
    afterwards: no reconciliation or selection ever reaches it. *)
Theorem reconcile_duplicate_orphan R s g (i j : nat) (d1 d2 : DiveLog)
    (es : list Event) :
  mapInstanceRef s = Some g →
  (i < j)%nat → R !! i = Some d1 → R !! j = Some d2 → id d1 = id d2 →
  let h := (length (store s) + i)%nat in
  store (reconcile R s) !! h = Some (newMarker d1) ∧
  (∀ x, markersRef (reconcile R s) !! x ≠ Some h) ∧
  displayed (run es (reconcile R s)) h ∧
  ¬ tracked (run es (reconcile R s)).
Proof.
  intros Hg Hij Hi Hj Hid h.
  pose proof (reconcile_new_marker R s g i d1 Hg Hi) as Hm. fold h in Hm.
  assert (Hfree : ∀ x, markersRef (reconcile R s) !! x ≠ Some h).
  { intros x Hx.
    destruct (reconcile_registered R s g x h Hg Hx) as (i' & d' & Hh & Hi' & Hx' & _).
    assert (i' = i) as -> by (unfold h in Hh; lia).
    assert (d' = d1) as -> by congruence.
    apply (reconcile_later_wins R s g x i Hg Hx j d2 Hij Hj). congruence. }
  assert (Hdisp : displayed (reconcile R s) h) by (by exists (newMarker d1)).
  destruct (run_orphan es _ h Hdisp Hfree) as [Hd' Hf'].
  repeat split; auto.
  intros Htr. destruct (Htr h Hd') as [x Hx]. by destruct (Hf' x).
Qed.

Lemma reconcile_duplicate_orphan_witness :
  mapInstanceRef loaded = Some newMap ∧
  displayed (run [DiveLogsChanged []; SelectedChanged (Some "a")]
                 (reconcile [diveA; diveB; diveA] loaded)) 0 ∧
  liveIds (run [DiveLogsChanged []; SelectedChanged (Some "a")]
               (reconcile [diveA; diveB; diveA] loaded)) = ∅.
Proof.
  split; [reflexivity|]. split; [|reflexivity].
  destruct (reconcile_duplicate_orphan [diveA; diveB; diveA] loaded newMap
              0 2 diveA diveA [DiveLogsChanged []; SelectedChanged (Some "a")]
              eq_refl ltac:(lia) eq_refl eq_refl eq_refl) as (_ & _ & Hd & _).
  exact Hd.
Defined.

(** X2.  On a loaded map the marker registered for an id is the one made
    for the last record of the list with that id. *)
Theorem reconcile_last_wins R s g (j : nat) (d : DiveLog) :
  mapInstanceRef s = Some g →
  R !! j = Some d →
  (∀ k d', (j < k)%nat → R !! k = Some d' → id d' ≠ id d) →
  markersRef (reconcile R s) !! id d = Some (length (store s) + j)%nat ∧
  store (reconcile R s) !! (length (store s) + j)%nat = Some (newMarker d).
Proof.
  intros Hg Hj Hlast. split; [|by apply reconcile_new_marker with g].
  destruct (reconcile_live_lookup R s g (id d) Hg) as [h Hh].
  { apply list_elem_of_fmap_2. by eapply list_elem_of_lookup_2. }
  destruct (reconcile_registered R s g _ h Hg Hh) as (i & d' & -> & Hi & Hid & _).
  destruct (Nat.lt_trichotomy i j) as [Hlt|[->|Hgt]]; [|done|].
  - by destruct (reconcile_later_wins R s g _ i Hg Hh j d Hlt Hj).
  - by destruct (Hlast i d' Hgt Hi).
Qed.

Lemma reconcile_last_wins_witness :
  mapInstanceRef loaded = Some newMap ∧
  markersRef (reconcile [diveA; diveB; diveA] loaded) !! "a" = Some 2%nat.
Proof.
  split; [reflexivity|].
  refine (proj1 (reconcile_last_wins [diveA; diveB; diveA] loaded newMap 2 diveA
                   eq_refl eq_refl _)).
  intros [|[|[|[|k]]]] d' Hk Hd'; try lia; discriminate.
Defined.

Lemma reconcile_handle_key R s g x y h :
  mapInstanceRef s = Some g →
  markersRef (reconcile R s) !! x = Some h →
  markersRef (reconcile R s) !! y = Some h → x = y.
Proof.
  intros Hg Hx Hy.
  destruct (reconcile_registered R s g x h Hg Hx) as (i & d & -> & Hi & <- & _).
  destruct (reconcile_registered R s g y _ Hg Hy) as (i' & d' & Hh & Hi' & <- & _).
  assert (i' = i) as -> by lia. congruence.
Qed.

(** X3.  On a loaded map, selecting an id that the reconciled list
    contains puts the marker registered for that id in the selected style,
    drawn from a record of the list with that id, and asks the map to pan
    to that record's coordinates: one call, a pan, no zoom. *)
Theorem setSelected_present R s g x :
  mapInstanceRef s = Some g → x ∈ id <$> R → x ≠ "" →
  let s1 := reconcile R s in
  let s2 := setSelected (Some x) s1 in
  ∃ h d m,
    markersRef s2 !! x = Some h ∧ d ∈ R ∧ id d = x ∧
    store s2 !! h = Some m ∧ onMap m = true ∧
    content m = createMarkerContent d true ∧
    position m = toLatLng (location d) ∧
    displayedSelected s2 h ∧
    mapCalls s2 = mapCalls s1 ++ [PanTo (toLatLng (location d))].
Proof.
  intros Hg Hin Hne s1 s2.
  destruct (reconcile_live_lookup R s g x Hg Hin) as [h Hh]. fold s1 in Hh.
  destruct (reconcile_registered_displayed R s g x h Hg Hh)
    as (d & Hd & Hid & Hm & _). fold s1 in Hm.
  destruct (reconcile_loaded R s g Hg) as [g1 Hg1]. fold s1 in Hg1.
  assert (is_Some (store s2 !! h)) as [m Hm2].
  { apply lookup_lt_is_Some. unfold s2. rewrite setSelected_length.
    by eapply lookup_lt_Some. }
  assert (Hframe := setSelected_frame (Some x) s1). fold s2 in Hframe.
  destruct Hframe as [Hst Hreg].
  assert (Hm2' := Hm2). rewrite Hst in Hm2'. unfold restyleMarkers in Hm2'.
  cbn [store withStore] in Hm2'.
  apply restyle_lookup in Hm2' as (m0 & Hm0 & Hpos & Hon & Huc & Hc).
  rewrite Hm in Hm0. injection Hm0 as <-.
  assert (Hcontent : content m = createMarkerContent d true).
  { destruct Hc as [[Hnin _]|(k & Hk & ->)].
    - destruct Hnin. apply registered_handle. eauto.
    - apply elem_of_map_to_list in Hk.
      rewrite (reconcile_handle_key R s g k x h Hg Hk Hh).
      by rewrite bool_decide_eq_true_2. }
  exists h, d, m. rewrite Hreg.
  split; [done|]. split; [done|]. split; [done|]. split; [done|].
  split; [by rewrite Hon|]. split; [done|]. split; [by rewrite Hpos|].
  split.
  - exists m. split; [done|]. split; [by rewrite Hon|].
    by rewrite Hcontent, selectedStyle_createMarkerContent.
  - unfold s2, setSelected. unfold truthy.
    rewrite bool_decide_eq_false_2 by done. cbn [negb mbind option_bind].
    assert (Hreg1 : markersRef (restyleMarkers (Some x) s1) !! x = Some h)
      by (unfold restyleMarkers; by cbn [markersRef withStore]).
    rewrite Hreg1. rewrite <- Hst, Hm2.
    assert (Hmap1 : mapInstanceRef (restyleMarkers (Some x) s1) = Some g1)
      by (unfold restyleMarkers; by cbn [mapInstanceRef withStore]).
    rewrite Hmap1. unfold mapCalls. cbn [mapInstanceRef withMap]. rewrite Hg1.
    cbn. by rewrite Hpos.
Qed.

Lemma setSelected_present_witness :
  mapInstanceRef loaded = Some newMap ∧ "b" ∈ id <$> [diveA; diveB] ∧ "b" ≠ "" ∧
  ∃ h, displayedSelected
         (setSelected (Some "b") (reconcile [diveA; diveB] loaded)) h.
Proof.
  assert (Hb : "b" ∈ id <$> [diveA; diveB])
    by (apply list_elem_of_further, list_elem_of_here).
  split; [reflexivity|]. split; [done|]. split; [discriminate|].
  destruct (setSelected_present [diveA; diveB] loaded newMap "b" eq_refl Hb
              ltac:(discriminate)) as (h & d & m & _ & _ & _ & _ & _ & _ & _ & Hsel & _).
  by exists h.
Defined.

(** X4.  In any state the component can reach, a selection change to
    "none" leaves no marker on the map in the selected style; it keeps the
    live marker set and asks nothing of the map. *)
Theorem setSelected_none (es : list Event) :
  let s := run es mount in
  let s' := setSelected None s in
  (∀ h, ¬ displayedSelected s' h) ∧
  liveIds s' = liveIds s ∧
  mapInstanceRef s' = mapInstanceRef s.
Proof.
  intros s s'.
  destruct (run_selectionInv es mount mount_selectionInv) as [Hheld _].
  fold s in Hheld. split; [|split].
  - intros h Hh.
    by destruct (setSelected_selected_key None s h Hheld Hh) as (k & ? & _).
  - unfold liveIds, s'. by rewrite (proj2 (setSelected_frame _ s)).
  - done.
Qed.

(** X5.  A selection change never adds, removes or moves a marker: the
    same marker objects are on the map before and after, at the same
    positions and for the same records, and the same ids are live. *)
Theorem setSelected_keeps_markers sel s :
  let s' := setSelected sel s in
  liveIds s' = liveIds s ∧
  length (store s') = length (store s) ∧
  (∀ h, displayed s' h ↔ displayed s h) ∧
  (∀ h m', store s' !! h = Some m' →
     ∃ m, store s !! h = Some m ∧ position m' = position m ∧
          updateContent m' = updateContent m).
Proof.
  intros s'.
  assert (Hlook : ∀ h m', store s' !! h = Some m' →
    ∃ m, store s !! h = Some m ∧ position m' = position m ∧
         onMap m' = onMap m ∧ updateContent m' = updateContent m).
  { intros h m' Hm'. unfold s' in Hm'.
    rewrite (proj1 (setSelected_frame sel s)) in Hm'.
    unfold restyleMarkers in Hm'. cbn [store withStore] in Hm'.
    apply restyle_lookup in Hm' as (m & Hm & Hpos & Hon & Huc & _). eauto 6. }
  split; [unfold liveIds, s'; by rewrite (proj2 (setSelected_frame _ s))|].
  split; [apply setSelected_length|]. split.
  - intros h. split.
    + intros (m' & Hm' & Hon).
      destruct (Hlook h m' Hm') as (m & Hm & _ & Hon' & _).
      exists m. split; [done|congruence].
    + intros (m & Hm & Hon).
      assert (is_Some (store s' !! h)) as [m' Hm'].
      { apply lookup_lt_is_Some. unfold s'. rewrite setSelected_length.
        by eapply lookup_lt_Some. }
      destruct (Hlook h m' Hm') as (m0 & Hm0 & _ & Hon' & _).
      exists m'. split; [done|congruence].
  - intros h m' Hm'. destruct (Hlook h m' Hm') as (m & ? & ? & _ & ?). eauto.
Qed.

Lemma setSelected_map_loaded sel s g :
  mapInstanceRef s = Some g → is_Some (mapInstanceRef (setSelected sel s)).
Proof.
  intros Hg. unfold setSelected, restyleMarkers.
  repeat case_match; cbn; rewrite ?Hg; eauto.
Qed.

Lemma setSelected_map_unloaded sel s :
  mapInstanceRef s = None → mapInstanceRef (setSelected sel s) = None.
Proof.
  intros Hg. unfold setSelected, restyleMarkers.
  repeat case_match; cbn in *; congruence.
Qed.

Lemma run_unloaded (es : list Event) : ∀ s,
  (mapInstanceRef s = None → store s = [] ∧ markersRef s = ∅) →
  mapInstanceRef (run es s) = None →
  store (run es s) = [] ∧ markersRef (run es s) = ∅.
Proof.
  induction es as [|e es IH]; intros s Hs; [done|].
  cbn [run foldl]. apply IH.
  destruct e as [|R|sel|z]; cbn [step].
  - destruct (mapInstanceRef s) eqn:Hg; [|discriminate].
    intros Hnone. congruence.
  - destruct (mapInstanceRef s) eqn:Hg.
    + intros Hnone. destruct (reconcile_loaded R s _ Hg) as [g' Hg']. congruence.
    + intros _. rewrite reconcile_unloaded by done. by apply Hs.
  - destruct (mapInstanceRef s) eqn:Hg.
    + intros Hnone. destruct (setSelected_map_loaded sel s _ Hg). congruence.
    + intros _. destruct (Hs eq_refl) as [Hst Hreg].
      rewrite (proj2 (setSelected_frame sel s)), (proj1 (setSelected_frame sel s)).
      unfold restyleMarkers. cbn [store withStore].
      rewrite Hreg, map_to_list_empty. done.
  - cbn. destruct (mapInstanceRef s); [discriminate|]. intros _. by apply Hs.
Qed.

(** X6.  A reconciliation leaves no marker highlighted: in any state the
    component can reach, after [reconcile] no marker on the map is in the
    selected style, the one selected just before included, since every
    marker is made anew in the plain style. *)
Theorem reconcile_drops_highlight (es : list Event) R h :
  ¬ displayedSelected (reconcile R (run es mount)) h.
Proof.
  destruct (run_selectionInv es mount mount_selectionInv) as [Hheld _].
  destruct (mapInstanceRef (run es mount)) as [g|] eqn:Hg.
  - by apply reconcile_none_selected with g.
  - rewrite reconcile_unloaded by done. intros (m & Hm & _).
    destruct (run_unloaded es mount) as [Hst _]; [done|done|].
    by rewrite Hst in Hm.
Qed.

(** X7.  Lists of records, selections and bounds changes that arrive
    before the map has loaded leave no trace: once the map loads, the
    component is in the state of a map loaded right after mounting, with
    no marker, no framing and no listener. *)
Theorem events_before_load (es : list Event) :
  MapLoaded ∉ es → run (es ++ [MapLoaded]) mount = loaded.
Proof.
  intros Hnot.
  assert (Hgen : ∀ s, MapLoaded ∉ es → mapInstanceRef s = None →
                      mapInstanceRef (run es s) = None).
  { clear Hnot. induction es as [|e es IH]; intros s Hnot Hs; [done|].
    cbn [run foldl]. apply IH.
    - intros ?. apply Hnot. by apply list_elem_of_further.
    - destruct e as [|R|sel|z]; cbn [step].
      + destruct Hnot. apply list_elem_of_here.
      + by rewrite reconcile_unloaded.
      + by apply setSelected_map_unloaded.
      + cbn. by rewrite Hs. }
  assert (Hnone : mapInstanceRef (run es mount) = None) by (by apply Hgen).
  destruct (run_unloaded es mount) as [Hst Hreg]; [done|done|].
  unfold run. rewrite foldl_snoc. fold (run es mount).
  destruct (run es mount) as [g r st]. cbn in *. by subst.
Qed.

Lemma events_before_load_witness :
  (MapLoaded ∉ [DiveLogsChanged [diveA; diveB]; SelectedChanged (Some "b")]) ∧
  liveIds (run [DiveLogsChanged [diveA; diveB]; SelectedChanged (Some "b");
                MapLoaded] mount) = ∅.
Proof.
  assert (H : MapLoaded ∉ [DiveLogsChanged [diveA; diveB];
                           SelectedChanged (Some "b")]).
  { intros Hin. repeat (apply elem_of_cons in Hin as [Hin|Hin]; [discriminate|]).
    by apply elem_of_nil in Hin. }
  split; [exact H|].
  change (liveIds (run ([DiveLogsChanged [diveA; diveB];
                         SelectedChanged (Some "b")] ++ [MapLoaded]) mount) = ∅).
  by rewrite (events_before_load _ H).
Defined.

(** X8.  The zoom cap is one-shot.  On a loaded map, a non-empty
    reconciliation adds one listener; the first bounds change reported
    afterwards is capped at 15 and removes the pending listeners; the
    bounds change after that keeps whatever zoom it reports, above 15
    too. *)
Theorem zoom_cap_one_shot R s g (z1 z2 : Z) :
  mapInstanceRef s = Some g → R ≠ [] →
  let s1 := reconcile R s in
  let s2 := step s1 (BoundsChanged z1) in
  let s3 := step s2 (BoundsChanged z2) in
  (listeners <$> mapInstanceRef s1) = Some (listeners g ++ [ClampZoom]) ∧
  (listeners <$> mapInstanceRef s2) = Some [] ∧
  (zoom <$> mapInstanceRef s2) = Some (Z.min z1 15) ∧
  (zoom <$> mapInstanceRef s3) = Some z2.
Proof.
  intros Hg Hne s1 s2 s3.
  destruct (reconcile_calls R s g Hg Hne) as (b & _ & Hmap & _). fold s1 in Hmap.
  unfold s3, s2. cbn [step]. rewrite Hmap. cbn.
  split; [done|]. split; [done|]. split; [|done].
  f_equal. change (zoom (boundsChanged z1 (fitBounds b g)) = Z.min z1 15).
  rewrite boundsChanged_clamped; [done|].
  cbn. by destruct (listeners g).
Qed.

Lemma zoom_cap_one_shot_witness :
  mapInstanceRef loaded = Some newMap ∧ [diveA] ≠ [] ∧
  (zoom <$> mapInstanceRef
     (run [DiveLogsChanged [diveA]; BoundsChanged 21; BoundsChanged 19] loaded))
  = Some 19.
Proof.
  split; [reflexivity|]. split; [discriminate|].
  exact (proj2 (proj2 (proj2
    (zoom_cap_one_shot [diveA] loaded newMap 21 19 eq_refl ltac:(discriminate))))).
Defined.

End MarkerLifecycle.

(** ** Cleaning of documents before they are written *)

Section Cleaning.
Import Clean.

Lemma Value_ind' (P : Value → Prop) :
  P VUndefined → P VNull → (∀ v, P (VPrim v)) →
  (∀ items, P (VArray items)) →
  (∀ c fields, P (VInstance c fields)) →
  (∀ props, Forall (λ kv, P kv.2) props → P (VObject props)) →
  ∀ v, P v.
Proof.
  intros Hu Hn Hp Ha Hi Ho. fix IH 1.
  intros [| |v|items|c fields|props];
    [exact Hu|exact Hn|apply Hp|apply Ha|apply Hi|].
  apply Ho. induction props as [|[k x] rest IHrest]; constructor.
  - apply IH.
  - exact IHrest.
Qed.

Lemma removeUndefinedValues_nil : removeUndefinedValues (VObject []) = [].
Proof. reflexivity. Qed.

Lemma removeUndefinedValues_cons key value rest :
  removeUndefinedValues (VObject ((key, value) :: rest)) =
  match value with
  | VUndefined => removeUndefinedValues (VObject rest)
  | VObject _ =>
      if bool_decide (0 < length (removeUndefinedValues value))%nat
      then (key, VObject (removeUndefinedValues value))
             :: removeUndefinedValues (VObject rest)
      else removeUndefinedValues (VObject rest)
  | _ => (key, value) :: removeUndefinedValues (VObject rest)
  end.
Proof. by destruct value. Qed.

Lemma removeUndefinedValues_cleanProps (v : Value) :
  cleanProps (removeUndefinedValues v).
Proof.
  induction v as [| | | | |props IH] using Value_ind'; try constructor.
  induction props as [|[key value] rest IHrest]; [constructor|].
  apply Forall_cons in IH as [Hv Hrest]. specialize (IHrest Hrest).
  rewrite removeUndefinedValues_cons.
  destruct value; try done; try (constructor; [constructor|done]).
  case_bool_decide as Hlen; [|done].
  constructor; [|done]. constructor; [|exact Hv].
  intros Hnil. rewrite Hnil in Hlen. simpl in Hlen. lia.
Qed.

Lemma cleanProps_fixed (v : Value) :
  ∀ props, v = VObject props → cleanProps props →
           removeUndefinedValues v = props.
Proof.
  induction v as [| | | | |props0 IH] using Value_ind'; try discriminate.
  intros props [= <-]. induction props0 as [|[key value] rest IHrest];
    intros Hclean; [done|].
  apply Forall_cons in IH as [Hv Hrest].
  inversion Hclean as [|? ? ? Hvalue Hcrest]; subst.
  rewrite removeUndefinedValues_cons, (IHrest Hrest Hcrest).
  inversion Hvalue as [| | | |nested Hne Hnested]; subst; try done.
  cbn [snd] in Hv. rewrite (Hv nested eq_refl Hnested).
  rewrite bool_decide_eq_true_2; [done|]. destruct nested; [done|simpl; lia].
Qed.

(** X9.  [removeUndefinedValues] leaves nothing to remove: in its result
    no property is [undefined] and no nested plain object is empty, at any
    depth of plain objects.  The objects it returns unchanged are exactly
    those of that form, so cleaning a cleaned object changes nothing. *)
Theorem removeUndefinedValues_clean (v : Value) (props : list (string * Value)) :
  cleanProps (removeUndefinedValues v) ∧
  (removeUndefinedValues (VObject props) = props ↔ cleanProps props) ∧
  removeUndefinedValues (VObject (removeUndefinedValues v)) =
    removeUndefinedValues v.
Proof.
  split; [apply removeUndefinedValues_cleanProps|]. split.
  - split.
    + intros <-. apply removeUndefinedValues_cleanProps.
    + by apply cleanProps_fixed.
  - apply (cleanProps_fixed _ _ eq_refl), removeUndefinedValues_cleanProps.
Qed.

(** X10.  [removeUndefinedValues] makes up no key and keeps the order of
    the keys; every property whose value is [null], a primitive, an array
    or a class instance is kept as it is, so an array is never looked
    into: an [undefined] inside it stays. *)
Theorem removeUndefinedValues_keeps (props : list (string * Value)) :
  (removeUndefinedValues (VObject props)).*1 `sublist_of` props.*1 ∧
  (∀ key value, (key, value) ∈ props → isLeaf value →
     (key, value) ∈ removeUndefinedValues (VObject props)) ∧
  (∀ key items, (key, VArray items) ∈ props →
     (key, VArray items) ∈ removeUndefinedValues (VObject props)).
Proof.
  assert (Hleaf : ∀ key value, (key, value) ∈ props → isLeaf value →
     (key, value) ∈ removeUndefinedValues (VObject props)).
  { induction props as [|[k x] rest IH]; intros key value Hin Hl.
    - by apply elem_of_nil in Hin.
    - rewrite removeUndefinedValues_cons.
      apply elem_of_cons in Hin as [[= -> ->]|Hin].
      + destruct x; try done; apply list_elem_of_here.
      + specialize (IH key value Hin Hl).
        destruct x; try done; try (by apply list_elem_of_further).
        case_bool_decide; [by apply list_elem_of_further|done]. }
  split; [|split; [done|]].
  - clear Hleaf. induction props as [|[k x] rest IH]; [done|].
    rewrite removeUndefinedValues_cons, fmap_cons. cbn [fst].
    destruct x; rewrite ?fmap_cons; cbn [fst];
      try (by apply sublist_skip); try (by apply sublist_cons).
    case_bool_decide; rewrite ?fmap_cons; cbn [fst];
      [by apply sublist_skip|by apply sublist_cons].
  - intros key items Hin. by apply Hleaf.
Qed.

End Cleaning.


(** ** Creating, listing and deleting dive logs *)

Section DiveLogWrites.
Import Storage Firestore FirestoreWrites.

Lemma fromDate_inRange (date : Z) :
  inRange date = true → fromDate date = Ok (stamp date).
Proof. unfold fromDate. by intros ->. Qed.

Lemma fromDate_out (date : Z) :
  inRange date = false → ∃ e, fromDate date = Throw e.
Proof. unfold fromDate. intros ->. eauto. Qed.

Lemma toDate_stamp (date : Z) : toDate (stamp date) = date.
Proof. unfold toDate, stamp; cbn. by apply Z.div_mul. Qed.

Lemma stampPhotos_inRange (photos : list PhotoData) :
  forallb (λ photo, inRange (pd_uploadedAt photo)) photos = true →
  stampPhotos photos = Ok ((λ photo, (photo, stamp (pd_uploadedAt photo))) <$> photos).
Proof.
  induction photos as [|photo photos IH]; [done|]. cbn [forallb stampPhotos].
  intros [Hp Hrest]%andb_true_iff.
  by rewrite (fromDate_inRange _ Hp), (IH Hrest).
Qed.

Lemma stampPhotos_out (photos : list PhotoData) :
  forallb (λ photo, inRange (pd_uploadedAt photo)) photos = false →
  ∃ e, stampPhotos photos = Throw e.
Proof.
  induction photos as [|photo photos IH]; [done|]. cbn [forallb stampPhotos].
  intros [Hp|Hrest]%andb_false_iff.
  - destruct (fromDate_out _ Hp) as [e ->]. eauto.
  - destruct (fromDate (pd_uploadedAt photo)); [|eauto].
    destruct (IH Hrest) as [e ->]. eauto.
Qed.

Lemma forallb_and {A} (f g : A → bool) (l : list A) :
  forallb (λ a, f a && g a) l = forallb f l && forallb g l.
Proof.
  induction l as [|a l IH]; [done|]. cbn. rewrite IH.
  destruct (f a), (g a), (forallb f l); done.
Qed.

Lemma existsb_hasUndefined (photos : list PhotoData) :
  existsb hasUndefined
    ((λ photo, (photo, stamp (pd_uploadedAt photo))) <$> photos).*1
  = negb (forallb (λ photo, negb (hasUndefined photo)) photos).
Proof.
  induction photos as [|photo photos IH]; [done|]. cbn. rewrite IH.
  by destruct (hasUndefined photo).
Qed.

(** The rules let the signed-in user create a dive log exactly when it
    names that user. *)
Lemma permitted_create (docId owner : string) (be : Backend) :
  permitted FirestoreRules.Create docId (Some owner) be
  = bool_decide (auth be = Some owner).
Proof.
  unfold permitted, FirestoreRules.allowed, FirestoreRules.diveLogs,
    FirestoreRules.signedInAs.
  cbn [FirestoreRules.collection FirestoreRules.operation
       FirestoreRules.auth_uid FirestoreRules.incoming_userId].
  rewrite bool_decide_eq_false_2 by discriminate.
  rewrite bool_decide_eq_true_2 by done.
  destruct (auth be) as [uid|]; [|done].
  apply bool_decide_ext. split; [by intros ->|by intros [= ->]].
Qed.

Lemma convert_written (clock' : Z) (data : DiveLogData) (docId : string)
    (clock : Z) :
  convertFirestoreDiveLog clock' docId (written data clock)
  = stored data docId clock.
Proof.
  unfold convertFirestoreDiveLog, written, storedDiveLog, stored, dateOr. cbn.
  rewrite !toDate_stamp. f_equal.
  rewrite <- !list_fmap_compose. apply list_fmap_ext. intros i photo _.
  unfold convertFirestorePhoto, storedPhoto, storedAs, dateOr. cbn.
  by rewrite toDate_stamp.
Qed.

Lemma filter_fmap_comm {A B} (f : A → B) (P : B → Prop)
    `{!∀ x, Decision (P x)} (l : list A) :
  filter P (f <$> l) = f <$> filter (λ a, P (f a)) l.
Proof.
  induction l as [|a l IH]; [done|].
  rewrite fmap_cons, !filter_cons, IH. by destruct (decide (P (f a))).
Qed.

Lemma getDocs_ids_NoDup (q : Query) (be : Backend) snapshot :
  getDocs q be = Ok snapshot → NoDup snapshot.*1.
Proof.
  unfold getDocs. destruct (firestoreError be); [done|]. intros [= <-].
  rewrite merge_sort_Permutation.
  eapply sublist_NoDup; [apply (NoDup_fst_map_to_list (docs be))|].
  apply fmap_sublist, sublist_filter.
Qed.

Lemma getDocs_elem (q : Query) (be : Backend) snapshot d :
  getDocs q be = Ok snapshot →
  d ∈ snapshot ↔ docs be !! d.1 = Some d.2 ∧ matches q d = true.
Proof.
  unfold getDocs. destruct (firestoreError be); [done|]. intros [= <-].
  rewrite merge_sort_Permutation, list_elem_of_filter.
  destruct d as [k v]. rewrite elem_of_map_to_list. cbn. tauto.
Qed.

Lemma createDiveLog_writable (data : DiveLogData) (newId : string)
    (be : Backend) :
  writable data be = true →
  createDiveLog data newId be =
    (Ok newId,
     {| docs := <[newId := written data (now be)]> (docs be);
        blobs := blobs be; firestoreError := firestoreError be;
        denied := denied be; auth := auth be; now := now be;
        log := log be |}).
Proof.
  unfold writable. rewrite forallb_and, !andb_true_iff, !bool_decide_eq_true.
  intros [[[[Hnow Hdate] [Hphotos Hdefined]] Hup] Hauth].
  unfold createDiveLog, timestampNow.
  rewrite (fromDate_inRange _ Hnow), (fromDate_inRange _ Hdate).
  rewrite (stampPhotos_inRange _ Hphotos). unfold addDoc.
  cbn [w_photos w_userId]. rewrite existsb_hasUndefined, Hdefined. cbn [negb].
  rewrite Hup, permitted_create, bool_decide_eq_true_2 by done.
  done.
Qed.

Lemma createDiveLog_not_writable (data : DiveLogData) (newId : string)
    (be : Backend) :
  writable data be = false → ∃ e, createDiveLog data newId be = (Throw e, be).
Proof.
  unfold writable. rewrite forallb_and, !andb_false_iff, !bool_decide_eq_false.
  unfold createDiveLog, timestampNow. intros Hnot.
  destruct (inRange (now be)) eqn:Hnow.
  2: { destruct (fromDate_out _ Hnow) as [e ->]. eauto. }
  rewrite (fromDate_inRange _ Hnow).
  destruct (inRange (d_date data)) eqn:Hdate.
  2: { destruct (fromDate_out _ Hdate) as [e ->]. eauto. }
  rewrite (fromDate_inRange _ Hdate).
  destruct (forallb (λ photo, inRange (pd_uploadedAt photo)) (d_photos data))
    eqn:Hphotos.
  2: { destruct (stampPhotos_out _ Hphotos) as [e ->]. eauto. }
  rewrite (stampPhotos_inRange _ Hphotos). unfold addDoc.
  cbn [w_photos w_userId]. rewrite existsb_hasUndefined.
  destruct (forallb (λ photo, negb (hasUndefined photo)) (d_photos data));
    cbn [negb]; [|eauto].
  destruct (firestoreError be) as [e|]; [eauto|].
  rewrite permitted_create. case_bool_decide; [|eauto].
  destruct Hnot as [[[[?|?]|[?|?]]|?]|?]; done.
Qed.

(** X11.  [createDiveLog], writing under an id the store chose among
    those not in use, goes through exactly when the clock and every date
    of the record fit a [Timestamp], no photo holds an [undefined], the
    store can be reached and the signed-in user is the [userId] of the
    record.  Then [getDiveLog] reads back what was written: the record as
    given, under that id, with the dates to the millisecond and the
    creation and update times set to the clock of the write; every other
    document and the stored objects are untouched.  In every other case
    the error is rethrown and nothing is written. *)
Theorem createDiveLog_roundtrip (data : DiveLogData) (newId : string)
    (be : Backend) :
  docs be !! newId = None →
  let r := createDiveLog data newId be in
  (writable data be = true →
     r.1 = Ok newId ∧
     getDiveLog newId r.2 = Ok (Some (stored data newId (now be))) ∧
     (∀ other, other ≠ newId → docs r.2 !! other = docs be !! other) ∧
     blobs r.2 = blobs be ∧ log r.2 = log be) ∧
  (writable data be = false → ∃ e, r = (Throw e, be)).
Proof.
  intros _ r. split; [|by apply createDiveLog_not_writable].
  intros Hw. unfold r. rewrite (createDiveLog_writable data newId be Hw).
  cbn [fst snd]. split; [done|].
  assert (Hup : firestoreError be = None).
  { unfold writable in Hw. rewrite !andb_true_iff in Hw.
    destruct Hw as [[_ Hup] _]. by apply bool_decide_eq_true in Hup. }
  split.
  - unfold getDiveLog, getDoc. cbn [firestoreError docs now]. rewrite Hup.
    rewrite lookup_insert_eq. by rewrite convert_written.
  - split; [|done]. intros other Hne. cbn. by rewrite lookup_insert_ne.
Qed.

Lemma createDiveLog_roundtrip_witness :
  docs sampleBackend !! "d9" = None ∧
  writable sampleData sampleBackend = true ∧
  getDiveLog "d9" (createDiveLog sampleData "d9" sampleBackend).2
    = Ok (Some (stored sampleData "d9" 5000)) ∧
  writable lateData sampleBackend = false ∧
  ∃ e, createDiveLog lateData "d9" sampleBackend = (Throw e, sampleBackend).
Proof.
  assert (Hfresh : docs sampleBackend !! "d9" = None) by (vm_compute; reflexivity).
  split; [exact Hfresh|]. split; [reflexivity|].
  split.
  - exact (proj1 (proj2 (proj1
      (createDiveLog_roundtrip sampleData "d9" sampleBackend Hfresh) eq_refl))).
  - split; [reflexivity|].
    exact (proj2 (createDiveLog_roundtrip lateData "d9" sampleBackend Hfresh)
                 eq_refl).
Defined.

(** X12.  A dive log that [createDiveLog] wrote under a new id is listed
    from then on: the listing of all dive logs is the old listing with the
    new record added (in creation order, so the length grows by one), and
    it appears in the listing of its owner. *)
Theorem createDiveLog_listed (data : DiveLogData) (newId : string)
    (be : Backend) :
  writable data be = true → docs be !! newId = None →
  let be' := (createDiveLog data newId be).2 in
  ∃ before after mine,
    getDiveLogs None be = Ok before ∧
    getDiveLogs None be' = Ok after ∧
    after ≡ₚ stored data newId (now be) :: before ∧
    StronglySorted (λ a b : DiveLog, createdAt b ≤ createdAt a) after ∧
    (d_userId data ≠ "" →
       getDiveLogs (Some (d_userId data)) be' = Ok mine ∧
       stored data newId (now be) ∈ mine).
Proof.
  intros Hw Hfresh be'.
  assert (Hup : firestoreError be = None).
  { unfold writable in Hw. rewrite !andb_true_iff in Hw.
    destruct Hw as [[_ Hup] _]. by apply bool_decide_eq_true in Hup. }
  assert (Hbe' : docs be' = <[newId := written data (now be)]> (docs be) ∧
                 firestoreError be' = None ∧ now be' = now be).
  { unfold be'. by rewrite (createDiveLog_writable data newId be Hw). }
  destruct Hbe' as (Hdocs & Herr & Hnow).
  unfold getDiveLogs. cbn [truthy].
  destruct (getDocs {| whereUserId := None |} be) as [snap|] eqn:Hq;
    [|unfold getDocs in Hq; by rewrite Hup in Hq].
  destruct (getDocs {| whereUserId := None |} be') as [snap'|] eqn:Hq';
    [|unfold getDocs in Hq'; by rewrite Herr in Hq'].
  destruct (getDocs {| whereUserId := Some (d_userId data) |} be')
    as [snapu|] eqn:Hqu;
    [|unfold getDocs in Hqu; by rewrite Herr in Hqu].
  eexists _, _, _. split; [done|]. split; [done|].
  set (fsd := written data (now be)) in *.
  assert (Hconv : convertFirestoreDiveLog (now be') newId fsd
                  = stored data newId (now be)) by apply convert_written.
  split; [|split].
  - assert (Hperm : snap' ≡ₚ (newId, fsd) :: snap).
    { unfold getDocs in Hq, Hq'. rewrite Hup in Hq. rewrite Herr in Hq'.
      injection Hq as <-. injection Hq' as <-.
      rewrite !merge_sort_Permutation, Hdocs.
      rewrite (map_to_list_insert _ _ _ Hfresh), filter_cons.
      by rewrite decide_True by done. }
    rewrite Hperm, fmap_cons. cbn [fst snd]. rewrite Hconv, Hnow. done.
  - destruct (getDocs_sorted _ _ _ Hq') as [Hs Ha]. by apply convert_sorted.
  - intros Hne. unfold truthy. rewrite bool_decide_eq_false_2 by done.
    cbn [negb]. rewrite Hqu. split; [done|].
    rewrite <- Hconv. apply (list_elem_of_fmap_2
      (λ d, convertFirestoreDiveLog (now be') d.1 d.2) _ (newId, fsd)).
    apply (getDocs_elem _ _ _ _ Hqu). cbn [fst snd]. split.
    + by rewrite Hdocs, lookup_insert_eq.
    + unfold matches, fsd. cbn [snd]. apply andb_true_iff.
      split; apply bool_decide_eq_true_2; [by eexists|done].
Qed.

Lemma createDiveLog_listed_witness :
  writable sampleData sampleBackend = true ∧
  docs sampleBackend !! "d9" = None ∧
  ∃ before after,
    getDiveLogs None sampleBackend = Ok before ∧
    getDiveLogs None (createDiveLog sampleData "d9" sampleBackend).2 = Ok after ∧
    length after = S (length before).
Proof.
  assert (Hfresh : docs sampleBackend !! "d9" = None) by (vm_compute; reflexivity).
  split; [reflexivity|]. split; [exact Hfresh|].
  destruct (createDiveLog_listed sampleData "d9" sampleBackend eq_refl Hfresh)
    as (before & after & mine & H1 & H2 & Hp & _).
  exists before, after. split; [exact H1|]. split; [exact H2|].
  by rewrite Hp.
Defined.

Lemma matches_user (u : string) (d : string * FirestoreDiveLog) :
  matches {| whereUserId := Some u |} d = true ↔
  fs_userId d.2 = u ∧ matches {| whereUserId := None |} d = true.
Proof.
  unfold matches. cbn [whereUserId]. rewrite !andb_true_iff, !bool_decide_eq_true.
  tauto.
Qed.

(** X13.  [getDiveLogs] with a user id returns exactly the records of that
    user among those [getDiveLogs] returns without one, newest first, and
    no record twice; the empty string counts as no user id. *)
Theorem getDiveLogs_by_user (u : string) (be : Backend) :
  firestoreError be = None → u ≠ "" →
  ∃ all mine,
    getDiveLogs None be = Ok all ∧
    getDiveLogs (Some u) be = Ok mine ∧
    getDiveLogs (Some "") be = Ok all ∧
    mine ≡ₚ filter (λ d, userId d = u) all ∧
    StronglySorted (λ a b : DiveLog, createdAt b ≤ createdAt a) mine ∧
    NoDup (id <$> all) ∧ NoDup (id <$> mine).
Proof.
  intros Hup Hne. unfold getDiveLogs, truthy.
  rewrite (bool_decide_eq_false_2 (u = "")) by done.
  rewrite (bool_decide_eq_true_2 ("" = "")) by done. cbn [negb].
  destruct (getDocs {| whereUserId := None |} be) as [snap|] eqn:Hq;
    [|unfold getDocs in Hq; by rewrite Hup in Hq].
  destruct (getDocs {| whereUserId := Some u |} be) as [snapu|] eqn:Hqu;
    [|unfold getDocs in Hqu; by rewrite Hup in Hqu].
  eexists _, _. split; [done|]. split; [done|]. split; [done|].
  assert (Hids : ∀ l : list (string * FirestoreDiveLog),
    id <$> ((λ d, convertFirestoreDiveLog (now be) d.1 d.2) <$> l) = l.*1).
  { intros l. rewrite <- list_fmap_compose. by apply list_fmap_ext. }
  split; [|split; [|split]].
  - rewrite (filter_fmap_comm _ (λ d, userId d = u)). cbn [userId convertFirestoreDiveLog].
    apply fmap_Permutation.
    pose proof Hq as Hq0. pose proof Hqu as Hqu0.
    unfold getDocs in Hq0, Hqu0. rewrite Hup in Hq0, Hqu0.
    injection Hq0 as <-. injection Hqu0 as <-.
    rewrite !merge_sort_Permutation, list_filter_filter.
    erewrite list_filter_iff; [done|].
    intros d. cbn. rewrite matches_user. tauto.
  - destruct (getDocs_sorted _ _ _ Hqu) as [Hs Ha]. by apply convert_sorted.
  - rewrite Hids. by eapply getDocs_ids_NoDup.
  - rewrite Hids. by eapply getDocs_ids_NoDup.
Qed.

Lemma getDiveLogs_by_user_witness :
  firestoreError sampleBackend = None ∧ "u1" ≠ "" ∧
  ∃ mine, getDiveLogs (Some "u1") sampleBackend = Ok mine ∧
          id <$> mine = ["d3"; "d1"].
Proof.
  split; [reflexivity|]. split; [discriminate|].
  destruct (getDiveLogs_by_user "u1" sampleBackend eq_refl ltac:(discriminate))
    as (all & mine & _ & Hmine & _).
  exists mine. split; [exact Hmine|].
  assert (Hc : getDiveLogs (Some "u1") sampleBackend
               = Ok (convertFirestoreDiveLog 5000 "d3" (fsDive "u1" 3000000000 [])
                     :: [convertFirestoreDiveLog 5000 "d1"
                           (fsDive "u1" 1000000000 [fsPhoto "u1/1.jpg"])]))
    by (vm_compute; reflexivity).
  rewrite Hc in Hmine. by injection Hmine as <-.
Defined.

Lemma deletePhotos_blobs_subseteq (ids : list string) : ∀ be,
  blobs (deletePhotos ids be).2 ⊆ blobs be ∧
  firestoreError (deletePhotos ids be).2 = firestoreError be.
Proof.
  induction ids as [|i ids IH]; intros be; cbn [deletePhotos]; [done|].
  unfold deletePhoto, deleteObject.
  repeat case_bool_decide;
    match goal with |- context [deletePhotos ids ?b] =>
      destruct (IH b) as [Hsub Herr]; destruct (deletePhotos ids b) end;
    cbn in *; split; try done.
  intros p Hp. apply Hsub in Hp. by apply elem_of_difference in Hp as [? _].
Qed.

Lemma deletePhotos_missing (ids : list string) : ∀ be i,
  i ∈ ids → photoPath i ∉ blobs be →
  (deletePhotos ids be).1 = Throw "Failed to delete photo".
Proof.
  induction ids as [|i0 ids IH]; intros be i Hin Hmiss.
  - by apply elem_of_nil in Hin.
  - cbn [deletePhotos]. unfold deletePhoto, deleteObject.
    apply elem_of_cons in Hin as [->|Hin].
    + rewrite (bool_decide_eq_false_2 (photoPath i0 ∈ blobs be)) by done.
      case_bool_decide; by destruct (deletePhotos ids be).
    + case_bool_decide.
      { by destruct (deletePhotos ids be). }
      case_bool_decide.
      2: { by destruct (deletePhotos ids be). }
      match goal with |- context [deletePhotos ids ?b] =>
        specialize (IH b i Hin); destruct (deletePhotos ids b) end.
      cbn in *. apply IH. intros Hp. apply Hmiss.
      by apply elem_of_difference in Hp as [? _].
Qed.

(** X14.  Deleting an id that has no document fails, whoever is signed
    in: the rules compare the signed-in user with the [userId] of the
    stored document, and refuse when there is none.  [deleteDiveLog] then
    throws and nothing changes. *)
Theorem deleteDiveLog_missing (docId : string) (be : Backend) :
  docs be !! docId = None →
  let r := deleteDiveLog docId be in
  r.2 = be ∧
  (firestoreError be = None → r.1 = Throw "permission-denied") ∧
  (∀ e, firestoreError be = Some e → r.1 = Throw e).
Proof.
  intros Hnone r. unfold r, deleteDiveLog, getDiveLog, getDoc, deleteDoc.
  assert (Hperm : permitted FirestoreRules.Delete docId None be = false).
  { apply not_true_is_false. intros (data & Hdoc & _)%permitted_delete.
    by rewrite Hnone in Hdoc. }
  destruct (firestoreError be) as [e|] eqn:Hup.
  - cbn. split; [done|]. split; [done|]. by intros ? [= <-].
  - rewrite Hnone. cbn. rewrite Hup, Hperm. by cbn.
Qed.

Lemma deleteDiveLog_missing_witness :
  docs sampleBackend !! "d9" = None ∧
  deleteDiveLog "d9" sampleBackend = (Throw "permission-denied", sampleBackend).
Proof.
  assert (Hnone : docs sampleBackend !! "d9" = None) by (vm_compute; reflexivity).
  split; [exact Hnone|].
  destruct (deleteDiveLog_missing "d9" sampleBackend Hnone) as (Hbe & Hr & _).
  rewrite <- Hbe at 2. rewrite <- (Hr eq_refl).
  by destruct (deleteDiveLog "d9" sampleBackend).
Defined.

(** X15.  Whenever [deleteDiveLog] returns normally for an existing record,
    whatever the services did: the object of each of its photos was
    deleted, all of them before the document, the document is gone, the
    other documents are as they were, and neither [getDiveLog] nor
    [getDiveLogs] finds the record any more. *)
Theorem deleteDiveLog_gone (docId : string) (data : FirestoreDiveLog)
    (be : Backend) :
  docs be !! docId = Some data →
  (deleteDiveLog docId be).1 = Ok tt →
  let paths := photoPath <$> (fp_id <$> default [] (fs_photos data)) in
  let be' := (deleteDiveLog docId be).2 in
  (∀ p, p ∈ paths → p ∈ blobs be ∧ p ∉ blobs be') ∧
  log be' = log be ++ (DeletedObject <$> paths) ++ [DeletedDoc docId] ∧
  docs be' = delete docId (docs be) ∧
  getDiveLog docId be' = Ok None ∧
  ∃ l, getDiveLogs None be' = Ok l ∧ docId ∉ id <$> l.
Proof.
  intros Hdoc Hok paths be'.
  destruct (deleteDiveLog_ok_inv docId data be Hdoc Hok) as (Hdocs & Hblobs & Hlog).
  fold paths be' in Hdocs, Hblobs, Hlog.
  assert (Herr : firestoreError be' = None).
  { unfold be'. unfold deleteDiveLog, getDiveLog, getDoc in *.
    destruct (firestoreError be) eqn:Hup; [done|]. rewrite Hdoc in *.
    cbn [photos convertFirestoreDiveLog] in *.
    case_bool_decide.
    - destruct (deletePhotos _ be) as [[[]|e'] be1]; cbn [fst snd] in *; [|done].
      by destruct (deleteDoc_ok_inv docId be1 Hok) as (_ & _ & _ & _ & ? & _).
    - by destruct (deleteDoc_ok_inv docId be Hok) as (_ & _ & _ & _ & ? & _). }
  assert (Hall : ∀ p, p ∈ paths → p ∈ blobs be).
  { unfold deleteDiveLog, getDiveLog, getDoc in Hok.
    destruct (firestoreError be) eqn:Hup; [done|]. rewrite Hdoc in Hok.
    cbn [photos convertFirestoreDiveLog] in Hok.
    rewrite convert_photo_ids in Hok. intros p Hp.
    destruct (decide (p ∈ blobs be)) as [|Hmiss]; [done|exfalso].
    apply list_elem_of_fmap in Hp as (i & -> & Hi).
    pose proof (deletePhotos_missing _ be i Hi Hmiss) as Hthrow.
    case_bool_decide as Hlen.
    - destruct (deletePhotos _ be) as [r be1]. cbn in *. by subst r.
    - destruct (fp_id <$> default [] (fs_photos data)) eqn:Hfp;
        [by apply elem_of_nil in Hi|].
      apply Hlen. rewrite <- (convert_photo_ids (now be)) in Hfp.
      apply (f_equal length) in Hfp. rewrite length_fmap in Hfp.
      rewrite Hfp. simpl. lia. }
  split; [|split; [done|split; [done|split]]].
  - intros p Hp. split; [by apply Hall|]. rewrite Hblobs.
    intros [_ Hnin]%elem_of_difference. apply Hnin.
    by apply elem_of_list_to_set.
  - unfold getDiveLog, getDoc. rewrite Herr, Hdocs, lookup_delete_eq. done.
  - unfold getDiveLogs. cbn [truthy].
    destruct (getDocs {| whereUserId := None |} be') as [snap|] eqn:Hq;
      [|unfold getDocs in Hq; by rewrite Herr in Hq].
    eexists. split; [done|].
    rewrite <- list_fmap_compose. intros Hin.
    apply list_elem_of_fmap in Hin as (d & Hd & Hin). cbn in Hd.
    apply (getDocs_elem _ _ _ _ Hq) in Hin as [Hin _].
    rewrite Hdocs, <- Hd, lookup_delete_eq in Hin. done.
Qed.

Lemma deleteDiveLog_gone_witness :
  docs sampleBackend !! "d1" = Some (fsDive "u1" 1000000000 [fsPhoto "u1/1.jpg"]) ∧
  (deleteDiveLog "d1" sampleBackend).1 = Ok tt ∧
  getDiveLog "d1" (deleteDiveLog "d1" sampleBackend).2 = Ok None.
Proof.
  split; [reflexivity|]. split; [reflexivity|].
  destruct (deleteDiveLog_gone "d1" (fsDive "u1" 1000000000 [fsPhoto "u1/1.jpg"])
              sampleBackend eq_refl eq_refl) as (_ & _ & _ & Hg & _).
  exact Hg.
Defined.

(** X16.  A record one of whose photos has no object in storage cannot be
    deleted: [deleteDiveLog] throws "Failed to delete photo", the document
    stays, and the missing object is still missing afterwards, so that
    every further attempt fails in the same way. *)
Theorem deleteDiveLog_missing_object (docId : string) (data : FirestoreDiveLog)
    (be : Backend) (photo : FirestorePhoto) :
  docs be !! docId = Some data → firestoreError be = None →
  photo ∈ default [] (fs_photos data) →
  photoPath (fp_id photo) ∉ blobs be →
  let r := deleteDiveLog docId be in
  r.1 = Throw "Failed to delete photo" ∧
  docs r.2 !! docId = Some data ∧
  firestoreError r.2 = None ∧
  photoPath (fp_id photo) ∉ blobs r.2.
Proof.
  intros Hdoc Hup Hphoto Hmiss r.
  assert (Hi : fp_id photo ∈ fp_id <$> default [] (fs_photos data))
    by (by apply list_elem_of_fmap_2).
  pose proof (deletePhotos_missing _ be _ Hi Hmiss) as Hthrow.
  pose proof (deletePhotos_blobs_subseteq
                (fp_id <$> default [] (fs_photos data)) be) as [Hsub Herr].
  pose proof (deletePhotos_keeps_docs
                (fp_id <$> default [] (fs_photos data)) be) as Hkeep.
  unfold r, deleteDiveLog, getDiveLog, getDoc. rewrite Hup, Hdoc.
  cbn [photos convertFirestoreDiveLog]. rewrite convert_photo_ids.
  rewrite bool_decide_eq_true_2.
  2: { rewrite <- (convert_photo_ids (now be)) in Hi.
       rewrite <- (length_fmap photo_id).
       destruct (photo_id <$> _); [by apply elem_of_nil in Hi|simpl; lia]. }
  destruct (deletePhotos _ be) as [r1 be1]. cbn [fst snd] in *. subst r1.
  cbn. rewrite Hkeep, Herr. repeat split; auto.
Qed.

Lemma deleteDiveLog_missing_object_witness :
  docs partialBackend !! "d2" =
    Some (fsDive "u2" 2000000000 [fsPhoto "u2/1.jpg"; fsPhoto "u2/2.jpg"]) ∧
  (deleteDiveLog "d2" partialBackend).1 = Throw "Failed to delete photo" ∧
  (deleteDiveLog "d2" (deleteDiveLog "d2" partialBackend).2).1
    = Throw "Failed to delete photo".
Proof.
  split; [reflexivity|]. split; [|reflexivity].
  refine (proj1 (deleteDiveLog_missing_object "d2"
    (fsDive "u2" 2000000000 [fsPhoto "u2/1.jpg"; fsPhoto "u2/2.jpg"])
    partialBackend (fsPhoto "u2/1.jpg") eq_refl eq_refl _ _)).
  - apply list_elem_of_here.
  - apply (bool_decide_unpack _). vm_compute. exact I.
Defined.

Lemma deletePhotos_removes (ids : list string) : ∀ be,
  denied (deletePhotos ids be).2 = denied be ∧
  ∀ i, i ∈ ids → photoPath i ∉ denied be →
       photoPath i ∉ blobs (deletePhotos ids be).2.
Proof.
  induction ids as [|i ids IH]; intros be; cbn [deletePhotos].
  { split; [done|]. intros i Hi. by apply elem_of_nil in Hi. }
  assert (Hone : denied (deletePhoto i be).2 = denied be ∧
                 blobs (deletePhoto i be).2 ⊆ blobs be ∧
                 (photoPath i ∉ denied be → photoPath i ∉ blobs (deletePhoto i be).2)).
  { unfold deletePhoto, deleteObject. repeat case_bool_decide; cbn; split; try done.
    split; [|intros _ Hin; apply elem_of_difference in Hin as [_ Hin];
             by apply Hin, elem_of_singleton].
    intros p Hp. by apply elem_of_difference in Hp as [? _]. }
  destruct (deletePhoto i be) as [r be1]. cbn [snd] in Hone.
  destruct Hone as (Hden & Hsub & Hgone).
  destruct (IH be1) as [Hden' Hrest].
  pose proof (deletePhotos_blobs_subseteq ids be1) as [Hsub' _].
  destruct (deletePhotos ids be1) as [rs be2]. cbn [snd] in *.
  split; [congruence|].
  intros j [->|Hj]%elem_of_cons Hnd.
  - intros Hin. by apply Hgone; [|apply Hsub'].
  - apply Hrest; [done|]. by rewrite Hden.
Qed.

(** X17.  [deleteDiveLog] is not atomic.  When it throws, every document
    is still there, that of the record included, and no object was added
    to storage; but, the document store being reachable, every photo of
    the record whose deletion the storage service does not refuse is
    gone: the record that stays then names photos that no longer exist. *)
Theorem deleteDiveLog_not_atomic (docId e : string) (be : Backend) :
  (deleteDiveLog docId be).1 = Throw e →
  let be' := (deleteDiveLog docId be).2 in
  docs be' = docs be ∧
  blobs be' ⊆ blobs be ∧
  ∀ data photo,
    firestoreError be = None → docs be !! docId = Some data →
    photo ∈ default [] (fs_photos data) →
    photoPath (fp_id photo) ∉ denied be →
    photoPath (fp_id photo) ∉ blobs be'.
Proof.
  intros Hthrow be'. unfold be' in *. clear be'.
  unfold deleteDiveLog, getDiveLog, getDoc in *.
  destruct (firestoreError be) as [err|] eqn:Herr; [by repeat split|].
  destruct (docs be !! docId) as [data|] eqn:Hdoc.
  2: { cbn in Hthrow |- *. rewrite (deleteDoc_throw _ _ _ Hthrow). done. }
  cbn [photos convertFirestoreDiveLog] in *. rewrite convert_photo_ids in *.
  case_bool_decide as Hlen.
  2: { rewrite (deleteDoc_throw _ _ _ Hthrow). split; [done|]. split; [done|].
       intros data' photo _ [= <-] Hin _. exfalso. apply Hlen.
       destruct (fs_photos data) as [[|p ps]|]; cbn in Hin |- *;
         [by apply elem_of_nil in Hin|lia|by apply elem_of_nil in Hin]. }
  pose proof (deletePhotos_keeps_docs (fp_id <$> default [] (fs_photos data)) be) as Hk.
  pose proof (deletePhotos_blobs_subseteq (fp_id <$> default [] (fs_photos data)) be)
    as [Hsub Herr'].
  pose proof (deletePhotos_removes (fp_id <$> default [] (fs_photos data)) be)
    as [_ Hgone].
  destruct (deletePhotos _ be) as [[[]|e'] be1]; cbn [fst snd] in *.
  { rewrite (deleteDoc_throw _ _ _ Hthrow).
    split; [done|]. split; [done|].
    intros data' photo _ [= <-] Hin Hnd. apply Hgone; [|done].
    by apply list_elem_of_fmap_2. }
  split; [done|]. split; [done|].
  intros data' photo _ [= <-] Hin Hnd. apply Hgone; [|done].
  by apply list_elem_of_fmap_2.
Qed.

Lemma deleteDiveLog_not_atomic_witness :
  (deleteDiveLog "d2" partialBackend).1 = Throw "Failed to delete photo" ∧
  is_Some (docs (deleteDiveLog "d2" partialBackend).2 !! "d2") ∧
  "dive-photos/u2/2.jpg" ∈ blobs partialBackend ∧
  "dive-photos/u2/2.jpg" ∉ blobs (deleteDiveLog "d2" partialBackend).2.
Proof.
  assert (Hthrow : (deleteDiveLog "d2" partialBackend).1
                   = Throw "Failed to delete photo") by reflexivity.
  destruct (deleteDiveLog_not_atomic "d2" _ partialBackend Hthrow)
    as (Hdocs & _ & Hgone).
  split; [exact Hthrow|]. split; [|split].
  - rewrite Hdocs. by eexists.
  - apply (bool_decide_unpack _). vm_compute. exact I.
  - apply (Hgone (fsDive "u2" 2000000000 [fsPhoto "u2/1.jpg"; fsPhoto "u2/2.jpg"])
                 (fsPhoto "u2/2.jpg") eq_refl eq_refl).
    + apply list_elem_of_further, list_elem_of_here.
    + apply not_elem_of_empty.
Defined.

End DiveLogWrites.


(** ** Uploads and avatars *)

Section Uploads.
Import Storage Firestore FirestoreWrites StorageWrites.

Lemma uploadAll_spec (files : list File) (userId : string)
    (entropy : nat → Z * string) : ∀ index be,
  let paths := uploadPaths files userId index entropy in
  let r := uploadAll files userId index entropy be in
  docs r.2 = docs be ∧ firestoreError r.2 = firestoreError be ∧
  denied r.2 = denied be ∧ log r.2 = log be ∧ now r.2 = now be ∧
  blobs r.2 = blobs be ∪ list_to_set (filter (λ p, p ∉ denied be) paths) ∧
  (Forall (λ p, p ∉ denied be) paths →
     ∃ photos, r.1 = Ok photos ∧
       photoPath <$> (photo_id <$> photos) = paths ∧
       fileName <$> photos = file_name <$> files ∧
       photo_size <$> photos = file_size <$> files) ∧
  (¬ Forall (λ p, p ∉ denied be) paths → ∃ e, r.1 = Throw e).
Proof.
  induction files as [|file files IH]; intros index be; cbn zeta.
  - cbn. rewrite union_empty_r_L. repeat split; auto.
    + intros _. by exists [].
    + intros H. destruct H. constructor.
  - cbn [uploadAll uploadPaths]. unfold uploadPhoto, uploadBytes.
    rewrite filter_cons.
    set (path := "dive-photos/" +:+ generateUniqueFileName (file_name file)
                   userId (entropy index).1 (entropy index).2).
    case_bool_decide as Hden.
    + specialize (IH (S index) be). cbn zeta in IH.
      destruct (uploadAll files userId (S index) entropy be) as [rs be2].
      cbn [fst snd] in *.
      destruct IH as (? & ? & ? & ? & ? & Hb & _ & _).
      rewrite decide_False by (intros Hn; by apply Hn).
      repeat split; auto.
      * intros Hall. apply Forall_cons in Hall as [Hp _]. done.
      * intros _. by destruct rs; eauto.
    + set (be1 := {| docs := docs be; blobs := blobs be ∪ {[path]};
                     firestoreError := firestoreError be; denied := denied be;
                     auth := auth be; now := now be; log := log be |}).
      specialize (IH (S index) be1). cbn zeta in IH.
      destruct (uploadAll files userId (S index) entropy be1) as [rs be2].
      cbn [fst snd] in *.
      destruct IH as (Hd & He & Hdn & Hl & Hn & Hb & Hok & Hfail).
      rewrite decide_True by done.
      rewrite Hd, He, Hdn, Hl, Hn, Hb. cbn.
      repeat split; auto.
      * apply set_eq. intros p. set_unfold. tauto.
      * intros Hall. apply Forall_cons in Hall as [_ Hall].
        destruct (Hok Hall) as (photos & -> & Hp & Hf & Hs).
        eexists. split; [done|]. cbn. rewrite Hp, Hf, Hs. done.
      * intros Hnall. destruct Hfail as [e ->].
        { intros Hall. apply Hnall. by constructor. }
        eauto.
Qed.

(** X18.  The id [uploadPhoto] gives a photo is the one [deletePhoto]
    needs: after an upload to a free path, the object is stored, and
    deleting the photo by its id removes exactly that object, leaving the
    stored objects as they were before the upload. *)
Theorem uploadPhoto_deletePhoto (file : File) (userId : string)
    (timestamp : Z) (randomString : string) (be : Backend) :
  let path := "dive-photos/" +:+
              generateUniqueFileName (file_name file) userId timestamp
                                     randomString in
  path ∉ denied be → path ∉ blobs be →
  ∃ photo be1 be2,
    uploadPhoto file userId timestamp randomString be = (Ok photo, be1) ∧
    fileName photo = file_name file ∧ photo_size photo = file_size file ∧
    blobs be1 = blobs be ∪ {[path]} ∧
    deletePhoto (photo_id photo) be1 = (Ok tt, be2) ∧
    blobs be2 = blobs be ∧ docs be2 = docs be ∧
    log be2 = log be ++ [DeletedObject path].
Proof.
  intros path Hden Hfree. unfold uploadPhoto, uploadBytes. fold path.
  rewrite bool_decide_eq_false_2 by done.
  eexists _, _, _. split; [done|]. cbn [fileName photo_size photo_id blobs].
  split; [done|]. split; [done|]. split; [done|].
  unfold deletePhoto, deleteObject, photoPath. fold path. cbn [denied blobs].
  rewrite bool_decide_eq_false_2 by done.
  rewrite bool_decide_eq_true_2 by (apply elem_of_union_r; by apply elem_of_singleton).
  split; [done|]. cbn. split; [|done].
  apply set_eq. intros p. set_unfold. split; [|intros ?; split; [by left|]].
  - intros [[?| ->] ?]; done.
  - intros ->. done.
Qed.

Lemma uploadPhoto_deletePhoto_witness :
  let path := "dive-photos/u1/1700000000000_k3x9.png" in
  (path ∉ denied sampleBackend) ∧ (path ∉ blobs sampleBackend) ∧
  ∃ photo be1 be2,
    uploadPhoto (png "reef.png" 2048) "u1" 1700000000000 "k3x9" sampleBackend
      = (Ok photo, be1) ∧
    deletePhoto (photo_id photo) be1 = (Ok tt, be2) ∧
    blobs be2 = blobs sampleBackend.
Proof.
  cbv zeta.
  assert (Hd : "dive-photos/u1/1700000000000_k3x9.png" ∉ denied sampleBackend)
    by apply not_elem_of_empty.
  assert (Hb : "dive-photos/u1/1700000000000_k3x9.png" ∉ blobs sampleBackend)
    by (apply (bool_decide_unpack _); vm_compute; exact I).
  split; [exact Hd|]. split; [exact Hb|].
  destruct (uploadPhoto_deletePhoto (png "reef.png" 2048) "u1" 1700000000000
              "k3x9" sampleBackend Hd Hb)
    as (photo & be1 & be2 & H1 & _ & _ & _ & H2 & H3 & _).
  by exists photo, be1, be2.
Defined.

(** X19.  [uploadPhotos] has no rollback.  Every file whose upload the
    store accepts is stored, whether or not the call as a whole succeeds.
    The call succeeds exactly when no upload is refused, and then returns
    one photo per file, in the order of the files, with the file's name
    and size; otherwise it throws "Failed to upload photos" and the
    objects already stored stay. *)
Theorem uploadPhotos_no_rollback (files : list File) (userId : string)
    (entropy : nat → Z * string) (be : Backend) :
  let paths := uploadPaths files userId 0 entropy in
  let r := uploadPhotos files userId entropy be in
  blobs r.2 = blobs be ∪ list_to_set (filter (λ p, p ∉ denied be) paths) ∧
  docs r.2 = docs be ∧
  (Forall (λ p, p ∉ denied be) paths →
     ∃ photos, r.1 = Ok photos ∧
       photoPath <$> (photo_id <$> photos) = paths ∧
       fileName <$> photos = file_name <$> files ∧
       photo_size <$> photos = file_size <$> files) ∧
  (¬ Forall (λ p, p ∉ denied be) paths →
     r.1 = Throw "Failed to upload photos").
Proof.
  intros paths r. unfold r, uploadPhotos.
  pose proof (uploadAll_spec files userId entropy 0 be) as H. cbn zeta in H.
  fold paths in H.
  destruct (uploadAll files userId 0 entropy be) as [[photos|e] be'];
    cbn [fst snd] in *;
    destruct H as (Hd & _ & _ & _ & _ & Hb & Hok & Hfail);
    repeat split; auto.
  - intros Hn. by destruct (Hfail Hn).
  - intros Hall. by destruct (Hok Hall) as (? & ? & _).
Qed.

Lemma uploadAll_photos (files : list File) (userId : string)
    (entropy : nat → Z * string) : ∀ index be,
  auth (uploadAll files userId index entropy be).2 = auth be ∧
  ∀ photos, (uploadAll files userId index entropy be).1 = Ok photos →
    Forall (λ photo, uploadedAt photo = now be ∧ caption photo = Some "") photos.
Proof.
  induction files as [|file files IH]; intros index be; cbn [uploadAll].
  { split; [done|]. intros photos [= <-]. constructor. }
  unfold uploadPhoto, uploadBytes. case_bool_decide.
  - destruct (IH (S index) be) as [Ha _].
    destruct (uploadAll files userId (S index) entropy be) as [rs be2].
    cbn [fst snd] in *. split; [done|]. by intros photos.
  - match goal with |- context [uploadAll files userId (S index) entropy ?b] =>
      destruct (IH (S index) b) as [Ha Hp];
      destruct (uploadAll files userId (S index) entropy b) as [rs be2] end.
    cbn [fst snd] in *. split; [done|].
    destruct rs as [photos'|e]; [|done]. intros photos [= <-].
    constructor; [done|]. by apply Hp.
Qed.

Lemma photoData_defined (photo : DivePhoto) :
  hasUndefined (photoData photo) = false.
Proof. unfold hasUndefined, photoData. cbn. by destruct (caption photo). Qed.

(** X20.  Logging a dive with photos and deleting it again leaves the
    services as they were.  When the store can be reached, the user is
    signed in, the clock and the date of the dive fit a [Timestamp],
    nothing is refused and the upload paths are new and distinct,
    [uploadPhotos], then [createDiveLog] with the photos it returned,
    then [deleteDiveLog] of the new id all succeed, and afterwards the
    documents and the stored objects are those from before the upload. *)
Theorem log_then_delete (files : list File) (userId : string)
    (entropy : nat → Z * string) (data : DiveLogData) (newId : string)
    (be : Backend) :
  let paths := uploadPaths files userId 0 entropy in
  firestoreError be = None → auth be = Some userId →
  inRange (now be) = true → inRange (d_date data) = true →
  docs be !! newId = None →
  NoDup paths → (∀ p, p ∈ paths → (p ∉ blobs be) ∧ (p ∉ denied be)) →
  ∃ photos be1 be2 be3,
    uploadPhotos files userId entropy be = (Ok photos, be1) ∧
    createDiveLog
      {| d_userId := userId; d_displayName := d_displayName data;
         d_title := d_title data; d_description := d_description data;
         d_location := d_location data; d_date := d_date data;
         d_photos := photoData <$> photos |} newId be1 = (Ok newId, be2) ∧
    deleteDiveLog newId be2 = (Ok tt, be3) ∧
    docs be3 = docs be ∧ blobs be3 = blobs be.
Proof.
  intros paths Hup Hauth Hnow Hdate Hfresh Hdup Hin.
  assert (Hall : Forall (λ p, p ∉ denied be) paths).
  { apply Forall_forall. intros p Hp. by destruct (Hin p Hp). }
  pose proof (uploadAll_spec files userId entropy 0 be) as Hu. cbn zeta in Hu.
  fold paths in Hu.
  pose proof (uploadAll_photos files userId entropy 0 be) as [Ha1 Hphotos].
  unfold uploadPhotos.
  destruct (uploadAll files userId 0 entropy be) as [r be1]. cbn [fst snd] in *.
  destruct Hu as (Hd1 & He1 & Hdn1 & Hl1 & Hn1 & Hb1 & Hok & _).
  destruct (Hok Hall) as (photos & -> & Hpaths & _).
  specialize (Hphotos photos eq_refl).
  set (dd := {| d_userId := userId; d_displayName := d_displayName data;
                d_title := d_title data; d_description := d_description data;
                d_location := d_location data; d_date := d_date data;
                d_photos := photoData <$> photos |}).
  assert (Hup1 : firestoreError be1 = None) by congruence.
  assert (Hw : writable dd be1 = true).
  { unfold writable. rewrite !andb_true_iff, !bool_decide_eq_true.
    cbn [d_date d_photos d_userId dd]. rewrite Hn1.
    split; [split; [split; [by split|]|done]|congruence].
    clear -Hphotos Hnow.
    induction Hphotos as [|photo photos [Hu _] _ IH]; [done|].
    rewrite fmap_cons. cbn [forallb]. rewrite IH, photoData_defined.
    cbn [pd_uploadedAt photoData]. by rewrite Hu, Hnow. }
  pose proof (createDiveLog_writable dd newId be1 Hw) as Hc.
  set (fsd := written dd (now be1)) in *.
  set (be2 := {| docs := <[newId := fsd]> (docs be1); blobs := blobs be1;
                 firestoreError := firestoreError be1; denied := denied be1;
                 auth := auth be1; now := now be1; log := log be1 |}) in *.
  assert (Hdoc2 : docs be2 !! newId = Some fsd) by apply lookup_insert_eq.
  assert (Hp2 : photoPath <$> (fp_id <$> default [] (fs_photos fsd)) = paths).
  { rewrite <- Hpaths. cbn. f_equal. rewrite <- !list_fmap_compose.
    by apply list_fmap_ext. }
  assert (Hfilter : filter (λ p, p ∉ denied be) paths = paths).
  { clear -Hall. induction Hall; [done|].
    rewrite filter_cons, decide_True by done. by f_equal. }
  rewrite Hfilter in Hb1.
  assert (Hin2 : ∀ p, p ∈ paths → p ∈ blobs be2 ∧ p ∉ denied be2).
  { intros p Hp. cbn [blobs denied be2]. rewrite Hb1, Hdn1. split.
    - apply elem_of_union_r. by apply elem_of_list_to_set.
    - by destruct (Hin p Hp). }
  assert (Hok3 : (deleteDiveLog newId be2).1 = Ok tt).
  { apply (deleteDiveLog_succeeds newId fsd be2 Hdoc2 Hup1).
    - cbn. congruence.
    - by rewrite Hp2.
    - by rewrite Hp2. }
  destruct (deleteDiveLog_ok_inv newId fsd be2 Hdoc2 Hok3) as (Hd3 & Hb3 & _).
  rewrite Hp2 in Hb3.
  exists photos, be1, be2, (deleteDiveLog newId be2).2.
  split; [done|]. split; [exact Hc|]. split.
  { rewrite <- Hok3. by destruct (deleteDiveLog newId be2). }
  split.
  - rewrite Hd3. cbn [docs be2]. rewrite Hd1. apply delete_insert_id. done.
  - rewrite Hb3. cbn [blobs be2]. rewrite Hb1. apply set_eq. intros p.
    rewrite elem_of_difference, elem_of_union, elem_of_list_to_set.
    split; [intros [[?|?] ?]; done|].
    intros Hp. split; [by left|]. intros Hp'. by destruct (Hin p Hp').
Qed.

Lemma log_then_delete_witness :
  firestoreError sampleBackend = None ∧ auth sampleBackend = Some "u1" ∧
  docs sampleBackend !! "d9" = None ∧
  NoDup (uploadPaths [png "reef.png" 2048; png "wreck.png" 4096] "u1" 0
                     sampleEntropy) ∧
  ∃ be3,
    (deleteDiveLog "d9"
       (createDiveLog
          {| d_userId := "u1"; d_displayName := d_displayName sampleData;
             d_title := d_title sampleData;
             d_description := d_description sampleData;
             d_location := d_location sampleData; d_date := d_date sampleData;
             d_photos :=
               photoData <$>
               match (uploadPhotos [png "reef.png" 2048; png "wreck.png" 4096]
                        "u1" sampleEntropy sampleBackend).1 with
               | Ok photos => photos
               | Throw _ => []
               end |} "d9"
          (uploadPhotos [png "reef.png" 2048; png "wreck.png" 4096]
             "u1" sampleEntropy sampleBackend).2).2) = (Ok tt, be3) ∧
    docs be3 = docs sampleBackend ∧ blobs be3 = blobs sampleBackend.
Proof.
  assert (Hfresh : docs sampleBackend !! "d9" = None) by (vm_compute; reflexivity).
  assert (Hdup : NoDup (uploadPaths [png "reef.png" 2048; png "wreck.png" 4096]
                          "u1" 0 sampleEntropy))
    by (apply (bool_decide_unpack _); vm_compute; exact I).
  assert (Hnew : Forall (λ p, (p ∉ blobs sampleBackend) ∧ (p ∉ denied sampleBackend))
                   (uploadPaths [png "reef.png" 2048; png "wreck.png" 4096]
                      "u1" 0 sampleEntropy))
    by (apply (bool_decide_unpack _); vm_compute; exact I).
  split; [reflexivity|]. split; [reflexivity|]. split; [exact Hfresh|].
  split; [exact Hdup|].
  destruct (log_then_delete [png "reef.png" 2048; png "wreck.png" 4096] "u1"
              sampleEntropy sampleData "d9" sampleBackend eq_refl eq_refl
              eq_refl eq_refl Hfresh Hdup
              (proj1 (Forall_forall _ _) Hnew))
    as (photos & be1 & be2 & be3 & Hu & Hc & Hd & Hdocs & Hblobs).
  exists be3. rewrite Hu. cbn [fst snd]. rewrite Hc. cbn [snd].
  split; [exact Hd|]. split; [exact Hdocs|exact Hblobs].
Defined.

Lemma avatarPath_inj (userId : string) : Inj (=) (=) (avatarPath userId).
Proof.
  intros e1 e2 H. unfold avatarPath in H.
  by repeat (apply String.app_inj in H).
Qed.

Lemma deleteFirst_spec (userId : string) (exts : list string) : ∀ be,
  let be' := deleteFirst userId exts be in
  docs be' = docs be ∧ denied be' = denied be ∧
  firestoreError be' = firestoreError be ∧
  (blobs be' = blobs be ∨
   ∃ ext, ext ∈ exts ∧ avatarPath userId ext ∈ blobs be ∧
          blobs be' = blobs be ∖ {[avatarPath userId ext]}) ∧
  ((∀ ext, ext ∈ exts → avatarPath userId ext ∉ blobs be) →
   be' = be) ∧
  ((∀ ext, ext ∈ exts → avatarPath userId ext ∉ denied be) →
   (∀ e1 e2, e1 ∈ exts → e2 ∈ exts → avatarPath userId e1 ∈ blobs be →
             avatarPath userId e2 ∈ blobs be → e1 = e2) →
   ∀ ext, ext ∈ exts → avatarPath userId ext ∉ blobs be').
Proof.
  induction exts as [|ext0 exts IH]; intros be; cbn zeta.
  - cbn. repeat split; auto. intros _ _ ext Hin. by apply elem_of_nil in Hin.
  - cbn [deleteFirst]. unfold deleteObject.
    case_bool_decide as Hden; [|case_bool_decide as Hblob].
    + destruct (IH be) as (Hd & Hdn & He & Hb & Hnone & Hone).
      repeat split; auto.
      * destruct Hb as [Hb|(ext & Hin & Hex & Hb)]; [by left|].
        right. exists ext. split; [by apply list_elem_of_further|done].
      * intros Hno. apply Hnone. intros ext Hin.
        apply Hno. by apply list_elem_of_further.
      * intros Hnd. destruct (Hnd ext0); [apply list_elem_of_here|done].
    + cbn. repeat split; auto.
      * right. exists ext0. split; [apply list_elem_of_here|done].
      * intros Hno. destruct (Hno ext0); [apply list_elem_of_here|done].
      * intros _ Huniq ext Hin Hex.
        apply elem_of_difference in Hex as [Hex Hne].
        apply Hne, elem_of_singleton. f_equal.
        apply Huniq; auto. apply list_elem_of_here.
    + destruct (IH be) as (Hd & Hdn & He & Hb & Hnone & Hone).
      repeat split; auto.
      * destruct Hb as [Hb|(ext & Hin & Hex & Hb)]; [by left|].
        right. exists ext. split; [by apply list_elem_of_further|done].
      * intros Hno. apply Hnone. intros ext Hin.
        apply Hno. by apply list_elem_of_further.
      * intros Hnd Huniq ext [->|Hin]%elem_of_cons.
        -- destruct Hb as [->|(ext & _ & _ & ->)]; [done|].
           intros [? _]%elem_of_difference. done.
        -- apply Hone; auto.
           ++ intros e He'. apply Hnd. by apply list_elem_of_further.
           ++ intros e1 e2 H1 H2. apply Huniq; by apply list_elem_of_further.
Qed.

(** X21.  [deleteAvatar] never throws and deletes at most one object: an
    avatar of this user under one of the extensions jpg, jpeg, png, webp
    that was in storage.  When the user has no such object, nothing
    changes at all. *)
Theorem deleteAvatar_at_most_one (userId : string) (be : Backend) :
  let r := deleteAvatar userId be in
  r.1 = Ok tt ∧ docs r.2 = docs be ∧
  (blobs r.2 = blobs be ∨
   ∃ ext, ext ∈ ["jpg"; "jpeg"; "png"; "webp"] ∧
          avatarPath userId ext ∈ blobs be ∧
          blobs r.2 = blobs be ∖ {[avatarPath userId ext]}) ∧
  ((∀ ext, ext ∈ ["jpg"; "jpeg"; "png"; "webp"] →
           avatarPath userId ext ∉ blobs be) → r.2 = be).
Proof.
  intros r. unfold r, deleteAvatar. cbn [fst snd].
  destruct (deleteFirst_spec userId avatarExtensions be)
    as (Hd & _ & _ & Hb & Hnone & _).
  repeat split; auto.
Qed.

(** X22.  A user keeps a single avatar as long as the files have one of
    the four known extensions: when at most one known avatar object of the
    user is in storage and none of these paths is refused, [uploadAvatar]
    of a file with a known extension succeeds, and afterwards the user's
    only known avatar object is the new one; every other object is as it
    was. *)
Theorem uploadAvatar_single (file : File) (userId : string) (be : Backend) :
  let ext := extensionOf (file_name file) in
  let r := uploadAvatar file userId be in
  ext ∈ avatarExtensions →
  (∀ e, e ∈ avatarExtensions → avatarPath userId e ∉ denied be) →
  (∀ e1 e2, e1 ∈ avatarExtensions → e2 ∈ avatarExtensions →
     avatarPath userId e1 ∈ blobs be → avatarPath userId e2 ∈ blobs be →
     e1 = e2) →
  r.1 = Ok (getDownloadURL (avatarPath userId ext)) ∧
  (∀ e, e ∈ avatarExtensions →
     (avatarPath userId e ∈ blobs r.2 ↔ e = ext)) ∧
  (∀ p, (∀ e, e ∈ avatarExtensions → p ≠ avatarPath userId e) →
     (p ∈ blobs r.2 ↔ p ∈ blobs be)).
Proof.
  intros ext r Hext Hnd Huniq. unfold r, uploadAvatar, deleteAvatar.
  cbn [snd]. fold ext.
  destruct (deleteFirst_spec userId avatarExtensions be)
    as (_ & Hdn & _ & Hb & _ & Hone).
  specialize (Hone Hnd Huniq). unfold uploadBytes. rewrite Hdn.
  rewrite bool_decide_eq_false_2 by (by apply Hnd).
  cbn [fst snd blobs]. split; [done|]. split.
  - intros e He. rewrite elem_of_union, elem_of_singleton. split.
    + intros [Hin|Heq]; [by destruct (Hone e He)|].
      by apply (avatarPath_inj userId).
    + intros ->. by right.
  - intros p Hp. rewrite elem_of_union, elem_of_singleton. split.
    + intros [Hin|Heq]; [|subst p; by destruct (Hp ext Hext)].
      destruct Hb as [Hb|(e & _ & _ & Hb)]; rewrite Hb in Hin; [done|].
      by apply elem_of_difference in Hin as [? _].
    + intros Hin. left.
      destruct Hb as [Hb|(e & He & _ & Hb)]; rewrite Hb; [done|].
      apply elem_of_difference. split; [done|].
      intros ->%elem_of_singleton. by destruct (Hp e He).
Qed.


Lemma uploadAvatar_single_witness :
  extensionOf "me.png" ∈ avatarExtensions ∧
  (uploadAvatar (png "me.png" 10) "u1" avatarBackend).1
    = Ok (getDownloadURL "profile-photos/u1/avatar.png") ∧
  "profile-photos/u1/avatar.jpg" ∈ blobs avatarBackend ∧
  "profile-photos/u1/avatar.jpg"
    ∉ blobs (uploadAvatar (png "me.png" 10) "u1" avatarBackend).2.
Proof.
  assert (Hext : extensionOf (file_name (png "me.png" 10)) ∈ avatarExtensions)
    by (apply (bool_decide_unpack _); vm_compute; exact I).
  assert (Hnd : ∀ e, e ∈ avatarExtensions →
                     avatarPath "u1" e ∉ denied avatarBackend)
    by (intros e _; apply not_elem_of_empty).
  assert (Hone : Forall (λ e, avatarPath "u1" e ∈ blobs avatarBackend → e = "jpg")
                        avatarExtensions)
    by (apply (bool_decide_unpack _); vm_compute; exact I).
  assert (Huniq : ∀ e1 e2, e1 ∈ avatarExtensions → e2 ∈ avatarExtensions →
            avatarPath "u1" e1 ∈ blobs avatarBackend →
            avatarPath "u1" e2 ∈ blobs avatarBackend → e1 = e2).
  { intros e1 e2 H1 H2 B1 B2.
    rewrite (proj1 (Forall_forall _ _) Hone e1 H1 B1).
    by rewrite (proj1 (Forall_forall _ _) Hone e2 H2 B2). }
  destruct (uploadAvatar_single (png "me.png" 10) "u1" avatarBackend
              Hext Hnd Huniq) as (Hr & Hknown & _).
  split; [exact Hext|]. split; [exact Hr|]. split.
  - apply (bool_decide_unpack _). vm_compute. exact I.
  - intros Hin. apply (Hknown "jpg") in Hin; [discriminate Hin|].
    apply list_elem_of_here.
Defined.

(** X23.  An avatar stored under any other extension is never removed:
    neither [deleteAvatar] nor a later [uploadAvatar] deletes it, so after
    uploading, say, [me.JPG] and then [me.png] the user has two avatar
    objects. *)
Theorem avatar_other_extension_stays (file : File) (userId ext : string)
    (be : Backend) :
  ext ∉ avatarExtensions →
  avatarPath userId ext ∈ blobs be →
  avatarPath userId ext ∈ blobs (deleteAvatar userId be).2 ∧
  avatarPath userId ext ∈ blobs (uploadAvatar file userId be).2.
Proof.
  intros Hext Hin.
  assert (Hkeep : avatarPath userId ext ∈ blobs (deleteAvatar userId be).2).
  { unfold deleteAvatar. cbn [snd].
    destruct (deleteFirst_spec userId avatarExtensions be)
      as (_ & _ & _ & Hb & _).
    destruct Hb as [->|(e & He & _ & ->)]; [done|].
    apply elem_of_difference. split; [done|].
    intros Heq%elem_of_singleton. apply (avatarPath_inj userId) in Heq.
    by subst. }
  split; [done|]. unfold uploadAvatar, uploadBytes.
  case_bool_decide; cbn [snd blobs]; [done|].
  by apply elem_of_union_l.
Qed.


Lemma avatar_other_extension_stays_witness :
  ("JPG" ∉ avatarExtensions) ∧
  avatarPath "u1" "JPG" ∈ blobs avatarBackend ∧
  avatarPath "u1" "JPG"
    ∈ blobs (uploadAvatar (png "me.png" 10) "u1" avatarBackend).2 ∧
  avatarPath "u1" "png"
    ∈ blobs (uploadAvatar (png "me.png" 10) "u1" avatarBackend).2.
Proof.
  assert (Hext : "JPG" ∉ avatarExtensions)
    by (apply (bool_decide_unpack _); vm_compute; exact I).
  assert (Hin : avatarPath "u1" "JPG" ∈ blobs avatarBackend)
    by (apply (bool_decide_unpack _); vm_compute; exact I).
  split; [exact Hext|]. split; [exact Hin|]. split.
  - exact (proj2 (avatar_other_extension_stays (png "me.png" 10) "u1" "JPG"
                    avatarBackend Hext Hin)).
  - apply (bool_decide_unpack _). vm_compute. exact I.
Defined.

End Uploads.


(** ** The photo picker *)

Section Picker.
Import Storage PhotoUpload.

Lemma validateImageFiles_allValid (files : list File) :
  allValid (validateImageFiles files) = true ↔
  Forall (λ f, isValid (validateImageFile f) = true) files.
Proof.
  unfold validateImageFiles; cbn [allValid].
  rewrite bool_decide_eq_true, validateLoop_length, <- filter_invalid_nil.
  cbn [length]. rewrite Nat.add_0_l. apply length_zero_iff_nil.
Qed.

Lemma Forall_list_delete {A} (P : A → Prop) (l : list A) : ∀ i,
  Forall P l → Forall P (delete i l) ∧ (length (delete i l) ≤ length l)%nat.
Proof.
  induction l as [|x l IH]; intros i Hl; [by split|].
  apply Forall_cons in Hl as [Hx Hl]. destruct i as [|i]; cbn.
  - split; [done|lia].
  - destruct (IH i Hl) as [Hd Hlen]. split; [by constructor|].
    by apply le_n_S.
Qed.

(** X24.  Whatever is dropped, removed or cleared, the photo picker only
    ever holds, and only ever reports to its parent, files that
    [validateImageFile] accepts, never more than [maxFiles] of them; and
    the list the parent was last told is the list the picker holds. *)
Theorem photoUpload_invariant (maxFiles : Z) (actions : list Action) :
  0 ≤ maxFiles →
  let st := foldl (act maxFiles) initial actions in
  Forall (λ f, isValid (validateImageFile f) = true) (selectedFiles st) ∧
  Z.of_nat (length (selectedFiles st)) ≤ maxFiles ∧
  Forall (Forall (λ f, isValid (validateImageFile f) = true)) (reported st) ∧
  (last (reported st) = Some (selectedFiles st) ∨
   reported st = [] ∧ selectedFiles st = []).
Proof.
  intros Hmax. induction actions as [|a actions IH] using rev_ind; cbn zeta.
  - cbn. repeat split; auto.
  - rewrite foldl_snoc. cbn zeta in IH.
    destruct IH as (Hvalid & Hlen & Hrep & Hlast).
    set (st := foldl (act maxFiles) initial actions) in *.
    destruct a as [files|index|]; cbn [act].
    + unfold onDrop.
      destruct (allValid (validateImageFiles files)) eqn:Hall; cbn [negb].
      * destruct (Z.gtb_spec (Z.of_nat (length files)) maxFiles) as [Hgt|Hle];
          cbn [selectedFiles reported]; [done|].
        apply validateImageFiles_allValid in Hall.
        repeat split; auto.
        -- apply Forall_app. split; [done|]. by constructor.
        -- left. apply last_snoc.
      * done.
    + unfold removeFile; cbn [selectedFiles reported].
      destruct (Forall_list_delete _ (selectedFiles st) index Hvalid) as [Hd Hl].
      repeat split; auto.
      * lia.
      * apply Forall_app. split; [done|]. by constructor.
      * left. apply last_snoc.
    + unfold clearAll; cbn [selectedFiles reported]. repeat split; auto.
      * apply Forall_app. split; [done|]. by repeat constructor.
      * left. apply last_snoc.
Qed.

Lemma photoUpload_invariant_witness :
  0 ≤ 10 ∧
  selectedFiles (foldl (act 10) initial
    [Drop [png "a.png" 5; png "b.png" 7];
     Drop [{| file_name := "c.gif"; file_type := "image/gif"; file_size := 5 |}];
     Remove 0]) = [png "b.png" 7] ∧
  Forall (Forall (λ f, isValid (validateImageFile f) = true))
    [[png "a.png" 5; png "b.png" 7]; [png "b.png" 7]].
Proof.
  assert (Hmax : 0 ≤ 10) by lia.
  split; [exact Hmax|]. split; [reflexivity|].
  exact (proj1 (proj2 (proj2 (photoUpload_invariant 10
    [Drop [png "a.png" 5; png "b.png" 7];
     Drop [{| file_name := "c.gif"; file_type := "image/gif"; file_size := 5 |}];
     Remove 0] Hmax)))).
Defined.

End Picker.

(** ** The home page *)

Section Home.
Import Firestore HomePage.

Lemma ids_filter_ne (diveId : string) (L : list DiveLog) :
  list_to_set (id <$> filter (λ dive, id dive ≠ diveId) L)
  = (list_to_set (id <$> L) : gset string) ∖ {[diveId]}.
Proof.
  apply set_eq. intros x.
  rewrite elem_of_difference, !elem_of_list_to_set, !list_elem_of_fmap,
    elem_of_singleton.
  split.
  - intros (d & -> & [Hne Hin]%list_elem_of_filter). eauto.
  - intros [(d & -> & Hin) Hne]. exists d. split; [done|].
    by apply list_elem_of_filter.
Qed.

(** X25.  [handleDeleteDive] changes nothing when the user declines, and
    leaves the page as it was when the deletion fails.  When the deletion
    succeeds, the list loses exactly the records with that id and keeps
    the others in order, the selection is cleared if it was that id and
    kept otherwise, so the selected dive is never the deleted one, and the
    map, once reconciled with the new list, has lost the marker of that id
    and no other. *)
Theorem handleDeleteDive_spec (diveId : string) (confirmed : bool)
    (be : Backend) (st : State) :
  let r := handleDeleteDive diveId confirmed be st in
  (confirmed = false → r = (st, be)) ∧
  (∀ e, confirmed = true → (deleteDiveLog diveId be).1 = Throw e → r.1 = st) ∧
  (confirmed = true → (deleteDiveLog diveId be).1 = Ok tt →
     diveLogs r.1 = filter (λ dive, id dive ≠ diveId) (diveLogs st) ∧
     (diveId ∉ id <$> diveLogs r.1) ∧
     selectedDiveId r.1 ≠ Some diveId ∧
     (selectedDiveId st ≠ Some diveId → selectedDiveId r.1 = selectedDiveId st) ∧
     (∀ d, selectedDive r.1 = Some d → id d ≠ diveId) ∧
     ∀ s g, mapInstanceRef s = Some g →
       liveIds (reconcile (diveLogs r.1) s)
       = liveIds (reconcile (diveLogs st) s) ∖ {[diveId]}).
Proof.
  intros r. unfold r, handleDeleteDive. split; [by intros ->|]. split.
  - intros e -> He. cbn [negb].
    destruct (deleteDiveLog diveId be) as [res be']. cbn in He. by subst.
  - intros -> Hok. cbn [negb].
    destruct (deleteDiveLog diveId be) as [res be']. cbn in Hok. subst res.
    cbn [fst diveLogs selectedDiveId].
    assert (Hnot : diveId ∉ id <$> filter (λ dive, id dive ≠ diveId) (diveLogs st)).
    { intros (d & -> & [Hne _]%list_elem_of_filter)%list_elem_of_fmap. done. }
    split; [done|]. split; [done|]. split; [|split; [|split]].
    + case_bool_decide; [done|]. done.
    + intros Hne. by rewrite bool_decide_eq_false_2.
    + intros d. unfold selectedDive. cbn [selectedDiveId diveLogs].
      destruct (if bool_decide (selectedDiveId st = Some diveId) then None
                else selectedDiveId st) as [sel|]; [|done].
      destruct (list_find _ _) as [[i d']|] eqn:Hfind; [|done].
      cbn. intros [= ->].
      apply list_find_Some in Hfind as (Hi & _ & _).
      apply list_elem_of_lookup_2, list_elem_of_filter in Hi as [Hne _]. done.
    + intros s g Hg.
      rewrite !(reconcile_liveIds _ s g Hg). apply ids_filter_ne.
Qed.

Lemma slice0_sublist {A} (n : Z) (l : list A) : slice0 n l `sublist_of` l.
Proof. unfold slice0. apply sublist_take. Qed.

Lemma getDiveLogs_ids_NoDup (u : option string) (be : Backend) l :
  getDiveLogs u be = Ok l → NoDup (id <$> l).
Proof.
  unfold getDiveLogs.
  destruct (getDocs _ be) as [snap|] eqn:Hq; [|done]. intros [= <-].
  rewrite <- list_fmap_compose.
  replace (id ∘ (λ d : string * FirestoreDiveLog,
                   convertFirestoreDiveLog (now be) d.1 d.2) <$> snap)
    with snap.*1 by (by apply list_fmap_ext).
  by eapply getDocs_ids_NoDup.
Qed.

Lemma getRecentDiveLogs_ids_NoDup (n : option Z) (be : Backend) l :
  getRecentDiveLogs n be = Ok l → NoDup (id <$> l).
Proof.
  unfold getRecentDiveLogs.
  destruct (getDocs _ be) as [snap|] eqn:Hq; [|intros [= <-]; constructor].
  case_bool_decide; intros [= <-]; [constructor|].
  eapply sublist_NoDup; [|apply fmap_sublist, slice0_sublist].
  rewrite <- list_fmap_compose.
  replace (id ∘ (λ d : string * FirestoreDiveLog,
                   convertFirestoreDiveLog (now be) d.1 d.2) <$> snap)
    with snap.*1 by (by apply list_fmap_ext).
  by eapply getDocs_ids_NoDup.
Qed.

(** X26.  The lists the home page gets from [loadDiveLogs] never repeat an
    id, so reconciling a loaded map with them leaves no orphan marker.
    When the store is unreachable the two modes differ: in "my dives" mode
    the list stays as it was, in the other mode it becomes empty, because
    [getRecentDiveLogs] turns the error into an empty list. *)
Theorem loadDiveLogs_spec (be : Backend) (st : State) :
  let st' := loadDiveLogs be st in
  (NoDup (id <$> diveLogs st) → NoDup (id <$> diveLogs st')) ∧
  (firestoreError be = None → NoDup (id <$> diveLogs st')) ∧
  (NoDup (id <$> diveLogs st) →
   ∀ s g, mapInstanceRef s = Some g → tracked s →
          tracked (reconcile (diveLogs st') s)) ∧
  (∀ e, firestoreError be = Some e →
     diveLogs st' =
       if showOnlyMyDives st && bool_decide (is_Some (currentUser st))
       then diveLogs st else []).
Proof.
  intros st'.
  assert (Hdup : NoDup (id <$> diveLogs st) ∨ firestoreError be = None →
                 NoDup (id <$> diveLogs st')).
  { intros Hor. unfold st', loadDiveLogs.
    destruct (showOnlyMyDives st), (currentUser st) as [uid|].
    1: destruct (getDiveLogs (Some uid) be) as [l|e] eqn:Hl;
         [by apply (getDiveLogs_ids_NoDup _ _ _ Hl)|].
    1: { destruct Hor as [?|Hup]; [done|].
         unfold getDiveLogs, getDocs in Hl. rewrite Hup in Hl.
         by destruct (truthy (Some uid)). }
    all: destruct (getRecentDiveLogs (Some 100) be) as [l|e] eqn:Hl;
         [by apply (getRecentDiveLogs_ids_NoDup _ _ _ Hl)|].
    all: unfold getRecentDiveLogs in Hl; destruct (getDocs _ be); [|done];
         by case_bool_decide. }
  split; [by auto|]. split; [by auto|]. split.
  - intros Hnd s g Hg Htr. apply reconcile_tracked with g; auto.
  - intros e He. unfold st', loadDiveLogs, getDiveLogs, getRecentDiveLogs, getDocs.
    rewrite He.
    by destruct (showOnlyMyDives st), (currentUser st) as [uid|]; cbn.
Qed.

End Home.


(** ** The storage rules *)

Section Rules.
Import StorageRules.

(** X27.  The storage rules allow a request exactly when it is on one of
    the two photo folders and is either a read or made by the signed-in
    owner of the folder.  The size and the content type of an upload never
    decide: the two blocks that call [isValidImageUpload] only add to what
    the first blocks already allow. *)
Theorem rules_ignore_validation (req : Request) :
  (allowed req = true ↔
     (folder req = "dive-photos" ∨ folder req = "profile-photos") ∧
     (method req = Read ∨ auth_uid req = Some (pathUserId req))) ∧
  ∀ res, allowed {| auth_uid := auth_uid req; method := method req;
                    folder := folder req; pathUserId := pathUserId req;
                    resource := res |} = allowed req.
Proof.
  assert (Hiff : ∀ r : Request, allowed r = true ↔
     (folder r = "dive-photos" ∨ folder r = "profile-photos") ∧
     (method r = Read ∨ auth_uid r = Some (pathUserId r))).
  { intros r. unfold allowed, rules, applies, isOwner.
    cbn [existsb rule_folder rule_methods rule_condition].
    rewrite !orb_true_iff, !andb_true_iff, !bool_decide_eq_true.
    rewrite !elem_of_cons, !elem_of_nil.
    destruct (method r); intuition congruence. }
  split; [apply Hiff|].
  intros res. apply eq_true_iff_eq. rewrite !Hiff. done.
Qed.

End Rules.

(** ** The info window and the overlay *)

Section View.
Import DiveMapView.

(** X28.  The photo part of the info window accounts for every photo of
    the dive: the placeholder for none, the photo alone for one, and
    otherwise the first photo, the next photos as thumbnails, three at
    most, and a "+n" tile exactly when there are more than four, where n
    is the number of photos not shown. *)
Theorem photoGallery_accounts (diveLog : DiveLog) :
  match photoGallery diveLog with
  | NoPhotos => photos diveLog = []
  | OnePhoto main => ∃ p, photos diveLog = [p] ∧ main = url p
  | ManyPhotos main thumbnails moreCount =>
      ∃ p rest, photos diveLog = p :: rest ∧ rest ≠ [] ∧ main = url p ∧
        thumbnails = url <$> take 3 rest ∧
        (length thumbnails ≤ 3)%nat ∧
        (1 + length thumbnails + default 0%nat moreCount
         = length (photos diveLog))%nat ∧
        (moreCount = None ↔ (length (photos diveLog) ≤ 4)%nat) ∧
        moreCount ≠ Some 0%nat
  end.
Proof.
  unfold photoGallery, slice14.
  destruct (photos diveLog) as [|p rest]; [done|].
  cbn [length head fmap option_fmap option_map default drop].
  rewrite bool_decide_eq_true_2 by lia.
  destruct rest as [|q rest].
  { rewrite bool_decide_eq_true_2 by done. by exists p. }
  rewrite bool_decide_eq_false_2 by (cbn; lia).
  exists p, (q :: rest). split; [done|]. split; [done|]. split; [done|].
  split; [done|]. rewrite length_fmap, length_take, drop_0. cbn [length].
  case_bool_decide as Hn; cbn [default]; unfold Datatypes.id.
  - split; [lia|]. split; [lia|]. split; [split; [done|lia]|].
    intros [= H]. lia.
  - split; [lia|]. split; [lia|]. split; [split; [lia|done]|done].
Qed.

Lemma foldl_totalPhotos (L : list DiveLog) : ∀ a,
  foldl (λ sum dive, (sum + length (photos dive))%nat) a L
  = (a + sum_list (length ∘ photos <$> L))%nat.
Proof.
  induction L as [|d L IH]; intros a; cbn; [lia|]. rewrite IH. lia.
Qed.

Lemma hasThumbnail_createMarkerContent (d : DiveLog) (sel : bool) :
  hasThumbnail (createMarkerContent d sel) = true ↔
  (0 < length (photos d))%nat.
Proof.
  unfold hasThumbnail, createMarkerContent.
  case_bool_decide as Hn; cbn [children].
  - rewrite existsb_app. cbn. rewrite orb_true_r. done.
  - cbn. split; [done|]. intros; lia.
Qed.

(** X29.  The overlay counts agree with the markers: the number it calls
    "with thumbnails" is the number of dives whose marker visual holds a
    photo thumbnail, it never exceeds the number of dives or the total
    number of photos, and the photo line is hidden exactly when no dive
    has a photo. *)
Theorem overlay_counts (diveLogs : list DiveLog) :
  totalPhotos diveLogs = sum_list (length ∘ photos <$> diveLogs) ∧
  divesWithPhotos diveLogs
  = length (filter (λ dive, hasThumbnail (createMarkerContent dive false) = true)
                   diveLogs) ∧
  (divesWithPhotos diveLogs ≤ length diveLogs)%nat ∧
  (divesWithPhotos diveLogs ≤ totalPhotos diveLogs)%nat ∧
  (photoLine diveLogs = None ↔ divesWithPhotos diveLogs = 0%nat) ∧
  (photoLine diveLogs = None ↔ Forall (λ dive, photos dive = []) diveLogs).
Proof.
  assert (Htot : totalPhotos diveLogs = sum_list (length ∘ photos <$> diveLogs)).
  { unfold totalPhotos. by rewrite foldl_totalPhotos. }
  assert (Hle : (divesWithPhotos diveLogs ≤ totalPhotos diveLogs)%nat).
  { rewrite Htot. unfold divesWithPhotos.
    induction diveLogs as [|d L IH]; [done|].
    rewrite filter_cons. cbn [fmap list_fmap sum_list compose].
    pose proof (IH ltac:(unfold totalPhotos; by rewrite foldl_totalPhotos)) as IH'.
    destruct (decide _) as [Hd|Hd]; cbn [length]; cbn in *; lia. }
  assert (Hzero : totalPhotos diveLogs = 0%nat ↔
                  Forall (λ dive, photos dive = []) diveLogs).
  { rewrite Htot. clear. induction diveLogs as [|d L IH]; [by split|].
    cbn [fmap list_fmap sum_list compose]. rewrite Forall_cons, <- IH.
    rewrite <- length_zero_iff_nil. cbn. lia. }
  assert (Hwith : divesWithPhotos diveLogs = 0%nat ↔
                  Forall (λ dive, photos dive = []) diveLogs).
  { unfold divesWithPhotos. clear. induction diveLogs as [|d L IH]; [by split|].
    rewrite filter_cons, Forall_cons, <- IH, <- length_zero_iff_nil.
    destruct (decide _) as [Hd|Hd]; cbn [length]; lia. }
  split; [done|]. split.
  { unfold divesWithPhotos. f_equal. apply list_filter_iff. intros d.
    by rewrite hasThumbnail_createMarkerContent. }
  split; [apply length_filter|]. split; [done|].
  assert (Hline : photoLine diveLogs = None ↔ totalPhotos diveLogs = 0%nat).
  { unfold photoLine. case_bool_decide; split; try done; lia. }
  rewrite Hline, Hzero, Hwith. done.
Qed.

End View.


(** ** The database rules *)

Section DatabaseRules.
Import FirestoreRules.

Lemma allowed_diveLogs (req : Request) :
  collection req = "diveLogs" → allowed req = diveLogs req.
Proof.
  intros Hc. unfold allowed. rewrite Hc.
  rewrite bool_decide_eq_false_2 by discriminate.
  by rewrite bool_decide_eq_true_2.
Qed.

(** X30.  The database rules do not pin the owner of a dive log.  The
    owner may update the record so that it names another user: the update
    rule looks at the stored [userId] only.  From then on the former owner
    can neither update nor delete the record, and the user it names can do
    both.  Whoever is not signed in can write nothing, and can read every
    dive log. *)
Theorem diveLog_owner_not_pinned (u v key : string) :
  u ≠ v →
  let give :=
    {| auth_uid := Some u; operation := Update; collection := "diveLogs";
       docKey := key; stored_userId := Some u; incoming_userId := Some v |} in
  allowed give = true ∧
  (∀ op incoming, op ∈ [Update; Delete] →
     allowed {| auth_uid := Some u; operation := op; collection := "diveLogs";
                docKey := key; stored_userId := afterWrite give;
                incoming_userId := incoming |} = false ∧
     allowed {| auth_uid := Some v; operation := op; collection := "diveLogs";
                docKey := key; stored_userId := afterWrite give;
                incoming_userId := incoming |} = true) ∧
  (∀ req, auth_uid req = None →
     (allowed req = true ↔ collection req = "diveLogs" ∧ operation req = Read)).
Proof.
  intros Hne give. split; [|split].
  - rewrite allowed_diveLogs by done. unfold diveLogs, signedInAs, give.
    cbn [operation auth_uid stored_userId]. by apply bool_decide_eq_true_2.
  - intros op incoming Hop. rewrite !allowed_diveLogs by done.
    unfold diveLogs, signedInAs, afterWrite, give.
    cbn [operation auth_uid stored_userId incoming_userId].
    apply elem_of_cons in Hop as [->|Hop];
      [|apply list_elem_of_singleton in Hop as ->];
      (split; [by apply bool_decide_eq_false_2|by apply bool_decide_eq_true_2]).
  - intros req Hanon. unfold allowed, users, diveLogs, signedInAs.
    rewrite Hanon. repeat case_bool_decide; destruct (operation req);
      split; try done; try (by intros [? ?]); intros [? _]; congruence.
Qed.

Lemma diveLog_owner_not_pinned_witness :
  "u1" ≠ "u2" ∧
  allowed {| auth_uid := Some "u1"; operation := Update;
             collection := "diveLogs"; docKey := "d1";
             stored_userId := Some "u1"; incoming_userId := Some "u2" |} = true ∧
  allowed {| auth_uid := Some "u1"; operation := Delete;
             collection := "diveLogs"; docKey := "d1";
             stored_userId := Some "u2"; incoming_userId := None |} = false.
Proof.
  assert (Hne : "u1" ≠ "u2") by discriminate.
  destruct (diveLog_owner_not_pinned "u1" "u2" "d1" Hne) as (Hgive & Hafter & _).
  split; [exact Hne|]. split; [exact Hgive|].
  apply (Hafter Delete None). apply list_elem_of_further, list_elem_of_here.
Defined.

End DatabaseRules.


(** ** The scenarios of the specification, run *)

Example ex_scenario :
  let s := reconcile [diveA; diveB] loaded in
  markersRef s !! "a" = Some 0%nat ∧ markersRef s !! "b" = Some 1%nat ∧
  (children ∘ content <$> store s) = [[Icon]; [Img "https://x/p1" "Dive b"]].
Proof. vm_compute. auto. Qed.

Example ex_badge :
  children (createMarkerContent diveC true) =
  [Badge "2"; Img "https://x/p2" "Dive c"].
Proof. vm_compute. reflexivity. Qed.

Example ex_select_pans :
  ∃ bounds, mapCalls (run scenarioB mount) =
            [FitBounds bounds; PanTo {| ll_lat := 20; ll_lng := 20 |}].
Proof. eexists. vm_compute. reflexivity. Qed.

Example ex_duplicate_ids :
  let s := run [MapLoaded; DiveLogsChanged [diveA; diveA]; DiveLogsChanged []] mount in
  liveIds s = ∅ ∧ displayed s 0.
Proof. split; [reflexivity|]. eexists. vm_compute. auto. Qed.
